(** * Coreference resolution: rule-based sieve, feature extractors and the
      learned pairwise scorer

    A shallow embedding of [library/coref_rules.py],
    [library/coref_features.py] and the scoring and training code of
    [library/neural_net.py], with the properties of the specification stated
    and proved over it.

    Conventions of the embedding.
    - Python exceptions are values of [exn]; a computation that may raise
      has type [result A] and is sequenced with [x ← m; k].
    - Python lists are Rocq lists; [l[i]] for a non-negative index is
      [getitem l i], which raises [IndexError] out of range.  Indices are
      natural numbers: Python's wrap-around for negative indices is outside
      the model.
    - Python [str] is [string]; [str.lower] is modelled on ASCII letters.
    - Python [dict] (insertion ordered) is an association list without
      repeated keys, see [PyDict].
    - The embeddings and the scores of the scorer are kept as the rationals
      ([Q]) that their [float32] entries denote: a score is never an
      infinity or NaN.  The arithmetic of [train] on the scores, the margin
      term and the accumulated loss, is the one of [float32], with its
      rounding, infinities and NaN, see [float32]. *)

From Stdlib Require Import ZArith QArith Qminmax String Ascii List Lia Lqa.
From Stdlib Require Import Floats.SpecFloat.
From stdpp Require Import base option list strings gmap pretty.

Local Open Scope string_scope.
Local Open Scope nat_scope.
Local Open Scope list_scope.

(** ** Exceptions *)

Inductive exn : Type :=
| KeyError (key : string)
| IndexError
| RuntimeError
| TypeError
| NotImplementedError.

Inductive result (A : Type) : Type :=
| Ok (a : A)
| Raise (e : exn).
Arguments Ok {A} a.
Arguments Raise {A} e.

#[global] Instance result_ret : MRet result := @Ok.
#[global] Instance result_bind : MBind result := λ A B f m,
  match m with
  | Ok a => f a
  | Raise e => Raise e
  end.
#[global] Instance result_fmap : FMap result := λ A B f m,
  match m with
  | Ok a => Ok (f a)
  | Raise e => Raise e
  end.

Definition is_Ok {A} (r : result A) : Prop := ∃ a, r = Ok a.

(** [l[i]] *)
Definition getitem {A} (l : list A) (i : nat) : result A :=
  match l !! i with
  | Some x => Ok x
  | None => Raise IndexError
  end.

(** [l[start:stop]]: a negative index counts from the end, and both are
    brought back within the list. *)
Definition slice_index (len : nat) (k : Z) : nat :=
  if (k <? 0)%Z then Z.to_nat (Z.max (k + Z.of_nat len) 0)
  else Nat.min (Z.to_nat k) len.
Definition py_slice {A} (l : list A) (start stop : Z) : list A :=
  let lo := slice_index (length l) start in
  let hi := slice_index (length l) stop in
  take (hi - lo) (drop lo l).

(** [enumerate(l)], counting from [n] *)
Fixpoint enumerate_from {A} (n : nat) (l : list A) : list (nat * A) :=
  match l with
  | [] => []
  | x :: l' => (n, x) :: enumerate_from (S n) l'
  end.
Definition enumerate {A} (l : list A) : list (nat * A) := enumerate_from 0 l.

(** [[f(x) for x in l]] for an [f] that may raise: stops at the first
    exception. *)
Fixpoint mapM {A B} (f : A → result B) (l : list A) : result (list B) :=
  match l with
  | [] => Ok []
  | x :: l' => y ← f x; ys ← mapM f l'; Ok (y :: ys)
  end.

(** ** Strings *)

Definition lower_char (c : ascii) : ascii :=
  let n := nat_of_ascii c in
  if (65 <=? n)%nat && (n <=? 90)%nat then ascii_of_nat (n + 32) else c.

(** [s.lower()] *)
Fixpoint lower (s : string) : string :=
  match s with
  | EmptyString => EmptyString
  | String c s' => String (lower_char c) (lower s')
  end.

(** ["".join(toks)] *)
Fixpoint join (toks : list string) : string :=
  match toks with
  | [] => ""
  | t :: toks' => t +:+ join toks'
  end.

(** ** Markables *)

(** Modelled from the spec: the [Markable] class, declared in
    [library/coref.py], of which the sources here only use the fields. *)
Module Markable.
Record t : Type := mk {
  string : list String.string;
  entity : String.string;
  start_token : Z;
  end_token : Z;
  tags : list String.string
}.
End Markable.
Abbreviation Markable := Markable.t.

(** * [coref_rules.py] *)
Module coref_rules.

Definition pronouns : list string :=
  ["i"; "me"; "mine"; "you"; "your"; "yours"; "she"; "her"; "hers"] ++
  ["he"; "him"; "his"; "it"; "its"; "they"; "them"; "their"; "theirs"] ++
  ["this"; "those"; "these"; "that"; "we"; "our"; "us"; "ours"].

Definition downcase_list (toks : list string) : list string :=
  map lower toks.

Definition exact_match (m_a m_i : Markable) : bool :=
  bool_decide (downcase_list (Markable.string m_a)
               = downcase_list (Markable.string m_i)).

Definition singleton_matcher (m_a m_i : Markable) : bool :=
  bool_decide (Markable.start_token m_a = Markable.start_token m_i)
  && bool_decide (Markable.end_token m_a = Markable.end_token m_i).

Definition full_cluster_matcher (m_a m_i : Markable) : bool := true.

Definition exact_match_no_pronouns (m_a m_i : Markable) : bool :=
  bool_decide (downcase_list (Markable.string m_a)
               = downcase_list (Markable.string m_i))
  && negb (bool_decide (lower (join (Markable.string m_a)) ∈ pronouns)).

(** [m.string[-1]] *)
Definition last_token (m : Markable) : result string :=
  match last (Markable.string m) with
  | Some t => Ok t
  | None => Raise IndexError
  end.

Definition match_last_token (m_a m_i : Markable) : result bool :=
  t_a ← last_token m_a;
  t_i ← last_token m_i;
  Ok (bool_decide (lower t_a = lower t_i)).

(** [lo <= x <= hi] *)
Definition between (lo x hi : Z) : bool := (lo <=? x)%Z && (x <=? hi)%Z.

Definition match_no_overlap (m_a m_i : Markable) : bool :=
  negb (between (Markable.start_token m_i) (Markable.start_token m_a)
                (Markable.end_token m_i))
  && negb (between (Markable.start_token m_a) (Markable.start_token m_i)
                   (Markable.end_token m_a)).

Definition match_last_token_no_overlap (m_a m_i : Markable) : result bool :=
  b ← match_last_token m_a m_i;
  Ok (b && match_no_overlap m_a m_i).

Definition ALLOWED_TAGS : list string :=
  ["CD"; "NN"; "NNS"; "NNP"; "NNPS"; "PRP"; "PRP$"; "JJ"; "JJR"; "JJS"].

(** [[token for i, token in enumerate(m.string) if m.tags[i] in ALLOWED_TAGS]] *)
Fixpoint filter_content (tags : list string) (toks : list (nat * string))
  : result (list string) :=
  match toks with
  | [] => Ok []
  | (i, token) :: toks' =>
      tag ← getitem tags i;
      rest ← filter_content tags toks';
      Ok (if bool_decide (tag ∈ ALLOWED_TAGS) then token :: rest else rest)
  end.

Definition match_on_content (m_a m_i : Markable) : result bool :=
  filtered_ma_s ← filter_content (Markable.tags m_a)
                                 (enumerate (Markable.string m_a));
  filtered_mi_s ← filter_content (Markable.tags m_i)
                                 (enumerate (Markable.string m_i));
  Ok (negb (between (Markable.start_token m_i) (Markable.start_token m_a)
                    (Markable.end_token m_i))
      && negb (between (Markable.start_token m_a) (Markable.start_token m_i)
                       (Markable.end_token m_a))
      && bool_decide (downcase_list filtered_ma_s
                      = downcase_list filtered_mi_s)).

(** A matcher is any Python callable on two markables: it returns a boolean
    or raises. *)
Definition matcher : Type := Markable → Markable → result bool.

(** A predicate, as a matcher that never raises. *)
Definition pure_matcher (p : Markable → Markable → bool) : matcher :=
  λ m_a m_i, Ok (p m_a m_i).

(** The inner loop [for a, m_a in enumerate(markables[:i])] over the
    candidates still to visit, updating [antecedents[i]] in place. *)
Fixpoint scan_candidates (f : matcher) (i : nat) (m_i : Markable)
    (cands : list (nat * Markable)) (antecedents : list nat)
  : result (list nat) :=
  match cands with
  | [] => Ok antecedents
  | (a, m_a) :: cands' =>
      f m_a m_i ≫= λ b : bool,
      scan_candidates f i m_i cands'
        (if b then <[i:=a]> antecedents else antecedents)
  end.

(** The outer loop [for i, m_i in enumerate(markables)] over the mentions
    still to visit. *)
Fixpoint scan_mentions (f : matcher) (markables : list Markable)
    (todo : list (nat * Markable)) (antecedents : list nat)
  : result (list nat) :=
  match todo with
  | [] => Ok antecedents
  | (i, m_i) :: todo' =>
      antecedents' ← scan_candidates f i m_i
                       (enumerate (take i markables)) antecedents;
      scan_mentions f markables todo' antecedents'
  end.

Definition most_recent_match (markables : list Markable) (f : matcher)
  : result (list nat) :=
  scan_mentions f markables (enumerate markables)
                (seq 0 (length markables)).

Definition make_resolver (pairwise_matcher : matcher)
  : list Markable → result (list nat) :=
  λ markables, most_recent_match markables pairwise_matcher.

End coref_rules.

(** * Python dictionaries *)

(** A [dict] with string keys keeps its keys in insertion order:
    [d[k] = v] replaces the value of a key already present, in place, and
    appends a new key at the end. *)
Module PyDict.

Definition t (V : Type) : Type := list (string * V).

Definition empty {V} : t V := [].

(** [d.get(k)] *)
Fixpoint get {V} (d : t V) (k : string) : option V :=
  match d with
  | [] => None
  | (k', v) :: d' => if decide (k' = k) then Some v else get d' k
  end.

(** [d[k] = v] *)
Fixpoint setitem {V} (k : string) (v : V) (d : t V) : t V :=
  match d with
  | [] => [(k, v)]
  | (k', v') :: d' =>
      if decide (k' = k) then (k', v) :: d' else (k', v') :: setitem k v d'
  end.

(** [d.update(other)] *)
Definition update {V} (d other : t V) : t V :=
  fold_left (λ acc kv, setitem kv.1 kv.2 acc) other d.

(** [d.items()] and [d.keys()], in insertion order *)
Definition items {V} (d : t V) : list (string * V) := d.
Definition keys {V} (d : t V) : list string := d.*1.

(** The association lists that are dictionaries: no key twice. *)
Definition wf {V} (d : t V) : Prop := NoDup (keys d).

End PyDict.

(** * [coref_features.py] *)
Module coref_features.

(** [defaultdict(float)] holding the integer literal [1] for each feature
    that fires. *)
Abbreviation FeatureSet := (PyDict.t Z).

(** A feature function is any Python callable [(markables, a, i)]. *)
Definition extractor : Type :=
  list Markable → nat → nat → result FeatureSet.

Definition crossover (m_a m_i : Markable) : bool :=
  coref_rules.between (Markable.start_token m_a) (Markable.start_token m_i)
                      (Markable.end_token m_a)
  || coref_rules.between (Markable.start_token m_i) (Markable.start_token m_a)
                         (Markable.end_token m_i).

Definition minimal_features : extractor := λ markables a i,
  let f : FeatureSet := PyDict.empty in
  m_a ← getitem markables a;
  m_i ← getitem markables i;
  if decide (a = i) then Ok (PyDict.setitem "new-entity" 1%Z f)
  else
    let f := if coref_rules.exact_match m_a m_i
             then PyDict.setitem "exact-match" 1%Z f else f in
    coref_rules.match_last_token m_a m_i ≫= λ b : bool,
    let f := if b then PyDict.setitem "last-token-match" 1%Z f else f in
    coref_rules.match_on_content m_a m_i ≫= λ b : bool,
    let f := if b then PyDict.setitem "content-match" 1%Z f else f in
    let f := if crossover m_a m_i
             then PyDict.setitem "crossover" 1%Z f else f in
    Ok f.

(** ["mention-distance-{}".format(d)] and ["token-distance-{}".format(d)] *)
Definition mention_distance_key (d : Z) : string :=
  "mention-distance-" +:+ pretty d.
Definition token_distance_key (d : Z) : string :=
  "token-distance-" +:+ pretty d.

Definition distance_features (x : list Markable) (a i : nat)
    (max_mention_distance max_token_distance : Z) : result FeatureSet :=
  let f : FeatureSet := PyDict.empty in
  if decide (a = i) then Ok f
  else
    let mention_dist :=
      Z.min (Z.abs (Z.of_nat i - Z.of_nat a)) max_mention_distance in
    x_i ← getitem x i;
    x_a ← getitem x a;
    let token_dist :=
      Z.min (Z.abs (Markable.start_token x_i - Markable.end_token x_a))
            max_token_distance in
    let f := if (0 <? mention_dist)%Z
             then PyDict.setitem (mention_distance_key mention_dist) 1%Z f
             else f in
    let f := if (0 <? token_dist)%Z
             then PyDict.setitem (token_distance_key token_dist) 1%Z f
             else f in
    Ok f.

(** [distance_features] called with three arguments, as a feature function:
    the ceilings take their default values. *)
Definition distance_features_default : extractor := λ x a i,
  distance_features x a i 5 10.

(** The loop of [union_func] over the feature functions still to call. *)
Fixpoint union_loop (feat_func_list : list extractor)
    (x : list Markable) (a i : nat) (f : FeatureSet) : result FeatureSet :=
  match feat_func_list with
  | [] => Ok f
  | feat_func :: rest =>
      d ← feat_func x a i;
      union_loop rest x a i (PyDict.update f d)
  end.

Definition make_feature_union (feat_func_list : list extractor)
  : extractor :=
  λ x a i, union_loop feat_func_list x a i PyDict.empty.

Definition make_bakeoff_features : result extractor :=
  Raise NotImplementedError.

End coref_features.

(** * Floating-point numbers

    The entries of a [torch.FloatTensor] are IEEE 754 binary32 numbers:
    [spec_float] of the Standard Library with a mantissa of 24 bits and
    infinities at exponent 128.  The operations round to nearest, ties to
    even. *)
Module float32.

Definition prec : Z := 24.
Definition emax : Z := 128.

Definition zero : spec_float := S754_zero false.
Definition add : spec_float → spec_float → spec_float := SFadd prec emax.
Definition sub : spec_float → spec_float → spec_float := SFsub prec emax.
Definition leb : spec_float → spec_float → bool := SFleb.

Definition is_nan (x : spec_float) : bool :=
  match x with S754_nan => true | _ => false end.
Definition is_zero (x : spec_float) : bool :=
  match x with S754_zero _ => true | _ => false end.
Definition is_finite (x : spec_float) : bool :=
  match x with S754_zero _ | S754_finite _ _ _ => true | _ => false end.

(** The number that a finite entry denotes. *)
Definition to_Q (x : spec_float) : Q :=
  match x with
  | S754_finite s m e =>
      match e with
      | Zneg k => cond_Zopp s (Zpos m) # 2 ^ k
      | _ => inject_Z (cond_Zopp s (Zpos m) * 2 ^ e)
      end
  | _ => 0
  end.

(** The quotient [n / d] with sign [s], rounded. *)
Definition round_quotient (s : bool) (n d : positive) : spec_float :=
  let '(mz, ez, lz) := SFdiv_core_binary prec emax (Zpos n) 0 (Zpos d) 0 in
  binary_round_aux prec emax s mz ez lz.

(** The entry that a [FloatTensor] holds for the number [q]: [q] itself
    when it is a binary32 number, as the scores are, and otherwise the
    nearest one, an infinity beyond the range; this is how
    [torch.Tensor([margin])] reads a Python [float]. *)
Definition of_Q (q : Q) : spec_float :=
  match Qnum q with
  | Z0 => S754_zero false
  | Zpos n => round_quotient false n (Qden q)
  | Zneg n => round_quotient true n (Qden q)
  end.

(** The maximum of two entries as [torch.max] takes it: NaN if one of them
    is NaN, otherwise the larger one, the first one among equal ones. *)
Definition max (a b : spec_float) : spec_float :=
  match SFcompare a b with
  | None => S754_nan
  | Some Lt => b
  | Some _ => a
  end.

End float32.

(** Python's [float] is binary64. *)
Module float64.

Definition prec : Z := 53.
Definition emax : Z := 1024.

(** The binary64 number of the same value as a binary32 one. *)
Definition of_float32 (x : spec_float) : spec_float :=
  match x with
  | S754_finite s m e => binary_normalize prec emax (cond_Zopp s (Zpos m)) e s
  | _ => x
  end.

(** [float(n)] for a Python [int] that is not negative. *)
Definition of_nat (n : nat) : spec_float :=
  binary_normalize prec emax (Z.of_nat n) 0 false.

Definition div : spec_float → spec_float → spec_float := SFdiv prec emax.

End float64.

(** * [neural_net.py] *)
Module neural_net.

(** The tensor operations of the scorer that are PyTorch's own: the type of
    the markable embeddings, their first dimension, and the two
    concatenations of [forward] with the feature block (given as its rows),
    which raise on operands of the wrong shape. *)
Class Torch : Type := {
  tensor : Type;
  (** [t.shape[0]] *)
  shape0 : tensor → nat;
  (** [torch.cat((emb_i, emb_a, feature_emb.view(1, n * d)), dim=1)] *)
  cat_row : tensor → tensor → list (list Q) → result tensor;
  (** [torch.cat((emb_i, emb_a, feature_emb.view(n * d)))] *)
  cat_flat : tensor → tensor → list (list Q) → result tensor
}.

(** The larger of two entries. *)
Definition qmax (a b : Q) : Q := if Qle_bool a b then b else a.

(** [torch.max(t)] of a one-dimensional tensor: raises on an empty one. *)
Definition tensor_max (t : list Q) : result Q :=
  match t with
  | [] => Raise RuntimeError
  | x :: t' => Ok (fold_left qmax t' x)
  end.

(** [torch.max(t)] of a one-dimensional tensor given with its [float32]
    entries. *)
Definition float_tensor_max (t : list spec_float) : result spec_float :=
  match t with
  | [] => Raise RuntimeError
  | x :: t' => Ok (fold_left float32.max t' x)
  end.

(** [t[0, indices]] for a [1 x n] tensor given as its row. *)
Definition index_select (t : list Q) (indices : list nat) : result (list Q) :=
  mapM (getitem t) indices.

Section scorer.
Context `{Torch}.

(** [nn.Embedding(num_embeddings, embedding_dim)] with the entries [w]:
    a table of [num_embeddings] rows. *)
Definition Embedding (num_embeddings embedding_dim : nat)
    (w : nat → nat → Q) : list (list Q) :=
  map (λ r, map (w r) (seq 0 embedding_dim)) (seq 0 num_embeddings).

(** [emb(LongTensor([i]))] *)
Definition embedding_lookup (emb : list (list Q)) (i : nat)
  : result (list Q) := getitem emb i.

(** [t[i] = row], for a two-dimensional tensor given as its rows. *)
Definition tensor_setitem (t : list (list Q)) (i : nat) (row : list Q)
  : result (list (list Q)) :=
  if decide (i < length t) then Ok (<[i:=row]> t) else Raise IndexError.

Record SequentialScorer : Type := {
  feat_set : list string;
  feat_emb_dim : nat;
  feat_to_idx : gmap string nat;
  idx_to_feat : gmap nat string;
  feat_off_embs : list (list Q);
  feat_on_embs : list (list Q);
  (** [self.net(input)[0]]: the feed-forward network, PyTorch's *)
  net : tensor → result Q
}.

(** [SequentialScorer.__init__]; the initial values of the learned
    parameters, drawn at random by PyTorch, are [off_w], [on_w] and
    [net0].  The body has no failing statement: it does not look at the
    feature names beyond numbering them, and it is a total function here. *)
Definition SequentialScorer_init (mark_embedding_dim : nat)
    (feat_set : list string) (feat_emb_dim hidden_dim : nat)
    (off_w on_w : nat → nat → Q) (net0 : tensor → result Q)
  : SequentialScorer :=
  {| feat_set := feat_set;
     feat_emb_dim := feat_emb_dim;
     feat_to_idx :=
       fold_left (λ d '(i, feat), <[feat:=i]> d) (enumerate feat_set) ∅;
     idx_to_feat :=
       fold_left (λ d '(i, feat), <[i:=feat]> d) (enumerate feat_set) ∅;
     feat_off_embs := Embedding (length feat_set) feat_emb_dim off_w;
     feat_on_embs := Embedding (length feat_set) feat_emb_dim on_w;
     net := net0 |}.

(** [self.feat_to_idx[feat]] *)
Definition feat_index (self : SequentialScorer) (feat : string)
  : result nat :=
  match feat_to_idx self !! feat with
  | Some idx => Ok idx
  | None => Raise (KeyError feat)
  end.

(** The first loop of [forward]: [for i in range(len(self.feat_set))]. *)
Fixpoint fill_off (self : SequentialScorer) (indices : list nat)
    (feature_emb : list (list Q)) : result (list (list Q)) :=
  match indices with
  | [] => Ok feature_emb
  | i :: rest =>
      row ← embedding_lookup (feat_off_embs self) i;
      feature_emb ← tensor_setitem feature_emb i row;
      fill_off self rest feature_emb
  end.

(** The second loop of [forward]: [for i, feat in enumerate(pos_feats)].
    The right-hand side of the assignment is evaluated before the index of
    its target. *)
Fixpoint fill_on (self : SequentialScorer) (pos_feats : list (nat * string))
    (feature_emb : list (list Q)) : result (list (list Q)) :=
  match pos_feats with
  | [] => Ok feature_emb
  | (i, feat) :: rest =>
      row ← embedding_lookup (feat_on_embs self) i;
      idx ← feat_index self feat;
      feature_emb ← tensor_setitem feature_emb idx row;
      fill_on self rest feature_emb
  end.

(** The feature-embedding block of [forward], before it is reshaped. *)
Definition feature_block (self : SequentialScorer) (pos_feats : list string)
  : result (list (list Q)) :=
  let feature_emb :=
    replicate (length (feat_set self)) (replicate (feat_emb_dim self) 0%Q) in
  feature_emb ← fill_off self (seq 0 (length (feat_set self))) feature_emb;
  fill_on self (enumerate pos_feats) feature_emb.

Definition forward (self : SequentialScorer) (emb_i emb_a : tensor)
    (pos_feats : list string) : result Q :=
  feature_emb ← feature_block self pos_feats;
  input ← (if decide (shape0 emb_i = 1)
           then cat_row emb_i emb_a feature_emb
           else cat_flat emb_i emb_a feature_emb);
  net self input.

(** [[k for k, v in feats(markables, a, i).items() if v > 0]] *)
Definition get_pos_feats (feats : coref_features.extractor)
    (markables : list Markable) (a i : nat) : result (list string) :=
  d ← feats markables a i;
  Ok (map fst (filter (λ kv, (0 < kv.2)%Z) (PyDict.items d))).

(** [score_instance]: the entries of the [1 x (i+1)] tensor [scores] that
    the loop writes, one per markable of [markables[:i+1]]. *)
Definition score_instance (self : SequentialScorer)
    (doc_embs : list tensor) (markables : list Markable) (i : nat)
    (feats : coref_features.extractor) : result (list Q) :=
  mapM (λ '(ant_index, ant),
          emb_i ← getitem doc_embs i;
          emb_a ← getitem doc_embs ant_index;
          pos_feats ← get_pos_feats feats markables ant_index i;
          forward self emb_i emb_a pos_feats)
       (enumerate (take (i + 1) markables)).

(** [[index for index in range(0, i)
      if markables[index].entity == markables[true_antecedent].entity]],
    and the same with [!=] when [same] is [false]. *)
Fixpoint entity_indices (same : bool) (markables : list Markable)
    (true_antecedent : nat) (indices : list nat) : result (list nat) :=
  match indices with
  | [] => Ok []
  | index :: rest =>
      m ← getitem markables index;
      m_t ← getitem markables true_antecedent;
      others ← entity_indices same markables true_antecedent rest;
      let eq := bool_decide (Markable.entity m = Markable.entity m_t) in
      Ok (if (if same then eq else negb eq) then index :: others else others)
  end.

Definition instance_top_scores (self : SequentialScorer)
    (doc_embs : list tensor) (markables : list Markable)
    (i true_antecedent : nat) (feats : coref_features.extractor)
  : result (option Q * option Q) :=
  if bool_decide (i = 0) || bool_decide (i = true_antecedent)
  then Ok (None, None)
  else
    scores ← score_instance self doc_embs markables i feats;
    all_trues_indices ←
      entity_indices true markables true_antecedent (seq 0 i);
    all_false_indices ←
      entity_indices false markables true_antecedent (seq 0 i);
    if decide (length all_trues_indices = i) then Ok (None, None)
    else
      trues ← index_select scores all_trues_indices;
      trues_max_val ← tensor_max trues;
      falses ← index_select scores all_false_indices;
      false_max_val ← tensor_max falses;
      Ok (Some trues_max_val, Some false_max_val).

End scorer.

Section embeddings.
Context `{Torch}.

Record BiLSTMWordEmbedding : Type := {
  word_to_ix : gmap string nat;
  word_embeddings : list (list Q);
  (** [self.lstm.forward(embeds.view(len(document), 1, -1), self.hidden)[0]]
      as the list of its rows: the recurrent network, PyTorch's *)
  lstm : list (list Q) → result (list tensor)
}.

(** [BiLSTMWordEmbedding.__init__]; the initial values of the learned
    parameters are [w] and [lstm0]. *)
Definition BiLSTMWordEmbedding_init (word_to_ix : gmap string nat)
    (word_embedding_dim : nat) (w : nat → nat → Q)
    (lstm0 : list (list Q) → result (list tensor)) : BiLSTMWordEmbedding :=
  {| word_to_ix := word_to_ix;
     word_embeddings := Embedding (size word_to_ix) word_embedding_dim w;
     lstm := lstm0 |}.

(** The body of the loop [for word in document] of
    [BiLSTMWordEmbedding.forward]. *)
Definition word_embedding (self : BiLSTMWordEmbedding) (word : string)
  : result (list Q) :=
  match word_to_ix self !! word with
  | Some word_index => embedding_lookup (word_embeddings self) word_index
  | None => Raise (KeyError word)
  end.

(** [BiLSTMWordEmbedding.forward]; [torch.cat] raises on an empty list. *)
Definition BiLSTMWordEmbedding_forward (self : BiLSTMWordEmbedding)
    (document : list string) : result (list tensor) :=
  embeds ← mapM (word_embedding self) document;
  match embeds with
  | [] => Raise RuntimeError
  | _ :: _ => lstm self embeds
  end.

(** [AttentionBasedMarkableEmbedding.forward]; [attend] stands for what
    follows the slice, on a span that is not empty: the concatenation, the
    linear layer [u], the softmax and the weighted sum, PyTorch's. *)
Definition AttentionBasedMarkableEmbedding_forward
    (attend : list tensor → result tensor)
    (embeddings : list tensor) (markable : Markable) : result tensor :=
  let span_embeddings :=
    py_slice embeddings (Markable.start_token markable)
             (Markable.end_token markable) in
  match span_embeddings with
  | [] => Raise RuntimeError
  | _ :: _ => attend span_embeddings
  end.

End embeddings.

Section training_and_inference.
Context `{Torch}.

(** The collaborators of [train] and [evaluate] that live outside these
    sources: the gold antecedent oracle [coref.get_true_antecedents], the
    evaluator [coref.eval_on_dataset] and [utils.argmax]. *)
Variable get_true_antecedents : list Markable → result (list nat).
Variable eval_on_dataset :
  (list Markable → result (list nat)) → list (list Markable) → result unit.
Variable argmax : list Q → result nat.

(** The embedding producers: [doc_lstm_model(words)] and
    [attn_model(base_embs, m)]. *)
Variable doc_lstm_model : list string → result (list tensor).
Variable attn_model : list tensor → Markable → result tensor.

(** [ag.Variable(torch.Tensor([margin])) - max_t + max_f], from the left to
    the right in [float32]. *)
Definition marg (margin max_t max_f : Q) : spec_float :=
  float32.add (float32.sub (float32.of_Q margin) (float32.of_Q max_t))
              (float32.of_Q max_f).

(** The loop [for i in range(len(marks))] of [train] over the mentions
    still to visit, with the loss accumulated so far. *)
Fixpoint accumulate_loss (scoring_model : SequentialScorer)
    (att_embs : list tensor) (marks : list Markable) (true_ants : list nat)
    (feats : coref_features.extractor) (margin : Q)
    (indices : list nat) (loss : spec_float) : result spec_float :=
  match indices with
  | [] => Ok loss
  | i :: rest =>
      true_ant ← getitem true_ants i;
      tops ← instance_top_scores scoring_model att_embs marks i true_ant
                                 feats;
      match tops with
      | (None, _) =>
          accumulate_loss scoring_model att_embs marks true_ants feats
                          margin rest loss
      | (Some max_t, Some max_f) =>
          let marg := marg margin max_t max_f in
          hinge ← float_tensor_max [float32.zero; marg];
          accumulate_loss scoring_model att_embs marks true_ants feats
                          margin rest (float32.add loss hinge)
      | (Some _, None) => Raise TypeError
      end
  end.

(** The body of the document loop of [train], up to the loss handed to
    [loss.backward()]; the loss starts as [torch.FloatTensor([0.0])]. *)
Definition document_loss (scoring_model : SequentialScorer)
    (feats : coref_features.extractor) (word_limit : nat) (margin : Q)
    (words : list string) (marks : list Markable) : result spec_float :=
  let words := take word_limit words in
  let marks :=
    filter (λ m, (Markable.end_token m < Z.of_nat word_limit)%Z) marks in
  base_embs ← doc_lstm_model words;
  att_embs ← mapM (attn_model base_embs) marks;
  true_ants ← get_true_antecedents marks;
  accumulate_loss scoring_model att_embs marks true_ants feats margin
                  (seq 0 (length marks)) float32.zero.

(** [emb_dict[key]] *)
Definition emb_dict_lookup (emb_dict : gmap string (list tensor))
    (key : string) : result (list tensor) :=
  match emb_dict !! key with
  | Some embs => Ok embs
  | None => Raise (KeyError key)
  end.

Definition make_resolver (feats : coref_features.extractor)
    (emb_dict : gmap string (list tensor))
    (scoring_model : SequentialScorer)
  : list Markable → result (list nat) :=
  λ markables,
    mapM (λ i,
            m_0 ← getitem markables 0;
            doc_embs ← emb_dict_lookup emb_dict (Markable.entity m_0);
            scores ← score_instance scoring_model doc_embs markables i feats;
            argmax scores)
         (seq 0 (length markables)).

(** The document loop of [evaluate], filling [emb_dict]. *)
Fixpoint fill_emb_dict (docs : list (list string * list Markable))
    (emb_dict : gmap string (list tensor))
  : result (gmap string (list tensor)) :=
  match docs with
  | [] => Ok emb_dict
  | (words, marks) :: rest =>
      base_embs ← doc_lstm_model words;
      att_embs ← mapM (attn_model base_embs) marks;
      m_0 ← getitem marks 0;
      fill_emb_dict rest (<[Markable.entity m_0:=att_embs]> emb_dict)
  end.

Definition evaluate (scoring_model : SequentialScorer)
    (words_set : list (list string)) (markable_set : list (list Markable))
    (feats : coref_features.extractor)
  : result (list Markable → result (list nat)) :=
  emb_dict ← fill_emb_dict (zip words_set markable_set) ∅;
  let resolver := make_resolver feats emb_dict scoring_model in
  _ ← eval_on_dataset resolver markable_set;
  Ok resolver.

End training_and_inference.

(** What the document loop of [train] can raise: the exceptions of the
    steps above, and the one of the division by [len(marks)]. *)
Inductive train_exn : Type :=
| Exn (e : exn)
| ZeroDivisionError.

Section training_report.
Context `{Torch}.
Variable get_true_antecedents : list Markable → result (list nat).
Variable doc_lstm_model : list string → result (list tensor).
Variable attn_model : list tensor → Markable → result tensor.

(** The document loop of [train] from the loss to the entry of
    [doc_losses]: the loss of the document and [sc_loss / len(marks)],
    with [utils.to_scalar] read as the entry of the one-entry tensor, a
    Python [float], and the entry of [doc_losses] before it is formatted. *)
Definition document_report (scoring_model : SequentialScorer)
    (feats : coref_features.extractor) (word_limit : nat) (margin : Q)
    (words : list string) (marks : list Markable)
  : train_exn + spec_float * spec_float :=
  match document_loss get_true_antecedents doc_lstm_model attn_model
          scoring_model feats word_limit margin words marks with
  | Raise e => inl (Exn e)
  | Ok loss =>
      let marks :=
        filter (λ m, (Markable.end_token m < Z.of_nat word_limit)%Z) marks in
      let sc_loss := float64.of_float32 loss in
      if decide (length marks = 0) then inl ZeroDivisionError
      else inr (sc_loss, float64.div sc_loss (float64.of_nat (length marks)))
  end.

End training_report.
End neural_net.

(** * Concrete collaborators

    Instances of the collaborators, on which the definitions above can be
    run. *)
Module concrete.
Import neural_net.

(** One-dimensional tensors, the shape of the embeddings that the attention
    component returns: they can be concatenated with the flattened feature
    block, and not, along dimension 1, with the block reshaped to a row:
    a one-dimensional tensor has no dimension 1, and [torch.cat] raises
    [IndexError]. *)
#[global] Instance torch_vectors : Torch := {|
  tensor := list Q;
  shape0 := length;
  cat_row := λ _ _ _, Raise IndexError;
  cat_flat := λ emb_i emb_a feature_emb,
    Ok (emb_i ++ emb_a ++ concat feature_emb)
|}.

(** [nn.Linear]: one row of weights and one bias per output. *)
Record Linear : Type := { weight : list (list Q); bias : list Q }.

Definition dot (w x : list Q) : Q :=
  fold_left Qplus (zip_with Qmult w x) 0%Q.

Definition Linear_forward (l : Linear) (x : list Q) : result (list Q) :=
  if forallb (λ row, Nat.eqb (length row) (length x)) (weight l)
  then Ok (zip_with (λ row b, (dot row x + b)%Q) (weight l) (bias l))
  else Raise RuntimeError.

Definition ReLU (x : Q) : Q := qmax 0%Q x.

(** [nn.Sequential(l1, nn.ReLU(), l2)(input)[0]] *)
Definition Sequential (l1 l2 : Linear) (input : list Q) : result Q :=
  h ← Linear_forward l1 input;
  out ← Linear_forward l2 (map ReLU h);
  getitem out 0.

(** Modelled from the spec: [utils.argmax], the index of the maximum score
    (the first one, among equal scores). *)
Fixpoint argmax_from (best_index : nat) (best : Q) (index : nat)
    (scores : list Q) : nat :=
  match scores with
  | [] => best_index
  | s :: scores' =>
      if Qle_bool s best then argmax_from best_index best (S index) scores'
      else argmax_from index s (S index) scores'
  end.
Definition argmax (scores : list Q) : result nat :=
  match scores with
  | [] => Raise RuntimeError
  | s :: scores' => Ok (argmax_from 0 s 1 scores')
  end.

(** Modelled from the spec: [coref.get_true_antecedents], for each mention
    the nearest preceding markable with the same [entity], or the mention
    itself if there is none. *)
Definition nearest_same_entity (markables : list Markable) (i : nat)
    (m_i : Markable) : nat :=
  fold_left (λ r '(a, m_a),
               if bool_decide (Markable.entity m_a = Markable.entity m_i)
               then a else r)
            (enumerate (take i markables)) i.
Definition get_true_antecedents (markables : list Markable)
  : result (list nat) :=
  Ok (map (λ '(i, m_i), nearest_same_entity markables i m_i)
          (enumerate markables)).

End concrete.

(** * Notions used in the statements *)

(** The index that the inner scan leaves for mention [m_i]: the last
    candidate on which [p] holds, [default] if there is none. *)
Definition last_match (p : Markable → Markable → bool) (m_i : Markable)
    (cands : list (nat * Markable)) (default : nat) : nat :=
  fold_left (λ r '(a, m_a), if p m_a m_i then a else r) cands default.

(** [p] holds on [(markables[a], markables[i])]. *)
Definition compatible (p : Markable → Markable → bool)
    (markables : list Markable) (a i : nat) : bool :=
  match markables !! a, markables !! i with
  | Some m_a, Some m_i => p m_a m_i
  | _, _ => false
  end.

(** The scenario of the dog: ["the dog"], ["it"], ["the dog"]. *)
Definition the_dog (start_token : Z) (entity : string) : Markable :=
  Markable.mk ["the"; "dog"] entity start_token (start_token + 1)
              ["DT"; "NN"].
Definition it_ (start_token : Z) (entity : string) : Markable :=
  Markable.mk ["it"] entity start_token start_token ["PRP"].

(** [m] with its gold label blanked: what is left of a markable when
    [entity] is not looked at. *)
Definition erase_entity (m : Markable) : Markable :=
  Markable.mk (Markable.string m) "" (Markable.start_token m)
              (Markable.end_token m) (Markable.tags m).

(** Two markable lists that differ at most in the [entity] values. *)
Definition differ_only_in_entity (ms ms' : list Markable) : Prop :=
  map erase_entity ms = map erase_entity ms'.

(** A feature function that does not read [entity]. *)
Definition entity_blind (feats : coref_features.extractor) : Prop :=
  ∀ ms ms' a i, differ_only_in_entity ms ms' → feats ms a i = feats ms' a i.

(** [markables[k]] and [markables[t]] carry the same gold entity. *)
Definition same_entity (markables : list Markable) (k t : nat) : bool :=
  match markables !! k, markables !! t with
  | Some m, Some m_t =>
      bool_decide (Markable.entity m = Markable.entity m_t)
  | _, _ => false
  end.

(** The feature names of [minimal_features], as a vocabulary. *)
Definition minimal_vocabulary : list string :=
  ["new-entity"; "exact-match"; "last-token-match"; "content-match";
   "crossover"].

(** A scorer over [minimal_vocabulary] for embeddings of dimension 2, with
    feature embeddings of dimension 1, all zero, and a network that returns
    [ReLU] of the first entry of the antecedent embedding. *)
Definition first_entry_net : list Q → result Q :=
  concrete.Sequential
    {| concrete.weight := [[0; 0; 1; 0; 0; 0; 0; 0; 0]%Q];
       concrete.bias := [0%Q] |}
    {| concrete.weight := [[1%Q]]; concrete.bias := [0%Q] |}.

Definition first_entry_scorer
  : neural_net.SequentialScorer (H:=concrete.torch_vectors) :=
  neural_net.SequentialScorer_init 2 minimal_vocabulary 1 1
    (λ _ _, 0%Q) (λ _ _, 0%Q) first_entry_net.

(** Stand-ins for the embedding producers: no word embeddings, and for a
    markable the vector [(n, 0)], with [n] the number of its tokens. *)
Definition no_word_embeddings : list string → result (list (list Q)) :=
  λ _, Ok [].
Definition token_count_embedding
  : list (list Q) → Markable → result (list Q) :=
  λ _ m, Ok [inject_Z (Z.of_nat (length (Markable.string m))); 0%Q].

(** Two documents of two markables, ["the dog ... it"] of entity ["A"] and
    ["it ... the dog"] of entity ["B"], and their embeddings, stored under
    the entity of the first markable of each, as [evaluate] does. *)
Definition document_A : list Markable := [the_dog 0 "A"; it_ 3 "A"].
Definition document_B : list Markable := [it_ 0 "B"; the_dog 2 "B"].
Definition two_documents : gmap string (list (list Q)) :=
  <["B":=[[1; 0]; [2; 0]]%Q]> (<["A":=[[2; 0]; [1; 0]]%Q]> ∅).

(** The hinge term of one eligible mention,
    [max(0, margin - best_true_score + best_false_score)], as [train]
    computes it in [float32]. *)
Definition hinge (margin max_t max_f : Q) : spec_float :=
  float32.max float32.zero (neural_net.marg margin max_t max_f).

(** A number within the range of [float32]: its entry in a [FloatTensor]
    is not an infinity.  Every rational that is a [float32] number is. *)
Definition in_range (q : Q) : Prop :=
  float32.is_finite (float32.of_Q q) = true.

(** A [float32] number that is not NaN and whose sign bit is [s]. *)
Definition signed (s : bool) (x : spec_float) : Prop :=
  match x with
  | S754_zero s' | S754_infinity s' | S754_finite s' _ _ => s' = s
  | S754_nan => False
  end.

(** NaN, or a number whose sign bit is clear: a zero, a positive number or
    the positive infinity. *)
Definition nan_or_positive (x : spec_float) : Prop :=
  x = S754_nan ∨ signed false x.

(** The exponent of a finite number is not below the least one, that of
    the subnormal numbers. *)
Definition exponent_bounded (prec emax : Z) (x : spec_float) : Prop :=
  match x with
  | S754_finite _ _ e => (emin prec emax ≤ e)%Z
  | _ => True
  end.

(** The pairs [(best_true_score, best_false_score)] of the eligible
    mentions among [indices]: those for which [instance_top_scores] does
    not return [(None, None)]. *)
Definition eligible_scores `{neural_net.Torch}
    (scoring_model : neural_net.SequentialScorer)
    (att_embs : list neural_net.tensor) (marks : list Markable)
    (true_ants : list nat) (feats : coref_features.extractor)
    (indices : list nat) : list (Q * Q) :=
  omap (λ i,
          match true_ants !! i with
          | Some true_ant =>
              match neural_net.instance_top_scores scoring_model att_embs
                      marks i true_ant feats with
              | Ok (Some max_t, Some max_f) => Some (max_t, max_f)
              | _ => None
              end
          | None => None
          end) indices.

(** A document of three mentions, ["the dog"], ["it"], ["the dog"], the
    first and the last of one entity, with the embeddings of its
    markables. *)
Definition dog_document : list Markable :=
  [the_dog 0 "A"; it_ 3 "B"; the_dog 5 "A"].
Definition dog_embeddings : list (list Q) :=
  [[1; 0]; [2; 0]; [3; 0]]%Q.

(** Another stand-in: for a markable the vector [(start_token, 0)]. *)
Definition start_token_embedding
  : list (list Q) → Markable → result (list Q) :=
  λ _ m, Ok [inject_Z (Markable.start_token m); 0%Q].

(** Two feature functions that both give a value to ["crossover"]. *)
Definition crossover_twice : coref_features.extractor :=
  λ _ _ _, Ok [("crossover", 2%Z); ("twice", 1%Z)].

(** A markable without tokens. *)
Definition no_tokens (start_token : Z) (entity : string) : Markable :=
  Markable.mk [] entity start_token start_token [].

(** The feature names of [distance_features] under its default ceilings,
    as a vocabulary. *)
Definition distance_vocabulary : list string :=
  map coref_features.mention_distance_key [1; 2; 3; 4; 5]%Z
  ++ map coref_features.token_distance_key [1; 2; 3; 4; 5; 6; 7; 8; 9; 10]%Z.

(** A markable has a tag for each of its tokens. *)
Definition tags_cover (m : Markable) : Prop :=
  length (Markable.string m) ≤ length (Markable.tags m).

(** A feature function that always raises. *)
Definition failing_features : coref_features.extractor :=
  λ _ _ _, Raise RuntimeError.

(** A vocabulary of three words, and a stand-in for the recurrent network
    that returns the word embeddings unchanged. *)
Definition three_words : gmap string nat :=
  <["dog":=2]> (<["the":=1]> (<["it":=0]> ∅)).
Definition identity_lstm : list (list Q) → result (list (list Q)) :=
  λ embeds, Ok embeds.
Definition three_words_embedding
  : neural_net.BiLSTMWordEmbedding (H:=concrete.torch_vectors) :=
  neural_net.BiLSTMWordEmbedding_init three_words 2
    (λ r c, inject_Z (Z.of_nat (10 * r + c))) identity_lstm.

(** A stand-in for the attention over a span: its first embedding. *)
Definition first_of_span : list (list Q) → result (list Q) :=
  λ span, getitem span 0.

(** * Properties of [coref_rules.py] *)

Lemma lower_app (s1 s2 : string) : lower (s1 +:+ s2) = lower s1 +:+ lower s2.
Proof. induction s1 as [|c s1 IH]; simpl; [done|]. by rewrite IH. Qed.

Lemma lower_join (toks : list string) :
  lower (join toks) = join (coref_rules.downcase_list toks).
Proof.
  induction toks as [|t toks IH]; simpl; [done|].
  by rewrite lower_app, IH.
Qed.

(** C10. [exact_match_no_pronouns] is symmetric: the pronoun test reads
    the first argument only, and the equality of the downcased token
    sequences that the predicate also requires makes the test on either
    argument the same. *)
Theorem exact_match_no_pronouns_symmetric (x y : Markable) :
  coref_rules.exact_match_no_pronouns x y
  = coref_rules.exact_match_no_pronouns y x.
Proof.
  unfold coref_rules.exact_match_no_pronouns.
  destruct (decide (coref_rules.downcase_list (Markable.string x)
                    = coref_rules.downcase_list (Markable.string y)))
    as [Heq|Hne].
  - rewrite (bool_decide_eq_true_2 _ Heq).
    rewrite (bool_decide_eq_true_2 _ (eq_sym Heq)).
    by rewrite !lower_join, Heq.
  - rewrite (bool_decide_eq_false_2 _ Hne).
    assert (coref_rules.downcase_list (Markable.string y)
            ≠ coref_rules.downcase_list (Markable.string x)) as Hne'
      by congruence.
    by rewrite (bool_decide_eq_false_2 _ Hne').
Qed.

(** ** The inner scan *)

Lemma scan_candidates_pure p i m_i cands (antecedents : list nat) :
  coref_rules.scan_candidates (coref_rules.pure_matcher p) i m_i cands
                              antecedents
  = Ok (fold_left (λ (acc : list nat) '((a, m_a) : nat * Markable),
               if p m_a m_i then <[i:=a]> acc else acc)
                  cands antecedents).
Proof.
  revert antecedents.
  induction cands as [|[a m_a] cands IH]; intros antecedents; simpl; [done|].
  apply IH.
Qed.

Lemma scan_candidates_last_match (p : Markable → Markable → bool) i m_i cands
    (antecedents : list nat) d :
  antecedents !! i = Some d →
  fold_left (λ (acc : list nat) '((a, m_a) : nat * Markable),
               if p m_a m_i then <[i:=a]> acc else acc)
            cands antecedents
  = <[i:=last_match p m_i cands d]> antecedents.
Proof.
  revert antecedents d.
  induction cands as [|[a m_a] cands IH]; intros antecedents d Hd; simpl.
  - by rewrite list_insert_id.
  - destruct (p m_a m_i).
    + rewrite (IH _ a).
      * unfold last_match. simpl. by rewrite list_insert_insert_eq.
      * apply list_lookup_insert_eq. by eapply lookup_lt_Some.
    + by rewrite (IH _ d).
Qed.

Lemma last_match_spec (p : Markable → Markable → bool) m_i
    (l : list Markable) n d :
  let r := last_match p m_i (enumerate_from n l) d in
  (r = d ∧ ∀ k m, l !! k = Some m → p m m_i = false)
  ∨ (∃ k m, r = n + k ∧ l !! k = Some m ∧ p m m_i = true
            ∧ ∀ k' m', k < k' → l !! k' = Some m' → p m' m_i = false).
Proof.
  revert n d. induction l as [|x l IH]; intros n d; simpl.
  - left. split; [done|]. intros k m Hk. by rewrite lookup_nil in Hk.
  - unfold last_match. simpl.
    destruct (IH (S n) (if p x m_i then n else d)) as [[Hr Hno]|Hyes].
    + unfold last_match in Hr. rewrite Hr.
      destruct (p x m_i) eqn:Hx.
      * right. exists 0, x. repeat split; [lia|done|].
        intros [|k'] m' Hlt Hk'; [lia|]. by eapply Hno.
      * left. split; [done|]. intros [|k] m Hk; simpl in Hk.
        -- by simplify_eq.
        -- by eapply Hno.
    + destruct Hyes as (k & m & Hr & Hk & Hp & Hlater).
      right. exists (S k), m. unfold last_match in Hr.
      repeat split; [lia|done|done|].
      intros [|k'] m' Hlt Hk'; [lia|]. simpl in Hk'.
      eapply (Hlater k'); [lia|done].
Qed.

(** ** The outer scan *)

Lemma scan_mentions_pure (p : Markable → Markable → bool)
    (markables rest pre : list Markable) (antecedents : list nat) :
  markables = pre ++ rest →
  length antecedents = length markables →
  (∀ j, length pre ≤ j → j < length markables → antecedents !! j = Some j) →
  ∃ antecedents',
    coref_rules.scan_mentions (coref_rules.pure_matcher p) markables
      (enumerate_from (length pre) rest) antecedents = Ok antecedents'
    ∧ length antecedents' = length markables
    ∧ (∀ j, j < length pre → antecedents' !! j = antecedents !! j)
    ∧ (∀ j m_j, length pre ≤ j → markables !! j = Some m_j →
         antecedents' !! j
         = Some (last_match p m_j (enumerate (take j markables)) j)).
Proof.
  revert pre antecedents.
  induction rest as [|m rest IH]; intros pre antecedents Hm Hlen Hinit; simpl.
  - exists antecedents. repeat split; [done|].
    intros j m_j Hj Hlook. apply lookup_lt_Some in Hlook.
    rewrite Hm, length_app in Hlook. simpl in Hlook. lia.
  - assert (length pre < length markables) as Hi
      by (rewrite Hm, length_app; simpl; lia).
    rewrite scan_candidates_pure.
    rewrite (scan_candidates_last_match _ _ _ _ _ (length pre))
      by (apply Hinit; lia).
    simpl.
    set (r := last_match p m (enumerate (take (length pre) markables))
                         (length pre)).
    destruct (IH (pre ++ [m]) (<[length pre:=r]> antecedents))
      as (antecedents' & Hrun & Hlen' & Hkeep & Hnew).
    + by rewrite <- app_assoc.
    + by rewrite length_insert.
    + intros j Hj Hj'. rewrite length_app in Hj. simpl in Hj.
      rewrite list_lookup_insert_ne by lia. apply Hinit; lia.
    + rewrite length_app in Hrun, Hkeep, Hnew. simpl in Hrun, Hkeep, Hnew.
      replace (length pre + 1) with (S (length pre)) in Hrun by lia.
      exists antecedents'. repeat split; [done|done| |].
      * intros j Hj. rewrite Hkeep by lia.
        apply list_lookup_insert_ne. lia.
      * intros j m_j Hj Hlook.
        destruct (decide (j = length pre)) as [->|Hne].
        -- rewrite Hkeep by lia.
           rewrite list_lookup_insert_eq by lia.
           rewrite Hm, lookup_app_r, Nat.sub_diag in Hlook by lia.
           simpl in Hlook. by simplify_eq.
        -- apply Hnew; [lia|done].
Qed.

Lemma most_recent_match_pure (p : Markable → Markable → bool)
    (markables : list Markable) :
  ∃ antecedents,
    coref_rules.most_recent_match markables (coref_rules.pure_matcher p)
    = Ok antecedents
    ∧ length antecedents = length markables
    ∧ ∀ i m_i, markables !! i = Some m_i →
        antecedents !! i
        = Some (last_match p m_i (enumerate (take i markables)) i).
Proof.
  unfold coref_rules.most_recent_match, enumerate.
  destruct (scan_mentions_pure p markables markables []
              (seq 0 (length markables)))
    as (antecedents & Hrun & Hlen & _ & Hnew).
  - done.
  - by rewrite length_seq.
  - intros j _ Hj. by rewrite lookup_seq_lt.
  - exists antecedents. repeat split; [done|done|].
    intros i m_i Hi. apply Hnew; [simpl; lia|done].
Qed.

(** C1. For every markable list and every pairwise predicate,
    [most_recent_match] returns an assignment, of the length of the list, in
    which [antecedent[i]] is the largest index [a < i] such that the
    predicate holds on [(markable[a], markable[i])], and is [i] when there
    is no such index; when the predicate holds for both [(a1, i)] and
    [(a2, i)] with [a1 < a2 < i], the result for [i] is never [a1] and is
    at least [a2]: it is [a2] exactly when the predicate holds on no
    candidate between [a2] and [i]. *)
Theorem most_recent_match_largest_compatible
    (p : Markable → Markable → bool) (markables : list Markable) :
  ∃ antecedents,
    coref_rules.most_recent_match markables (coref_rules.pure_matcher p)
    = Ok antecedents
    ∧ length antecedents = length markables
    ∧ (∀ i, i < length markables →
         ∃ r, antecedents !! i = Some r
              ∧ ((r < i ∧ compatible p markables r i = true
                  ∧ ∀ a, r < a < i → compatible p markables a i = false)
                 ∨ (r = i ∧ ∀ a, a < i → compatible p markables a i = false)))
    ∧ (∀ a1 a2 i, a1 < a2 < i →
         compatible p markables a1 i = true →
         compatible p markables a2 i = true →
         antecedents !! i ≠ Some a1
         ∧ ∃ r, antecedents !! i = Some r ∧ a2 ≤ r < i
                ∧ (r = a2
                   ↔ ∀ a, a2 < a < i → compatible p markables a i = false)).
Proof.
  destruct (most_recent_match_pure p markables)
    as (antecedents & Hrun & Hlen & Hspec).
  assert (∀ i, i < length markables →
            ∃ r, antecedents !! i = Some r
              ∧ ((r < i ∧ compatible p markables r i = true
                  ∧ ∀ a, r < a < i → compatible p markables a i = false)
                 ∨ (r = i ∧ ∀ a, a < i → compatible p markables a i = false)))
    as Hmain.
  { intros i Hi.
    destruct (lookup_lt_is_Some_2 markables i Hi) as [m_i Hm_i].
    eexists. split; [by apply Hspec|].
    unfold enumerate.
    destruct (last_match_spec p m_i (take i markables) 0 i)
      as [[Hr Hno]|(k & m & Hr & Hk & Hp & Hlater)].
    - right. split; [done|]. intros a Ha. unfold compatible.
      rewrite Hm_i.
      destruct (markables !! a) as [m_a|] eqn:Hm_a; [|done].
      apply (Hno a). by rewrite lookup_take_lt.
    - left. simpl in Hr. rewrite Hr.
      assert (k < i) as Hki.
      { apply lookup_lt_Some in Hk. rewrite length_take in Hk. lia. }
      rewrite lookup_take_lt in Hk by done.
      split; [done|]. split.
      + unfold compatible. by rewrite Hk, Hm_i.
      + intros a Ha. unfold compatible. rewrite Hm_i.
        destruct (markables !! a) as [m_a|] eqn:Hm_a; [|done].
        apply (Hlater a); [lia|]. by rewrite lookup_take_lt by lia. }
  exists antecedents. repeat split; [done|done|done| |].
  - intros Ha1. destruct H as [H12 H2i].
    assert (i < length markables) as Hi.
    { unfold compatible in H1. destruct (markables !! a2); [|done].
      destruct (markables !! i) eqn:Hmi; [|done]. by eapply lookup_lt_Some. }
    destruct (Hmain i Hi) as (r & Hr & [(Hlt & _ & Hnone)|(-> & Hnone)]).
    + simplify_eq. rewrite (Hnone a2) in H1 by lia. done.
    + rewrite (Hnone a2) in H1 by lia. done.
  - destruct H as [H12 H2i].
    assert (i < length markables) as Hi.
    { unfold compatible in H1. destruct (markables !! a2); [|done].
      destruct (markables !! i) eqn:Hmi; [|done]. by eapply lookup_lt_Some. }
    destruct (Hmain i Hi) as (r & Hr & [(Hlt & Hcomp & Hnone)|(-> & Hnone)]).
    + assert (a2 ≤ r) as Hle.
      { destruct (decide (a2 ≤ r)) as [|Hgt]; [done|].
        rewrite (Hnone a2) in H1 by lia. done. }
      exists r. split; [done|]. split; [done|]. split.
      * intros -> a Ha. apply Hnone. lia.
      * intros Hlater. destruct (decide (r = a2)) as [|Hne]; [done|].
        rewrite (Hlater r) in Hcomp by lia. done.
    + rewrite (Hnone a2) in H1 by lia. done.
Qed.

(** C1, as the specification has it, fails in its last clause: when every
    pair is compatible, the candidates 0 and 1 are both compatible with
    mention 3, and the result for mention 3 is 2, the candidate after
    them, not 1. *)
Lemma most_recent_match_later_candidate_counterexample :
  let markables :=
    [the_dog 0 "e1"; it_ 3 "e1"; the_dog 5 "e1"; it_ 8 "e1"] in
  compatible coref_rules.full_cluster_matcher markables 0 3 = true
  ∧ compatible coref_rules.full_cluster_matcher markables 1 3 = true
  ∧ coref_rules.most_recent_match markables
      (coref_rules.pure_matcher coref_rules.full_cluster_matcher)
    = Ok [0; 0; 1; 2]
  ∧ [0; 0; 1; 2] !! 3 ≠ Some 1.
Proof. repeat split; by vm_compute. Qed.

Example most_recent_match_the_dog :
  coref_rules.make_resolver
    (coref_rules.pure_matcher coref_rules.exact_match)
    [the_dog 0 "e1"; it_ 3 "e1"; the_dog 5 "e1"]
  = Ok [0; 1; 0].
Proof. reflexivity. Qed.

Example most_recent_match_prefers_closest :
  coref_rules.make_resolver
    (coref_rules.pure_matcher coref_rules.full_cluster_matcher)
    [the_dog 0 "e1"; it_ 3 "e1"; the_dog 5 "e1"; it_ 8 "e1"]
  = Ok [0; 0; 1; 2].
Proof. reflexivity. Qed.

(** * Degenerate documents *)

(** C2. Every resolver, the rule-based one built by
    [coref_rules.make_resolver] over any matcher and the learned one built
    by [neural_net.make_resolver] over any scoring model, returns the empty
    assignment on a document with no markables, and raises nothing. *)
Theorem resolvers_on_empty_document :
  (∀ f : coref_rules.matcher, coref_rules.make_resolver f [] = Ok [])
  ∧ (∀ (T : neural_net.Torch) (argmax : list Q → result nat)
       (feats : coref_features.extractor)
       (emb_dict : gmap string (list neural_net.tensor))
       (scoring_model : neural_net.SequentialScorer),
       neural_net.make_resolver argmax feats emb_dict scoring_model []
       = Ok []).
Proof. split; intros; reflexivity. Qed.

(** * The feature-embedding block of the scorer *)

Lemma snd_enumerate_from {A} n (l : list A) : (enumerate_from n l).*2 = l.
Proof. revert n. induction l as [|x l IH]; intros n; simpl; [done|]. by rewrite IH. Qed.

Lemma fst_enumerate_from {A} n (l : list A) :
  (enumerate_from n l).*1 = seq n (length l).
Proof. revert n. induction l as [|x l IH]; intros n; simpl; [done|]. by rewrite IH. Qed.

Lemma elem_of_enumerate_from {A} n (l : list A) k x :
  l !! k = Some x → (n + k, x) ∈ enumerate_from n l.
Proof.
  revert n k. induction l as [|y l IH]; intros n [|k] Hk; simplify_eq/=.
  - rewrite Nat.add_0_r. left.
  - right. replace (n + S k) with (S n + k) by lia. by apply IH.
Qed.

Lemma Embedding_lookup n dim w i :
  i < n →
  neural_net.Embedding n dim w !! i = Some (map (w i) (seq 0 dim)).
Proof.
  intros Hi. unfold neural_net.Embedding.
  by rewrite list_lookup_fmap, lookup_seq_lt.
Qed.

Lemma Embedding_length n dim w : length (neural_net.Embedding n dim w) = n.
Proof. unfold neural_net.Embedding. by rewrite length_map, length_seq. Qed.

Lemma feat_to_idx_fold_None (l : list string) n (d : gmap string nat) feat :
  (fold_left (λ (d : gmap string nat) '((i, feat) : nat * string),
                <[feat:=i]> d) (enumerate_from n l) d) !! feat = None
  ↔ (feat ∉ l) ∧ d !! feat = None.
Proof.
  revert n d. induction l as [|x l IH]; intros n d; simpl.
  - split; [|tauto]. intros Hd. split; [|done]. apply not_elem_of_nil.
  - rewrite IH, not_elem_of_cons.
    destruct (decide (x = feat)) as [->|Hne].
    + rewrite lookup_insert_eq. split; [intros [_ ?]; done|tauto].
    + rewrite lookup_insert_ne by done. split; [|tauto].
      intros [? ?]. split; [|done]. split; [congruence|done].
Qed.

Lemma getitem_Ok {A} (l : list A) i x : l !! i = Some x → getitem l i = Ok x.
Proof. unfold getitem. by intros ->. Qed.

Section scorer_facts.
Context `{neural_net.Torch}.
Import neural_net.

Lemma fill_off_in_range (self : SequentialScorer) indices feature_emb :
  Forall (λ i, i < length (feat_off_embs self)) indices →
  Forall (λ i, i < length feature_emb) indices →
  is_Ok (fill_off self indices feature_emb).
Proof.
  revert feature_emb.
  induction indices as [|i indices IH]; intros feature_emb Hall Hfit; simpl.
  - by eexists.
  - apply Forall_cons in Hall as [Hi Hrest].
    apply Forall_cons in Hfit as [Hi' Hrest'].
    unfold embedding_lookup, getitem.
    destruct (lookup_lt_is_Some_2 _ _ Hi) as [row ->]. simpl.
    unfold tensor_setitem. rewrite decide_True by done. simpl.
    apply IH; [done|]. by rewrite length_insert.
Qed.

Lemma fill_on_unknown (self : SequentialScorer) pos_feats feature_emb feat :
  feat ∈ pos_feats.*2 → feat_to_idx self !! feat = None →
  ∃ e, fill_on self pos_feats feature_emb = Raise e
       ∧ (e = IndexError
          ∨ ∃ feat', e = KeyError feat' ∧ feat' ∈ pos_feats.*2
                     ∧ feat_to_idx self !! feat' = None).
Proof.
  revert feature_emb.
  induction pos_feats as [|[i f] pos_feats IH]; intros feature_emb Hin Hnone.
  - by apply elem_of_nil in Hin.
  - simpl. unfold embedding_lookup, getitem.
    destruct (feat_on_embs self !! i) as [row|]; simpl;
      [|exists IndexError; by split; [|left]].
    unfold feat_index.
    destruct (feat_to_idx self !! f) as [idx|] eqn:Hf; simpl.
    + simpl in Hin. apply elem_of_cons in Hin as [->|Hin]; [congruence|].
      unfold tensor_setitem. case_decide; simpl;
        [|exists IndexError; by split; [|left]].
      destruct (IH (<[idx:=row]> feature_emb) Hin Hnone)
        as (e & He & [->|(feat' & -> & Hin' & Hnone')]).
      * exists IndexError. by split; [|left].
      * exists (KeyError feat'). split; [done|]. right.
        exists feat'. repeat split; [|done]. by right.
    + exists (KeyError f). split; [done|]. right. exists f.
      repeat split; [|done]. by left.
Qed.

Lemma fill_off_slots (self : SequentialScorer) m k feature_emb :
  k + m ≤ length (feat_off_embs self) →
  k + m ≤ length feature_emb →
  ∃ block, fill_off self (seq k m) feature_emb = Ok block
           ∧ length block = length feature_emb
           ∧ (∀ j, k ≤ j < k + m → block !! j = feat_off_embs self !! j)
           ∧ (∀ j, ¬ (k ≤ j < k + m) → block !! j = feature_emb !! j).
Proof.
  revert k feature_emb.
  induction m as [|m IH]; intros k feature_emb Htable Hfit; simpl.
  - exists feature_emb. split; [done|]. split; [done|].
    split; [intros j Hj; lia|done].
  - unfold embedding_lookup.
    destruct (lookup_lt_is_Some_2 (feat_off_embs self) k) as [row Hrow];
      [lia|].
    rewrite (getitem_Ok _ _ _ Hrow). simpl.
    unfold tensor_setitem. rewrite decide_True by lia. simpl.
    destruct (IH (S k) (<[k:=row]> feature_emb)) as (block & Hrun & Hlen & Hin & Hout);
      [lia|rewrite length_insert; lia|].
    rewrite length_insert in Hlen.
    exists block. repeat split; [done|done| |].
    + intros j Hj. destruct (decide (j = k)) as [->|Hne].
      * rewrite Hout by lia. rewrite list_lookup_insert_eq by lia. done.
      * apply Hin. lia.
    + intros j Hj. rewrite Hout by lia.
      apply list_lookup_insert_ne. lia.
Qed.

Lemma fill_on_slots (self : SequentialScorer) (vocab rest pre : list string)
    (feature_emb : list (list Q)) :
  (∀ feat idx, feat_to_idx self !! feat = Some idx →
               vocab !! idx = Some feat) →
  length feature_emb = length vocab →
  length (pre ++ rest) ≤ length (feat_on_embs self) →
  NoDup (pre ++ rest) →
  (∀ feat, feat ∈ rest → is_Some (feat_to_idx self !! feat)) →
  ∃ block,
    fill_on self (enumerate_from (length pre) rest) feature_emb = Ok block
    ∧ length block = length vocab
    ∧ (∀ j feat idx, rest !! j = Some feat →
         feat_to_idx self !! feat = Some idx →
         block !! idx = feat_on_embs self !! (length pre + j))
    ∧ (∀ idx, (∀ feat, feat ∈ rest → feat_to_idx self !! feat ≠ Some idx) →
              block !! idx = feature_emb !! idx).
Proof.
  intros Hvocab. revert pre feature_emb.
  induction rest as [|feat rest IH];
    intros pre feature_emb Hlen Hon Hnodup Hknown; simpl.
  - exists feature_emb. split; [done|]. split; [done|]. split; [|done].
    intros j feat idx Hj. by rewrite lookup_nil in Hj.
  - rewrite length_app in Hon. simpl in Hon. unfold embedding_lookup.
    destruct (lookup_lt_is_Some_2 (feat_on_embs self) (length pre))
      as [row Hrow]; [lia|].
    rewrite (getitem_Ok _ _ _ Hrow). simpl.
    destruct (Hknown feat) as [idx Hidx]; [left|].
    unfold feat_index. rewrite Hidx. simpl.
    assert (idx < length feature_emb) as Hfit.
    { rewrite Hlen. eapply lookup_lt_Some. by apply Hvocab. }
    unfold tensor_setitem. rewrite decide_True by done. simpl.
    assert (NoDup ((pre ++ [feat]) ++ rest)) as Hnodup'
      by by rewrite <- app_assoc.
    destruct (IH (pre ++ [feat]) (<[idx:=row]> feature_emb))
      as (block & Hrun & Hlen' & Hwritten & Hkept).
    + by rewrite length_insert.
    + rewrite !length_app. simpl. lia.
    + done.
    + intros feat' Hin. apply Hknown. by right.
    + rewrite length_app in Hrun, Hwritten. simpl in Hrun, Hwritten.
      replace (length pre + 1) with (S (length pre)) in Hrun by lia.
      exists block. repeat split; [done|done| |].
      * intros [|j] feat' idx' Hj Hidx'; simpl in Hj.
        -- simplify_eq. rewrite Hkept.
           ++ rewrite list_lookup_insert_eq by done.
              by rewrite Nat.add_0_r.
           ++ intros other Hin Habs.
              assert (other = feat') as ->.
              { apply Hvocab in Habs. apply Hvocab in Hidx. congruence. }
              apply NoDup_app in Hnodup as (_ & _ & Hrest).
              apply NoDup_cons in Hrest as [Hout _]. done.
        -- rewrite (Hwritten j feat' idx' Hj Hidx'). f_equal. lia.
      * intros idx' Hnone. rewrite Hkept.
        -- apply list_lookup_insert_ne. intros ->.
           by apply (Hnone feat); [left|].
        -- intros feat' Hin. apply Hnone. by right.
Qed.

End scorer_facts.

Lemma feat_to_idx_fold_Some (l : list string) n (d : gmap string nat)
    feat idx :
  (fold_left (λ (d : gmap string nat) '((i, feat) : nat * string),
                <[feat:=i]> d) (enumerate_from n l) d) !! feat = Some idx →
  (∃ k, idx = n + k ∧ l !! k = Some feat) ∨ d !! feat = Some idx.
Proof.
  revert n d. induction l as [|x l IH]; intros n d; simpl; [by right|].
  intros [(k & -> & Hk)|Hd]%IH.
  - left. exists (S k). split; [lia|done].
  - destruct (decide (x = feat)) as [->|Hne].
    + rewrite lookup_insert_eq in Hd. simplify_eq.
      left. exists 0. split; [lia|done].
    + rewrite lookup_insert_ne in Hd by done. by right.
Qed.

(** What [forward] puts in the block, for positive features of the
    vocabulary, none of them twice: one slot per vocabulary feature; the
    slot of the feature at position [j] of [pos_feats] holds the active
    embedding of index [j]; every other slot holds the inactive embedding
    of its own index. *)
Lemma feature_block_slots (T : neural_net.Torch) (mark_embedding_dim : nat)
    (feat_set : list string) (feat_emb_dim hidden_dim : nat)
    (off_w on_w : nat → nat → Q) (net0 : neural_net.tensor → result Q)
    (pos_feats : list string) :
  let self :=
    neural_net.SequentialScorer_init mark_embedding_dim feat_set
      feat_emb_dim hidden_dim off_w on_w net0 in
  NoDup pos_feats → (∀ feat, feat ∈ pos_feats → feat ∈ feat_set) →
  ∃ block,
    neural_net.feature_block self pos_feats = Ok block
    ∧ length block = length feat_set
    ∧ (∀ j feat idx, pos_feats !! j = Some feat →
         neural_net.feat_to_idx self !! feat = Some idx →
         block !! idx = Some (map (on_w j) (seq 0 feat_emb_dim)))
    ∧ (∀ idx, idx < length feat_set →
         (∀ feat, feat ∈ pos_feats →
                  neural_net.feat_to_idx self !! feat ≠ Some idx) →
         block !! idx = Some (map (off_w idx) (seq 0 feat_emb_dim))).
Proof.
  intros self Hnodup Hsub.
  assert (∀ feat idx, neural_net.feat_to_idx self !! feat = Some idx →
                      feat_set !! idx = Some feat) as Hvocab.
  { intros feat idx Hidx. simpl in Hidx. unfold enumerate in Hidx.
    apply feat_to_idx_fold_Some in Hidx as [(k & -> & Hk)|Hd]; [done|].
    by rewrite lookup_empty in Hd. }
  assert (length pos_feats ≤ length feat_set) as Hshort.
  { apply submseteq_length, NoDup_submseteq; [done|]. exact Hsub. }
  unfold neural_net.feature_block.
  destruct (fill_off_slots self (length feat_set) 0
              (replicate (length feat_set) (replicate feat_emb_dim 0%Q)))
    as (defaults & Hoff & Hlen & Hin & _).
  { simpl. by rewrite Embedding_length. }
  { by rewrite length_replicate. }
  rewrite length_replicate in Hlen.
  simpl in Hoff |- *. rewrite Hoff. simpl.
  destruct (fill_on_slots self feat_set pos_feats [] defaults)
    as (block & Hon & Hlen' & Hwritten & Hkept).
  - exact Hvocab.
  - done.
  - simpl. by rewrite Embedding_length.
  - done.
  - intros feat Hfeat%Hsub.
    destruct (neural_net.feat_to_idx self !! feat) as [idx|] eqn:Hidx;
      [by eexists|].
    simpl in Hidx. unfold enumerate in Hidx.
    apply feat_to_idx_fold_None in Hidx as [Hout _]. done.
  - exists block. split; [exact Hon|]. split; [done|]. split.
    + intros j feat idx Hj Hidx.
      rewrite (Hwritten j feat idx Hj Hidx). simpl.
      apply Embedding_lookup. apply lookup_lt_Some in Hj. lia.
    + intros idx Hidx Hnone. rewrite (Hkept idx Hnone).
      rewrite Hin by lia. simpl. by apply Embedding_lookup.
Qed.

(** C4. [forward] on the vocabulary ["exact-match"; "new-entity"] and the
    positive features ["new-entity"] (those of a mention paired with
    itself): the block has one slot per vocabulary feature, slot 0 holds
    the inactive embedding of index 0, and slot 1, the slot of
    ["new-entity"], holds the active embedding looked up at index 0, the
    position of ["new-entity"] in the list of positive features, which is
    the active embedding of ["exact-match"]; the active embedding of
    ["new-entity"], at index 1, is not used. *)
Theorem feature_block_active_embedding_by_position
    (T : neural_net.Torch) (mark_embedding_dim feat_emb_dim hidden_dim : nat)
    (off_w on_w : nat → nat → Q)
    (net0 : neural_net.tensor → result Q) :
  let self :=
    neural_net.SequentialScorer_init mark_embedding_dim
      ["exact-match"; "new-entity"] feat_emb_dim hidden_dim off_w on_w net0 in
  ∃ block,
    neural_net.feat_to_idx self !! "new-entity" = Some 1
    ∧ neural_net.feature_block self ["new-entity"] = Ok block
    ∧ length block = 2
    ∧ block !! 0 = neural_net.feat_off_embs self !! 0
    ∧ block !! 1 = neural_net.feat_on_embs self !! 0
    ∧ neural_net.feat_on_embs self !! 0
      = Some (map (on_w 0) (seq 0 feat_emb_dim))
    ∧ neural_net.feat_on_embs self !! 1
      = Some (map (on_w 1) (seq 0 feat_emb_dim)).
Proof.
  eexists. split; [by vm_compute|].
  split; [reflexivity|]. by repeat split.
Qed.

(** With feature embeddings of dimension 1, inactive entries [0] and the
    active entry of index [r] equal to [r + 1]: the slot of ["new-entity"]
    holds [1], the active entry of ["exact-match"], and not [2]. *)
Example feature_block_new_entity :
  neural_net.feature_block
    (neural_net.SequentialScorer_init (H:=concrete.torch_vectors) 2
       ["exact-match"; "new-entity"] 1 1
       (λ _ _, 0%Q) (λ r _, inject_Z (Z.of_nat r + 1)) first_entry_net)
    ["new-entity"]
  = Ok [[0%Q]; [1%Q]].
Proof. reflexivity. Qed.

(** * Feature names outside the vocabulary *)

Lemma mapM_raise {A B} (f : A → result B) (l : list A) x :
  x ∈ l → (∃ e, f x = Raise e) → ∃ e, mapM f l = Raise e.
Proof.
  intros Hin [e He]. induction l as [|y l IH]; [by apply elem_of_nil in Hin|].
  simpl. apply elem_of_cons in Hin as [<-|Hin].
  - rewrite He. by eexists.
  - destruct (f y); simpl; [|by eexists].
    destruct (IH Hin) as [e' ->]. by eexists.
Qed.

(** C6, as the code has it. [SequentialScorer.__init__] builds a scorer
    from every vocabulary: it does not look at the feature function and has
    nothing to raise.  A feature name absent from the vocabulary is met at
    scoring time: [forward] raises on every list of
    positive features that holds one, a [KeyError] for such a name or the
    [IndexError] of an active-embedding lookup before it, and
    [score_instance] raises as soon as the feature function gives such a
    name a positive value for one of the candidates. *)
Theorem unknown_feature_raises_at_scoring_time
    (T : neural_net.Torch) (mark_embedding_dim : nat)
    (feat_set : list string) (feat_emb_dim hidden_dim : nat)
    (off_w on_w : nat → nat → Q) (net0 : neural_net.tensor → result Q) :
  let self :=
    neural_net.SequentialScorer_init mark_embedding_dim feat_set
      feat_emb_dim hidden_dim off_w on_w net0 in
  (∀ emb_i emb_a pos_feats feat,
         feat ∈ pos_feats → feat ∉ feat_set →
         ∃ e, neural_net.forward self emb_i emb_a pos_feats = Raise e
              ∧ (e = IndexError
                 ∨ ∃ feat', e = KeyError feat' ∧ feat' ∈ pos_feats
                            ∧ feat' ∉ feat_set))
  ∧ (∀ doc_embs markables i feats ant_index d k v,
       ant_index ≤ i → ant_index < length markables →
       feats markables ant_index i = Ok d →
       (k, v) ∈ PyDict.items d → (0 < v)%Z → k ∉ feat_set →
       ∃ e, neural_net.score_instance self doc_embs markables i feats
            = Raise e).
Proof.
  intros self.
  assert (∀ feat, neural_net.feat_to_idx self !! feat = None
                  ↔ feat ∉ feat_set) as Hidx.
  { intros feat. simpl. unfold enumerate.
    rewrite feat_to_idx_fold_None, lookup_empty. tauto. }
  assert (∀ emb_i emb_a pos_feats feat,
            feat ∈ pos_feats → feat ∉ feat_set →
            ∃ e, neural_net.forward self emb_i emb_a pos_feats = Raise e
                 ∧ (e = IndexError
                    ∨ ∃ feat', e = KeyError feat' ∧ feat' ∈ pos_feats
                               ∧ feat' ∉ feat_set)) as Hforward.
  { intros emb_i emb_a pos_feats feat Hin Hout.
    unfold neural_net.forward, neural_net.feature_block.
    destruct (fill_off_in_range self (seq 0 (length feat_set))
                (replicate (length feat_set) (replicate feat_emb_dim 0%Q)))
      as [feature_emb Hoff].
    { apply Forall_forall. intros j Hj. simpl.
      rewrite Embedding_length. apply elem_of_seq in Hj. lia. }
    { apply Forall_forall. intros j Hj.
      rewrite length_replicate. apply elem_of_seq in Hj. lia. }
    simpl in Hoff |- *. rewrite Hoff. simpl.
    destruct (fill_on_unknown self (enumerate pos_feats) feature_emb feat)
      as (e & He & Hkind).
    - unfold enumerate. by rewrite snd_enumerate_from.
    - by apply Hidx.
    - exists e. rewrite He. split; [done|].
      destruct Hkind as [->|(feat' & -> & Hin' & Hnone)]; [by left|].
      right. exists feat'. unfold enumerate in Hin'.
      rewrite snd_enumerate_from in Hin'. repeat split; [done|].
      by apply Hidx. }
  split; [exact Hforward|].
  intros doc_embs markables i feats ant_index d k v Hle Hlt Hd Hkv Hv Hout.
  destruct (lookup_lt_is_Some_2 markables ant_index Hlt) as [ant Hant].
  unfold neural_net.score_instance.
  apply (mapM_raise _ _ (ant_index, ant)).
  - apply (elem_of_enumerate_from 0). by rewrite lookup_take_lt by lia.
  - simpl. destruct (getitem doc_embs i) as [emb_i|]; simpl; [|by eexists].
    destruct (getitem doc_embs ant_index) as [emb_a|]; simpl; [|by eexists].
    unfold neural_net.get_pos_feats. rewrite Hd. simpl.
    destruct (Hforward emb_i emb_a
                (map fst (filter (λ kv, (0 < kv.2)%Z) (PyDict.items d))) k)
      as (e & He & _); [|done|by eexists].
    apply list_elem_of_fmap. exists (k, v). split; [done|].
    by apply list_elem_of_filter.
Qed.

(** C6, as the specification has it, fails: over the vocabulary
    ["new-entity"] alone, the scorer is built without complaint, and the
    name ["exact-match"] that [minimal_features] gives to two mentions of
    ["the dog"] raises [KeyError] when the pair is scored. *)
Lemma fail_fast_at_construction_counterexample :
  let self :=
    neural_net.SequentialScorer_init (H:=concrete.torch_vectors) 2
      ["new-entity"] 1 1 (λ _ _, 0%Q) (λ _ _, 0%Q) first_entry_net in
  coref_features.minimal_features [the_dog 0 "e1"; the_dog 5 "e1"] 0 1
  = Ok [("exact-match", 1%Z); ("last-token-match", 1%Z);
        ("content-match", 1%Z)]
  ∧ neural_net.score_instance self [[1; 0]; [0; 0]]%Q
      [the_dog 0 "e1"; the_dog 5 "e1"] 1 coref_features.minimal_features
    = Raise (KeyError "exact-match").
Proof. split; by vm_compute. Qed.

(** * The gold entity at inference *)

Lemma mapM_ext {A B} (f g : A → result B) (l : list A) :
  (∀ x, x ∈ l → f x = g x) → mapM f l = mapM g l.
Proof.
  induction l as [|x l IH]; intros Hfg; simpl; [done|].
  rewrite (Hfg x) by left. destruct (g x); simpl; [|done].
  rewrite IH; [done|]. intros y Hy. apply Hfg. by right.
Qed.

Lemma mapM_enumerate_from {A B} (g : nat → result B) n (l : list A) :
  mapM (λ '(k, _), g k) (enumerate_from n l) = mapM g (seq n (length l)).
Proof.
  revert n. induction l as [|x l IH]; intros n; simpl; [done|].
  by rewrite IH.
Qed.

Lemma differ_only_in_entity_length ms ms' :
  differ_only_in_entity ms ms' → length ms = length ms'.
Proof.
  intros Heq. apply (f_equal length) in Heq. by rewrite !length_map in Heq.
Qed.

Lemma getitem_erase_entity (ms : list Markable) k :
  getitem (map erase_entity ms) k = erase_entity <$> getitem ms k.
Proof.
  unfold getitem. rewrite list_lookup_fmap. by destruct (ms !! k).
Qed.

Lemma minimal_features_erase_entity ms a i :
  coref_features.minimal_features ms a i
  = coref_features.minimal_features (map erase_entity ms) a i.
Proof.
  unfold coref_features.minimal_features.
  rewrite !getitem_erase_entity.
  destruct (getitem ms a) as [m_a|]; simpl; [|done].
  by destruct (getitem ms i) as [m_i|].
Qed.

Lemma distance_features_erase_entity ms a i mm mt :
  coref_features.distance_features ms a i mm mt
  = coref_features.distance_features (map erase_entity ms) a i mm mt.
Proof.
  unfold coref_features.distance_features.
  destruct (decide (a = i)); [done|].
  rewrite !getitem_erase_entity.
  destruct (getitem ms i) as [m_i|]; simpl; [|done].
  by destruct (getitem ms a) as [m_a|].
Qed.

Lemma minimal_features_entity_blind :
  entity_blind coref_features.minimal_features.
Proof.
  intros ms ms' a i Heq.
  rewrite (minimal_features_erase_entity ms), Heq.
  by rewrite <- minimal_features_erase_entity.
Qed.

Lemma distance_features_entity_blind :
  entity_blind coref_features.distance_features_default.
Proof.
  intros ms ms' a i Heq. unfold coref_features.distance_features_default.
  rewrite (distance_features_erase_entity ms), Heq.
  by rewrite <- distance_features_erase_entity.
Qed.

Lemma make_feature_union_entity_blind feat_func_list :
  Forall entity_blind feat_func_list →
  entity_blind (coref_features.make_feature_union feat_func_list).
Proof.
  intros Hall ms ms' a i Heq. unfold coref_features.make_feature_union.
  generalize (PyDict.empty (V:=Z)).
  induction Hall as [|feat_func rest Hblind _ IH]; intros f; simpl; [done|].
  rewrite (Hblind ms ms' a i Heq).
  destruct (feat_func ms' a i); simpl; [apply IH|done].
Qed.

Lemma score_instance_entity_blind (T : neural_net.Torch)
    (self : neural_net.SequentialScorer) doc_embs ms ms' i feats :
  differ_only_in_entity ms ms' → entity_blind feats →
  neural_net.score_instance self doc_embs ms i feats
  = neural_net.score_instance self doc_embs ms' i feats.
Proof.
  intros Heq Hblind. unfold neural_net.score_instance, enumerate.
  rewrite (mapM_enumerate_from
    (λ ant_index,
       emb_i ← getitem doc_embs i;
       emb_a ← getitem doc_embs ant_index;
       pos_feats ← neural_net.get_pos_feats feats ms ant_index i;
       neural_net.forward self emb_i emb_a pos_feats)).
  rewrite (mapM_enumerate_from
    (λ ant_index,
       emb_i ← getitem doc_embs i;
       emb_a ← getitem doc_embs ant_index;
       pos_feats ← neural_net.get_pos_feats feats ms' ant_index i;
       neural_net.forward self emb_i emb_a pos_feats)).
  rewrite !length_take, (differ_only_in_entity_length ms ms' Heq).
  apply mapM_ext. intros ant_index _.
  unfold neural_net.get_pos_feats.
  by rewrite (Hblind ms ms' ant_index i Heq).
Qed.

(** C3, as the code has it. The learned resolver reads the gold [entity]
    of the first markable, and of no other: it is the key under which
    [evaluate] stored the embeddings of the document.  With a feature
    function that does not read [entity], two runs on markable lists that
    differ only in [entity] values and agree on the [entity] of the first
    markable give the same result. *)
Theorem learned_resolver_reads_first_entity_only
    (T : neural_net.Torch) (argmax : list Q → result nat)
    (feats : coref_features.extractor)
    (emb_dict : gmap string (list neural_net.tensor))
    (scoring_model : neural_net.SequentialScorer)
    (ms ms' : list Markable) :
  differ_only_in_entity ms ms' →
  entity_blind feats →
  Markable.entity <$> ms !! 0 = Markable.entity <$> ms' !! 0 →
  neural_net.make_resolver argmax feats emb_dict scoring_model ms
  = neural_net.make_resolver argmax feats emb_dict scoring_model ms'.
Proof.
  intros Heq Hblind Hfirst. unfold neural_net.make_resolver.
  rewrite (differ_only_in_entity_length ms ms' Heq).
  apply mapM_ext. intros i _. unfold getitem.
  destruct (ms !! 0) as [m_0|], (ms' !! 0) as [m_0'|]; simplify_eq/=;
    [|done].
  rewrite Hfirst.
  destruct (neural_net.emb_dict_lookup emb_dict (Markable.entity m_0'))
    as [doc_embs|]; simpl; [|done].
  by rewrite (score_instance_entity_blind T scoring_model doc_embs ms ms').
Qed.

(** The theorem at work: the [entity] of the second markable is changed. *)
Lemma learned_resolver_reads_first_entity_only_witness :
  neural_net.make_resolver concrete.argmax coref_features.minimal_features
    two_documents
    first_entry_scorer
    [the_dog 0 "A"; it_ 3 "A"]
  = neural_net.make_resolver concrete.argmax coref_features.minimal_features
      two_documents
      first_entry_scorer
      [the_dog 0 "A"; it_ 3 "other"].
Proof.
  apply learned_resolver_reads_first_entity_only.
  - reflexivity.
  - apply minimal_features_entity_blind.
  - reflexivity.
Defined.

(** C3, as the specification has it, fails: after [evaluate] has stored
    the embeddings of two documents, the markables of the first and the
    same list with the [entity] of its first markable changed differ only
    in [entity], the change selects the embeddings of the other document,
    and the learned resolver links the second mention to the first on the
    one list and to itself on the other. *)
Lemma learned_resolver_entity_counterexample :
  neural_net.fill_emb_dict no_word_embeddings token_count_embedding
    [(["the"; "dog"; "saw"; "it"], document_A);
     (["it"; "saw"; "the"; "dog"], document_B)] ∅ = Ok two_documents
  ∧ differ_only_in_entity document_A [the_dog 0 "B"; it_ 3 "A"]
  ∧ neural_net.make_resolver concrete.argmax
      coref_features.minimal_features two_documents first_entry_scorer
      document_A = Ok [0; 0]
  ∧ neural_net.make_resolver concrete.argmax
      coref_features.minimal_features two_documents first_entry_scorer
      [the_dog 0 "B"; it_ 3 "A"] = Ok [0; 1].
Proof. split; [by vm_compute|]. split; [reflexivity|]. split; by vm_compute. Qed.

(** * Dictionaries *)

Lemma PyDict_get_setitem {V} (d : PyDict.t V) k v k' :
  PyDict.get (PyDict.setitem k v d) k'
  = if decide (k = k') then Some v else PyDict.get d k'.
Proof.
  induction d as [|[k0 v0] d IH]; simpl.
  - by destruct (decide (k = k')).
  - destruct (decide (k0 = k)) as [->|Hne]; simpl.
    + by destruct (decide (k = k')).
    + destruct (decide (k0 = k')) as [->|Hne'].
      * by rewrite decide_False by congruence.
      * apply IH.
Qed.

Lemma PyDict_keys_setitem {V} (d : PyDict.t V) k v :
  PyDict.keys (PyDict.setitem k v d)
  = if decide (k ∈ PyDict.keys d) then PyDict.keys d
    else PyDict.keys d ++ [k].
Proof.
  unfold PyDict.keys.
  induction d as [|[k0 v0] d IH]; csimpl; [done|].
  destruct (decide (k0 = k)) as [->|Hne]; csimpl.
  - rewrite decide_True; [done|]. left.
  - rewrite IH. destruct (decide (k ∈ d.*1)) as [Hin|Hout].
    + rewrite decide_True; [done|]. by right.
    + rewrite decide_False; [done|].
      intros [?|?]%elem_of_cons; congruence.
Qed.

Lemma PyDict_wf_setitem {V} (d : PyDict.t V) k v :
  PyDict.wf d → PyDict.wf (PyDict.setitem k v d).
Proof.
  unfold PyDict.wf. intros Hwf. rewrite PyDict_keys_setitem.
  destruct (decide (k ∈ PyDict.keys d)); [done|].
  apply NoDup_app. split; [done|]. split; [|apply NoDup_singleton].
  intros x Hx ->%list_elem_of_singleton. done.
Qed.

Lemma PyDict_get_None {V} (d : PyDict.t V) k :
  PyDict.get d k = None ↔ k ∉ PyDict.keys d.
Proof.
  unfold PyDict.keys. induction d as [|[k0 v0] d IH]; csimpl.
  - split; [intros _; apply not_elem_of_nil|done].
  - rewrite not_elem_of_cons. destruct (decide (k0 = k)) as [->|Hne].
    + split; [done|]. intros [? _]. done.
    + rewrite IH. split; [|tauto]. intros ?. split; [congruence|done].
Qed.

Lemma PyDict_wf_update {V} (d other : PyDict.t V) :
  PyDict.wf d → PyDict.wf (PyDict.update d other).
Proof.
  unfold PyDict.update. revert d.
  induction other as [|[k v] other IH]; intros d Hwf; simpl; [done|].
  apply IH. by apply PyDict_wf_setitem.
Qed.

Lemma PyDict_get_update {V} (d other : PyDict.t V) k :
  PyDict.wf other →
  PyDict.get (PyDict.update d other) k
  = match PyDict.get other k with
    | Some v => Some v
    | None => PyDict.get d k
    end.
Proof.
  unfold PyDict.update, PyDict.wf, PyDict.keys. revert d.
  induction other as [|[k0 v0] other IH]; intros d Hwf; simpl; [done|].
  simpl in Hwf. apply NoDup_cons in Hwf as [Hout Hwf].
  rewrite IH by done. rewrite PyDict_get_setitem.
  destruct (decide (k0 = k)) as [->|Hne]; [|done].
  apply (PyDict_get_None other k) in Hout. by rewrite Hout.
Qed.

(** * [coref_features.py] *)

Lemma mention_key_not_token_key d t :
  coref_features.mention_distance_key d ≠ coref_features.token_distance_key t.
Proof. done. Qed.


Example distance_features_at_5_6_100 :
  let x := replicate 101 (it_ 0 "e1") in
  coref_features.distance_features x 0 5 5 10
  = Ok [("mention-distance-5", 1%Z)]
  ∧ coref_features.distance_features x 0 6 5 10
    = Ok [("mention-distance-5", 1%Z)]
  ∧ coref_features.distance_features x 0 100 5 10
    = Ok [("mention-distance-5", 1%Z)]
  ∧ coref_features.distance_features x 3 3 5 10 = Ok []
  ∧ coref_features.distance_features [the_dog 0 "e1"; it_ 3 "e1"] 0 1 5 10
    = Ok [("mention-distance-1", 1%Z); ("token-distance-2", 1%Z)].
Proof. repeat split; by vm_compute. Qed.

(** The loop of [union_func] merges the dictionaries [ds] of the members, in
    order, into [f0]: the value of a key is that of the last dictionary
    that has it, and its value in [f0] if none has. *)
Lemma union_loop_spec (feat_func_list : list coref_features.extractor)
    (x : list Markable) (a i : nat) (ds : list (PyDict.t Z))
    (f0 : PyDict.t Z) :
  Forall2 (λ feat_func d, feat_func x a i = Ok d) feat_func_list ds →
  Forall PyDict.wf ds → PyDict.wf f0 →
  ∃ f, coref_features.union_loop feat_func_list x a i f0 = Ok f
       ∧ PyDict.wf f
       ∧ ∀ k, PyDict.get f k
              = fold_left (λ r (d : PyDict.t Z),
                             match PyDict.get d k with
                             | Some v => Some v
                             | None => r
                             end) ds (PyDict.get f0 k).
Proof.
  intros Hrun. revert f0.
  induction Hrun as [|feat_func d feat_func_list ds Hd _ IH];
    intros f0 Hwf Hwf0; simpl.
  - by exists f0.
  - rewrite Hd. simpl. apply Forall_cons in Hwf as [Hwfd Hwf].
    destruct (IH (PyDict.update f0 d) Hwf (PyDict_wf_update f0 d Hwf0))
      as (f & Hf & Hwff & Hget).
    exists f. repeat split; [done|done|].
    intros k. by rewrite Hget, PyDict_get_update.
Qed.

Lemma last_binding_spec (ds : list (PyDict.t Z)) k v :
  fold_left (λ r (d : PyDict.t Z),
               match PyDict.get d k with
               | Some v => Some v
               | None => r
               end) ds None = Some v
  ↔ ∃ j d, ds !! j = Some d ∧ PyDict.get d k = Some v
           ∧ ∀ j' d', j < j' → ds !! j' = Some d' → PyDict.get d' k = None.
Proof.
  induction ds as [|d ds IH] using rev_ind.
  - simpl. split; [done|]. intros (j & d & Hj & _). by rewrite lookup_nil in Hj.
  - rewrite fold_left_app. simpl.
    destruct (PyDict.get d k) as [w|] eqn:Hd.
    + split.
      * intros [= ->]. exists (length ds), d.
        rewrite lookup_app_r, Nat.sub_diag by lia.
        repeat split; [done|].
        intros j' d' Hlt Hj'. apply lookup_lt_Some in Hj'.
        rewrite length_app in Hj'. simpl in Hj'. lia.
      * intros (j & d0 & Hj & Hk & Hlater).
        destruct (decide (j = length ds)) as [->|Hne].
        -- rewrite lookup_app_r, Nat.sub_diag in Hj by lia.
           simpl in Hj. by simplify_eq.
        -- assert (j < length ds) as Hlt.
           { apply lookup_lt_Some in Hj. rewrite length_app in Hj.
             simpl in Hj. lia. }
           rewrite (Hlater (length ds) d) in Hd; [done|done|].
           by rewrite lookup_app_r, Nat.sub_diag by lia.
    + rewrite IH. split.
      * intros (j & d0 & Hj & Hk & Hlater). exists j, d0.
        assert (j < length ds) as Hlt by by eapply lookup_lt_Some.
        rewrite lookup_app_l by done. repeat split; [done|done|].
        intros j' d' Hlt' Hj'.
        destruct (decide (j' < length ds)) as [Hin|Hout].
        -- rewrite lookup_app_l in Hj' by done. by eapply Hlater.
        -- rewrite lookup_app_r in Hj' by lia.
           destruct (j' - length ds) as [|n]; simpl in Hj'; [|done].
           by simplify_eq.
      * intros (j & d0 & Hj & Hk & Hlater).
        destruct (decide (j < length ds)) as [Hin|Hout].
        -- exists j, d0. rewrite lookup_app_l in Hj by done.
           repeat split; [done|done|].
           intros j' d' Hlt' Hj'. apply (Hlater j'); [done|].
           rewrite lookup_app_l; [done|]. by eapply lookup_lt_Some.
        -- rewrite lookup_app_r in Hj by lia.
           destruct (j - length ds) as [|n]; simpl in Hj; [|done].
           simplify_eq.
Qed.

(** C8. For every list of feature functions that return dictionaries on
    the inputs [(x, a, i)], the feature function of [make_feature_union]
    calls each of them on these same inputs and returns the key-wise
    union of their feature sets: a key has a value in the union exactly
    when some member gives it one, and its value is that of the last
    member of the list that does. *)
Theorem make_feature_union_overwrite
    (feat_func_list : list coref_features.extractor)
    (x : list Markable) (a i : nat) (ds : list (PyDict.t Z)) :
  Forall2 (λ feat_func d, feat_func x a i = Ok d) feat_func_list ds →
  Forall PyDict.wf ds →
  ∃ f, coref_features.make_feature_union feat_func_list x a i = Ok f
       ∧ PyDict.wf f
       ∧ ∀ k v, PyDict.get f k = Some v ↔
           ∃ j d, ds !! j = Some d ∧ PyDict.get d k = Some v
                  ∧ ∀ j' d', j < j' → ds !! j' = Some d' →
                             PyDict.get d' k = None.
Proof.
  intros Hrun Hwf.
  destruct (union_loop_spec feat_func_list x a i ds PyDict.empty Hrun Hwf)
    as (f & Hf & Hwff & Hget); [apply NoDup_nil_2|].
  exists f. repeat split; [done|done| |].
  - intros Hk. apply last_binding_spec. by rewrite <- Hget.
  - intros Hk. rewrite Hget. by apply last_binding_spec.
Qed.

(** The theorem at work on three feature functions, two of which give a
    value to ["crossover"]. *)
Lemma make_feature_union_overwrite_witness :
  ∃ f, coref_features.make_feature_union
         [coref_features.minimal_features; crossover_twice;
          coref_features.distance_features_default]
         [the_dog 0 "A"; it_ 1 "A"] 0 1 = Ok f
       ∧ PyDict.wf f
       ∧ ∀ k v, PyDict.get f k = Some v ↔
           ∃ j d, [[("crossover", 1%Z)];
                   [("crossover", 2%Z); ("twice", 1%Z)];
                   [("mention-distance-1", 1%Z)]] !! j = Some d
                  ∧ PyDict.get d k = Some v
                  ∧ ∀ j' d', j < j' →
                      [[("crossover", 1%Z)];
                       [("crossover", 2%Z); ("twice", 1%Z)];
                       [("mention-distance-1", 1%Z)]] !! j' = Some d' →
                      PyDict.get d' k = None.
Proof.
  apply make_feature_union_overwrite.
  - repeat constructor.
  - do 3 (apply Forall_cons_2;
            [unfold PyDict.wf, PyDict.keys;
             apply (bool_decide_unpack _); by vm_compute|]).
    apply Forall_nil_2.
Defined.

Example make_feature_union_collision :
  coref_features.make_feature_union
    [coref_features.minimal_features; crossover_twice;
     coref_features.distance_features_default]
    [the_dog 0 "A"; it_ 1 "A"] 0 1
  = Ok [("crossover", 2%Z); ("twice", 1%Z); ("mention-distance-1", 1%Z)].
Proof. by vm_compute. Qed.

Example make_feature_union_minimal_distance :
  coref_features.make_feature_union
    [coref_features.minimal_features;
     coref_features.distance_features_default]
    [the_dog 0 "A"; it_ 2 "B"; the_dog 4 "A"] 0 2
  = Ok [("exact-match", 1%Z); ("last-token-match", 1%Z);
        ("content-match", 1%Z); ("mention-distance-2", 1%Z);
        ("token-distance-3", 1%Z)].
Proof. by vm_compute. Qed.

(** A member that raises stops the union: the exception of the first such
    member is that of [union_func]. *)
Lemma make_feature_union_raises
    (before after : list coref_features.extractor)
    (feat_func : coref_features.extractor)
    (x : list Markable) (a i : nat) (ds : list (PyDict.t Z)) (e : exn) :
  Forall2 (λ feat_func d, feat_func x a i = Ok d) before ds →
  feat_func x a i = Raise e →
  coref_features.make_feature_union (before ++ feat_func :: after) x a i
  = Raise e.
Proof.
  intros Hbefore He. unfold coref_features.make_feature_union.
  generalize (PyDict.empty (V:=Z)).
  induction Hbefore as [|g d before ds Hd _ IH]; intros f; simpl.
  - by rewrite He.
  - rewrite Hd. simpl. apply IH.
Qed.

(** * [instance_top_scores] *)

Lemma qmax_ge_l a b : (a <= neural_net.qmax a b)%Q.
Proof.
  unfold neural_net.qmax. destruct (Qle_bool a b) eqn:Hab.
  - by apply Qle_bool_iff.
  - apply Qle_refl.
Qed.

Lemma qmax_ge_r a b : (b <= neural_net.qmax a b)%Q.
Proof.
  unfold neural_net.qmax. destruct (Qle_bool a b) eqn:Hab.
  - apply Qle_refl.
  - apply Qlt_le_weak, Qnot_le_lt. intros Hle.
    apply Qle_bool_iff in Hle. congruence.
Qed.

Lemma fold_qmax_spec (l : list Q) (x : Q) :
  let v := fold_left neural_net.qmax l x in
  (v = x ∨ v ∈ l) ∧ (x <= v)%Q ∧ ∀ y, y ∈ l → (y <= v)%Q.
Proof.
  revert x. induction l as [|z l IH]; intros x; simpl.
  - split; [by left|]. split; [apply Qle_refl|].
    intros y Hy. by apply elem_of_nil in Hy.
  - destruct (IH (neural_net.qmax x z)) as (Hin & Hle & Hall).
    split; [|split].
    + destruct Hin as [Heq|Hin]; [|by right; right].
      rewrite Heq. unfold neural_net.qmax.
      destruct (Qle_bool x z); [right; left|by left].
    + eapply Qle_trans; [apply qmax_ge_l|exact Hle].
    + intros y [->|Hy]%elem_of_cons; [|by apply Hall].
      eapply Qle_trans; [apply qmax_ge_r|exact Hle].
Qed.

Lemma tensor_max_spec (t : list Q) :
  t ≠ [] →
  ∃ v, neural_net.tensor_max t = Ok v ∧ v ∈ t ∧ ∀ y, y ∈ t → (y <= v)%Q.
Proof.
  destruct t as [|x t]; [done|]. intros _. simpl. eexists. split; [done|].
  destruct (fold_qmax_spec t x) as ([Heq|Hin] & Hle & Hall).
  - split; [rewrite Heq; left|].
    intros y [->|Hy]%elem_of_cons; [done|by apply Hall].
  - split; [by right|].
    intros y [->|Hy]%elem_of_cons; [done|by apply Hall].
Qed.

Lemma mapM_length {A B} (f : A → result B) (l : list A) r :
  mapM f l = Ok r → length r = length l.
Proof.
  revert r. induction l as [|x l IH]; intros r; simpl.
  - by intros [= <-].
  - destruct (f x); simpl; [|done].
    destruct (mapM f l) as [ys|]; simpl; [|done].
    intros [= <-]. simpl. by rewrite (IH ys).
Qed.

Lemma enumerate_from_length {A} n (l : list A) :
  length (enumerate_from n l) = length l.
Proof. revert n. induction l as [|x l IH]; intros n; simpl; [done|]. by rewrite IH. Qed.

Lemma index_select_spec (t : list Q) (indices : list nat) :
  Forall (λ k, k < length t) indices →
  ∃ vals, neural_net.index_select t indices = Ok vals
          ∧ Forall2 (λ k s, t !! k = Some s) indices vals.
Proof.
  unfold neural_net.index_select.
  induction 1 as [|k indices Hk _ (vals & Hvals & Hall)]; simpl.
  - by exists [].
  - destruct (lookup_lt_is_Some_2 _ _ Hk) as [s Hs].
    rewrite (getitem_Ok _ _ _ Hs). simpl. rewrite Hvals. simpl. exists (s :: vals). split; [done|].
    by constructor.
Qed.

Lemma entity_indices_spec (same : bool) (markables : list Markable)
    (true_antecedent : nat) (indices : list nat) :
  true_antecedent < length markables →
  Forall (λ k, k < length markables) indices →
  neural_net.entity_indices same markables true_antecedent indices
  = Ok (filter (λ k, same_entity markables k true_antecedent = same) indices).
Proof.
  intros Ht. destruct (lookup_lt_is_Some_2 _ _ Ht) as [m_t Hm_t].
  induction 1 as [|k indices Hk _ IH]; simpl; [done|].
  destruct (lookup_lt_is_Some_2 _ _ Hk) as [m Hm].
  rewrite (getitem_Ok _ _ _ Hm), (getitem_Ok _ _ _ Hm_t). simpl.
  rewrite IH. simpl.
  rewrite filter_cons.
  assert (same_entity markables k true_antecedent
          = bool_decide (Markable.entity m = Markable.entity m_t)) as ->
    by (unfold same_entity; by rewrite Hm, Hm_t).
  destruct same, (bool_decide (Markable.entity m = Markable.entity m_t));
    simpl; try case_decide; done.
Qed.

Lemma filter_length_all {A} (P : A → Prop) `{∀ x, Decision (P x)}
    (l : list A) :
  length (filter P l) = length l ↔ Forall P l.
Proof.
  induction l as [|x l IH].
  - split; [by constructor|done].
  - rewrite filter_cons. pose proof (length_filter P l) as Hle.
    destruct (decide (P x)) as [HP|HnP]; simpl.
    + split.
      * intros [= Hlen]. constructor; [done|]. by apply IH.
      * intros [_ Hall]%Forall_cons. f_equal. by apply IH.
    + split; [lia|]. by intros [? _]%Forall_cons.
Qed.

Lemma Forall2_select_elem (t : list Q) (indices : list nat) (vals : list Q) :
  Forall2 (λ k s, t !! k = Some s) indices vals →
  (∀ s, s ∈ vals → ∃ k, k ∈ indices ∧ t !! k = Some s)
  ∧ (∀ k s, k ∈ indices → t !! k = Some s → s ∈ vals).
Proof.
  induction 1 as [|k s indices vals Hks _ [IH1 IH2]].
  - split; [intros s Hs|intros k s Hk _]; [by apply elem_of_nil in Hs|].
    by apply elem_of_nil in Hk.
  - split.
    + intros s' [->|Hs']%elem_of_cons.
      * exists k. split; [left|done].
      * destruct (IH1 s' Hs') as (k' & Hk' & Hlook). exists k'.
        split; [by right|done].
    + intros k' s' [->|Hk']%elem_of_cons Hlook.
      * rewrite Hks in Hlook. simplify_eq. left.
      * right. by eapply IH2.
Qed.

(** The best score that [instance_top_scores] returns for one side: the
    score of a candidate of that side, not below the score of any
    other. *)
Lemma side_max_spec (markables : list Markable) (i true_antecedent : nat)
    (same : bool) (scores : list Q) :
  length scores = i + 1 →
  (∃ k, k < i ∧ same_entity markables k true_antecedent = same) →
  ∃ vals v,
    neural_net.index_select scores
      (filter (λ k, same_entity markables k true_antecedent = same) (seq 0 i))
    = Ok vals
    ∧ neural_net.tensor_max vals = Ok v
    ∧ (∃ k, k < i ∧ same_entity markables k true_antecedent = same
            ∧ scores !! k = Some v)
    ∧ (∀ k s, k < i → same_entity markables k true_antecedent = same →
              scores !! k = Some s → (s <= v)%Q).
Proof.
  intros Hlen (k0 & Hk0 & Hside0).
  set (indices := filter _ (seq 0 i)).
  assert (∀ k, k ∈ indices
               ↔ k < i ∧ same_entity markables k true_antecedent = same)
    as Hindices.
  { intros k. unfold indices. rewrite list_elem_of_filter, elem_of_seq.
    split; intros [? ?]; split; (done || lia). }
  destruct (index_select_spec scores indices) as (vals & Hvals & Hall).
  { apply Forall_forall. intros k Hk%Hindices. lia. }
  destruct (Forall2_select_elem _ _ _ Hall) as [Hfrom Hto].
  destruct (lookup_lt_is_Some_2 scores k0) as [s0 Hs0]; [lia|].
  destruct (tensor_max_spec vals) as (v & Hv & Hin & Hmax).
  { intros ->. eapply elem_of_nil, (Hto k0 s0); [|done].
    by apply Hindices. }
  exists vals, v. repeat split; [done|done| |].
  - destruct (Hfrom v Hin) as (k & Hk%Hindices & Hlook).
    exists k. by destruct Hk.
  - intros k s Hk Hside Hlook. apply Hmax, (Hto k); [|done].
    by apply Hindices.
Qed.

(** C5. For a mention [i] of the document and a gold antecedent
    [true_antecedent <= i], and a scorer that scores the candidates of [i]
    when asked to, [instance_top_scores] returns [(None, None)] exactly
    when [i = 0], or [i = true_antecedent], or every candidate in
    [0..i-1] has the gold entity of [markables[true_antecedent]];
    otherwise it returns the maximum score among the candidates in
    [0..i-1] with that gold entity and the maximum score among those with
    another. *)
Theorem instance_top_scores_cases (T : neural_net.Torch)
    (self : neural_net.SequentialScorer)
    (doc_embs : list neural_net.tensor) (markables : list Markable)
    (i true_antecedent : nat) (feats : coref_features.extractor) :
  true_antecedent ≤ i → i < length markables →
  (i ≠ 0 → i ≠ true_antecedent →
   is_Ok (neural_net.score_instance self doc_embs markables i feats)) →
  let no_contrast :=
    i = 0 ∨ i = true_antecedent
    ∨ ∀ k, k < i → same_entity markables k true_antecedent = true in
  (neural_net.instance_top_scores self doc_embs markables i true_antecedent
     feats = Ok (None, None) ↔ no_contrast)
  ∧ (¬ no_contrast →
     ∃ scores t f,
       neural_net.score_instance self doc_embs markables i feats = Ok scores
       ∧ length scores = i + 1
       ∧ neural_net.instance_top_scores self doc_embs markables i
           true_antecedent feats = Ok (Some t, Some f)
       ∧ (∃ k, k < i ∧ same_entity markables k true_antecedent = true
               ∧ scores !! k = Some t)
       ∧ (∀ k s, k < i → same_entity markables k true_antecedent = true →
                 scores !! k = Some s → (s <= t)%Q)
       ∧ (∃ k, k < i ∧ same_entity markables k true_antecedent = false
               ∧ scores !! k = Some f)
       ∧ (∀ k s, k < i → same_entity markables k true_antecedent = false →
                 scores !! k = Some s → (s <= f)%Q)).
Proof.
  intros Hta Hi Hscore no_contrast.
  unfold neural_net.instance_top_scores.
  destruct (decide (i = 0)) as [Hi0|Hi0].
  { rewrite (bool_decide_eq_true_2 _ Hi0). simpl.
    split; [split; [by left|done]|]. intros []. by left. }
  destruct (decide (i = true_antecedent)) as [Hit|Hit].
  { rewrite (bool_decide_eq_true_2 _ Hit), orb_true_r.
    split; [split; [by right; left|done]|]. intros []. by right; left. }
  rewrite (bool_decide_eq_false_2 _ Hi0), (bool_decide_eq_false_2 _ Hit).
  simpl. destruct (Hscore Hi0 Hit) as [scores Hscores].
  rewrite Hscores. simpl.
  assert (length scores = i + 1) as Hlen.
  { apply mapM_length in Hscores. rewrite Hscores. unfold enumerate.
    rewrite enumerate_from_length, length_take. lia. }
  assert (Forall (λ k, k < length markables) (seq 0 i)) as Hrange.
  { apply Forall_forall. intros k Hk%elem_of_seq. lia. }
  rewrite !entity_indices_spec by (done || lia). simpl.
  case_decide as Hall.
  - assert (∀ k, k < i → same_entity markables k true_antecedent = true)
      as Hsame.
    { intros k Hk.
      assert (length (filter (λ k, same_entity markables k true_antecedent
                                   = true) (seq 0 i))
              = length (seq 0 i)) as Hfull by by rewrite length_seq.
      apply filter_length_all in Hfull.
      rewrite Forall_forall in Hfull. apply Hfull, elem_of_seq. lia. }
    split; [split; [by right; right|done]|]. intros []. by right; right.
  - assert (¬ ∀ k, k < i → same_entity markables k true_antecedent = true)
      as Hnot.
    { intros Hsame. apply Hall.
      transitivity (length (seq 0 i)); [|apply length_seq].
      apply filter_length_all.
      apply Forall_forall. intros k Hk%elem_of_seq. apply Hsame. lia. }
    assert (∃ k, k < i ∧ same_entity markables k true_antecedent = false)
      as Hfalse.
    { destruct (decide (Exists (λ k, same_entity markables k true_antecedent
                                     = false) (seq 0 i))) as [Hex|Hno].
      - apply Exists_exists in Hex as (k & Hk%elem_of_seq & Hside).
        exists k. split; [lia|done].
      - destruct Hnot. intros k Hk.
        rewrite <- Forall_Exists_neg, Forall_forall in Hno.
        specialize (Hno k). rewrite elem_of_seq in Hno.
        destruct (same_entity markables k true_antecedent); [done|].
        destruct Hno; [lia|done]. }
    assert (∃ k, k < i ∧ same_entity markables k true_antecedent = true)
      as Htrue.
    { exists true_antecedent. split; [lia|]. unfold same_entity.
      destruct (lookup_lt_is_Some_2 markables true_antecedent) as [m ->];
        [lia|].
      by apply bool_decide_eq_true_2. }
    destruct (side_max_spec markables i true_antecedent true scores Hlen Htrue)
      as (trues & t & Htrues & Ht & Ht_in & Ht_max).
    destruct (side_max_spec markables i true_antecedent false scores Hlen
                Hfalse)
      as (falses & f & Hfalses & Hf & Hf_in & Hf_max).
    rewrite Htrues. simpl. rewrite Ht. simpl.
    rewrite Hfalses. simpl. rewrite Hf. simpl.
    split.
    + split; [done|]. intros [?|[?|?]]; done.
    + intros _. exists scores, t, f. by repeat split.
Qed.

(** The theorem at work on the third mention of the dog document, whose
    gold antecedent is the first. *)
Lemma instance_top_scores_cases_witness :
  ∃ scores t f,
    neural_net.score_instance first_entry_scorer dog_embeddings dog_document
      2 coref_features.minimal_features = Ok scores
    ∧ length scores = 2 + 1
    ∧ neural_net.instance_top_scores first_entry_scorer dog_embeddings
        dog_document 2 0 coref_features.minimal_features
      = Ok (Some t, Some f)
    ∧ (∃ k, k < 2 ∧ same_entity dog_document k 0 = true
            ∧ scores !! k = Some t)
    ∧ (∀ k s, k < 2 → same_entity dog_document k 0 = true →
              scores !! k = Some s → (s <= t)%Q)
    ∧ (∃ k, k < 2 ∧ same_entity dog_document k 0 = false
            ∧ scores !! k = Some f)
    ∧ (∀ k s, k < 2 → same_entity dog_document k 0 = false →
              scores !! k = Some s → (s <= f)%Q).
Proof.
  refine (proj2 (instance_top_scores_cases concrete.torch_vectors
                   first_entry_scorer dog_embeddings dog_document 2 0
                   coref_features.minimal_features _ _ _) _).
  - lia.
  - simpl. lia.
  - intros _ _. eexists. vm_compute. reflexivity.
  - intros [Hi|[Hi|Hall]]; [lia|lia|].
    specialize (Hall 1 ltac:(lia)). vm_compute in Hall. congruence.
Defined.

Example instance_top_scores_dog_document :
  neural_net.score_instance first_entry_scorer dog_embeddings dog_document
    2 coref_features.minimal_features = Ok [1; 2; 3]%Q
  ∧ neural_net.instance_top_scores first_entry_scorer dog_embeddings
      dog_document 2 0 coref_features.minimal_features
    = Ok (Some 1%Q, Some 2%Q)
  ∧ neural_net.instance_top_scores first_entry_scorer dog_embeddings
      dog_document 2 2 coref_features.minimal_features = Ok (None, None)
  ∧ neural_net.instance_top_scores first_entry_scorer dog_embeddings
      dog_document 0 0 coref_features.minimal_features = Ok (None, None)
  ∧ neural_net.instance_top_scores first_entry_scorer dog_embeddings
      [the_dog 0 "A"; it_ 3 "A"; the_dog 5 "A"] 2 1
      coref_features.minimal_features = Ok (None, None).
Proof. repeat split; by vm_compute. Qed.

(** * Rounding in floating-point arithmetic *)

Section rounding.
Variables prec emax : Z.
Hypothesis prec_pos : (0 < prec)%Z.

Lemma iter_pos_indexed {A} (f : A → A) (P : Z → A → Prop) :
  (∀ k x, (0 ≤ k)%Z → P (k + 1)%Z x → P k (f x)) →
  ∀ n k x, (0 ≤ k)%Z → P (k + Zpos n)%Z x → P k (SpecFloat.iter_pos f n x).
Proof.
  intros Hstep. induction n as [n IH|n IH|]; intros k x Hk HP; simpl.
  - apply IH; [done|]. apply IH; [lia|]. apply Hstep; [lia|].
    replace (k + Z.pos n + Z.pos n + 1)%Z with (k + Z.pos n~1)%Z by lia. done.
  - apply IH; [done|]. apply IH; [lia|].
    replace (k + Z.pos n + Z.pos n)%Z with (k + Z.pos n~0)%Z by lia. done.
  - by apply Hstep.
Qed.

Lemma shr_1_half mrs :
  (0 ≤ shr_m mrs)%Z → shr_m (shr_1 mrs) = (shr_m mrs / 2)%Z.
Proof.
  destruct mrs as [m r s]. simpl. intros Hm.
  destruct m as [|[p|p|]|p]; simpl; try done; try lia.
  - rewrite Pos2Z.inj_xI. apply Z.div_unique with 1%Z; lia.
  - rewrite Pos2Z.inj_xO. apply Z.div_unique with 0%Z; lia.
Qed.

Lemma shr_1_nonneg mrs : (0 ≤ shr_m mrs)%Z → (0 ≤ shr_m (shr_1 mrs))%Z.
Proof. intros Hm. rewrite shr_1_half by done. by apply Z.div_pos. Qed.

Lemma shr_1_above k mrs :
  (0 ≤ k)%Z → (2 ^ (k + 1) ≤ shr_m mrs)%Z → (2 ^ k ≤ shr_m (shr_1 mrs))%Z.
Proof.
  intros Hk Hm. rewrite Z.pow_add_r, Z.pow_1_r in Hm by lia.
  rewrite shr_1_half by lia. apply Z.div_le_lower_bound; lia.
Qed.

Lemma digits2_pos_below (p : positive) :
  (2 ^ (Zpos (digits2_pos p) - 1) ≤ Zpos p)%Z.
Proof.
  induction p as [p IH|p IH|]; simpl digits2_pos; [| |done].
  - rewrite Pos2Z.inj_succ. replace (Z.succ (Zpos (digits2_pos p)) - 1)%Z
      with (Zpos (digits2_pos p) - 1 + 1)%Z by lia.
    rewrite Z.pow_add_r, Z.pow_1_r by lia. lia.
  - rewrite Pos2Z.inj_succ. replace (Z.succ (Zpos (digits2_pos p)) - 1)%Z
      with (Zpos (digits2_pos p) - 1 + 1)%Z by lia.
    rewrite Z.pow_add_r, Z.pow_1_r by lia. lia.
Qed.

Lemma fexp_emin e : (emin prec emax ≤ fexp prec emax e)%Z.
Proof. unfold fexp. lia. Qed.

(** The shift of [shr_fexp] keeps a mantissa that is not negative so, never
    leaves an exponent below [emin], and does not shift a positive mantissa
    out when the exponent it comes with is not below [emin]. *)
Lemma shr_fexp_nonneg m e l :
  (0 ≤ m)%Z →
  (0 ≤ shr_m (shr_fexp prec emax m e l).1)%Z
  ∧ (emin prec emax ≤ (shr_fexp prec emax m e l).2)%Z
  ∧ ((0 < m)%Z → (emin prec emax ≤ e)%Z →
     (0 < shr_m (shr_fexp prec emax m e l).1)%Z).
Proof.
  intros Hm. unfold shr_fexp, shr.
  assert (shr_m (shr_record_of_loc m l) = m) as Hrec
    by (by destruct l as [|[]]).
  pose proof (fexp_emin (Zdigits2 m + e)) as Hfexp.
  destruct (fexp prec emax (Zdigits2 m + e) - e)%Z as [|n|n] eqn:Hn; simpl.
  - rewrite Hrec. split; [done|]. split; [lia|]. done.
  - split; [|split; [lia|]].
    + apply (iter_pos_indexed shr_1 (λ _ mrs, (0 ≤ shr_m mrs)%Z))
        with (k := 0%Z);
        [intros; by apply shr_1_nonneg|done|by rewrite Hrec].
    + intros Hpos He.
      assert (2 ^ 0
              ≤ shr_m (SpecFloat.iter_pos shr_1 n (shr_record_of_loc m l)))%Z;
        [|simpl in *; lia].
      apply (iter_pos_indexed shr_1 (λ k mrs, (2 ^ k ≤ shr_m mrs)%Z));
        [intros; by apply shr_1_above|done|].
      rewrite Hrec. destruct m as [|p|p]; [lia| |lia].
      etransitivity; [|apply digits2_pos_below].
      apply Z.pow_le_mono_r; [lia|].
      unfold fexp in Hn. simpl Zdigits2 in Hn. lia.
  - rewrite Hrec. split; [done|]. split; [lia|]. done.
Qed.

Lemma round_nearest_even_ge m l : (m ≤ round_nearest_even m l)%Z.
Proof.
  destruct l as [|[]]; simpl; try lia. destruct (Z.even m); lia.
Qed.

(** [binary_round_aux] on a mantissa that is not negative: the result has
    the sign given and is not NaN, its exponent is not below [emin], and it
    is not a zero when the mantissa is positive and comes with an exponent
    that is not below [emin]. *)
Lemma binary_round_aux_signed sx mx ex lx :
  (0 ≤ mx)%Z →
  let r := binary_round_aux prec emax sx mx ex lx in
  signed sx r ∧ exponent_bounded prec emax r
  ∧ ((0 < mx)%Z → (emin prec emax ≤ ex)%Z → float32.is_zero r = false).
Proof.
  intros Hmx. unfold binary_round_aux.
  destruct (shr_fexp_nonneg mx ex lx Hmx) as (H1 & He1 & Hpos1).
  destruct (shr_fexp prec emax mx ex lx) as [mrs' e'] eqn:Hshr1.
  simpl in H1, He1, Hpos1.
  pose proof (round_nearest_even_ge (shr_m mrs') (loc_of_shr_record mrs'))
    as Hrne.
  set (m1 := round_nearest_even (shr_m mrs') (loc_of_shr_record mrs')) in *.
  destruct (shr_fexp_nonneg m1 e' loc_Exact ltac:(lia)) as (H2 & He2 & Hpos2).
  destruct (shr_fexp prec emax m1 e' loc_Exact) as [mrs'' e''] eqn:Hshr2.
  simpl in H2, He2, Hpos2. simpl.
  destruct (shr_m mrs'') as [|m|m] eqn:Hm2; [| |lia].
  - simpl. split; [done|]. split; [done|]. intros Hpos He.
    specialize (Hpos1 Hpos He). specialize (Hpos2 ltac:(lia) He1). lia.
  - destruct (e'' <=? emax - prec)%Z; simpl; by repeat split.
Qed.

Lemma shl_align_exponent mx ex ex' :
  ((shl_align mx ex ex').2 = Z.min ex ex')%Z.
Proof.
  unfold shl_align. destruct (ex' - ex)%Z eqn:Hd; simpl; lia.
Qed.

Lemma binary_round_signed sx mx ex :
  let r := binary_round prec emax sx mx ex in
  signed sx r ∧ exponent_bounded prec emax r
  ∧ ((emin prec emax ≤ ex)%Z → float32.is_zero r = false).
Proof.
  unfold binary_round.
  pose proof (shl_align_exponent mx ex
                (fexp prec emax (Zpos (digits2_pos mx) + ex))) as Hez.
  pose proof (fexp_emin (Zpos (digits2_pos mx) + ex)) as Hfexp.
  destruct (shl_align mx ex _) as [mz ez]. simpl in Hez.
  destruct (binary_round_aux_signed sx (Zpos mz) ez loc_Exact ltac:(lia))
    as (Hs & Hb & Hz).
  split; [done|]. split; [done|]. intros He. apply Hz; lia.
Qed.

Lemma binary_normalize_bounded m e szero :
  let r := binary_normalize prec emax m e szero in
  float32.is_nan r = false ∧ exponent_bounded prec emax r.
Proof.
  destruct m as [|m|m]; simpl; [done| |].
  - destruct (binary_round_signed false m e) as (Hs & Hb & _).
    split; [|done]. by destruct (binary_round _ _ _ _ _).
  - destruct (binary_round_signed true m e) as (Hs & Hb & _).
    split; [|done]. by destruct (binary_round _ _ _ _ _).
Qed.

(** Sums and differences of numbers whose exponents are not below [emin]
    are such numbers. *)
Lemma SFadd_bounded x y :
  exponent_bounded prec emax x → exponent_bounded prec emax y →
  exponent_bounded prec emax (SFadd prec emax x y).
Proof.
  intros Hx Hy.
  destruct x as [sx|sx| |sx mx ex], y as [sy|sy| |sy my ey];
    try done; try (by destruct sx, sy).
  apply binary_normalize_bounded.
Qed.

Lemma SFsub_bounded x y :
  exponent_bounded prec emax x → exponent_bounded prec emax y →
  exponent_bounded prec emax (SFsub prec emax x y).
Proof.
  intros Hx Hy.
  destruct x as [sx|sx| |sx mx ex], y as [sy|sy| |sy my ey];
    try done; try (by destruct sx, sy).
  apply binary_normalize_bounded.
Qed.



(** The sum of two numbers that are NaN or have a clear sign bit is such a
    number, and is a zero only if both are, when their exponents are not
    below [emin]: the sum of two positive numbers does not underflow. *)
Lemma SFadd_nan_or_positive x y :
  nan_or_positive x → nan_or_positive y →
  nan_or_positive (SFadd prec emax x y).
Proof.
  intros [->|Hx] [->|Hy]; [by left|by left|by left; destruct x|].
  destruct x as [sx|sx| |sx mx ex], y as [sy|sy| |sy my ey];
    simpl in Hx, Hy; try done; subst; try (by right).
  right. unfold SFadd. cbn [cond_Zopp].
  apply (binary_round_signed false).
Qed.

Lemma SFadd_zero_iff x y :
  nan_or_positive x → nan_or_positive y →
  exponent_bounded prec emax x → exponent_bounded prec emax y →
  float32.is_zero (SFadd prec emax x y)
  = float32.is_zero x && float32.is_zero y.
Proof.
  intros [->|Hx] [->|Hy] Hbx Hby; [done|done|by destruct x|].
  destruct x as [sx|sx| |sx mx ex], y as [sy|sy| |sy my ey];
    simpl in Hx, Hy; try done; subst; try done.
  unfold SFadd. cbn [cond_Zopp]. simpl in Hbx, Hby.
  apply (binary_round_signed false). lia.
Qed.

Lemma digits2_pos_above (p : positive) :
  (Zpos p < 2 ^ Zpos (digits2_pos p))%Z.
Proof.
  induction p as [p IH|p IH|]; simpl digits2_pos; [| |done].
  - rewrite Pos2Z.inj_succ, Z.pow_succ_r by lia. lia.
  - rewrite Pos2Z.inj_succ, Z.pow_succ_r by lia. lia.
Qed.

Lemma digits2_pos_unique (p : positive) (d : Z) :
  (2 ^ (d - 1) ≤ Zpos p < 2 ^ d)%Z → Zpos (digits2_pos p) = d.
Proof.
  intros [Hlo Hhi].
  pose proof (digits2_pos_below p) as Hlo'.
  pose proof (digits2_pos_above p) as Hhi'.
  assert (0 ≤ d)%Z as Hd.
  { destruct (decide (0 ≤ d)%Z) as [|Hneg]; [done|].
    rewrite Z.pow_neg_r in Hhi by lia. lia. }
  assert (d - 1 < Zpos (digits2_pos p))%Z
    by (apply (Z.pow_lt_mono_r_iff 2); lia).
  assert (Zpos (digits2_pos p) - 1 < d)%Z
    by (apply (Z.pow_lt_mono_r_iff 2); lia).
  lia.
Qed.

Lemma Zdigits2_shift (m : positive) (j : Z) :
  (0 ≤ j)%Z → Zdigits2 (Zpos m * 2 ^ j) = (Zpos (digits2_pos m) + j)%Z.
Proof.
  intros Hj. pose proof (digits2_pos_below m) as Hlo.
  pose proof (digits2_pos_above m) as Hhi.
  assert (0 < 2 ^ j)%Z as Hpow by (apply Z.pow_pos_nonneg; lia).
  destruct (Zpos m * 2 ^ j)%Z as [|p|p] eqn:Hp; [lia| |lia].
  simpl. apply digits2_pos_unique. rewrite <- Hp.
  replace (Zpos (digits2_pos m) + j - 1)%Z
    with (Zpos (digits2_pos m) - 1 + j)%Z by lia.
  rewrite !Z.pow_add_r by lia. split; nia.
Qed.

(** Shifting [m * 2^j] by [j] bits gives [m] and loses nothing. *)
Lemma iter_shr_1_exact (m j : positive) :
  SpecFloat.iter_pos shr_1 j
    (Build_shr_record (Zpos m * 2 ^ Zpos j) false false)
  = Build_shr_record (Zpos m) false false.
Proof.
  assert (∀ n k x, (0 ≤ k)%Z →
            x = Build_shr_record (Zpos m * 2 ^ (k + Zpos n)) false false →
            SpecFloat.iter_pos shr_1 n x
            = Build_shr_record (Zpos m * 2 ^ k) false false) as Hiter.
  { apply (iter_pos_indexed shr_1
             (λ k mrs,
                mrs = Build_shr_record (Zpos m * 2 ^ k) false false)).
    intros k x Hk ->. rewrite Z.pow_add_r, Z.pow_1_r by lia.
    assert (0 < 2 ^ k)%Z as Hpow by (apply Z.pow_pos_nonneg; lia).
    destruct (Zpos m * 2 ^ k)%Z as [|p|p] eqn:Hp; [lia| |lia].
    replace (Zpos m * (2 ^ k * 2))%Z with (Zpos p~0) by lia. done. }
  etransitivity; [apply (Hiter j 0%Z); [done|reflexivity]|]. f_equal. lia.
Qed.

(** [binary_round_aux] keeps a number of the format, however its mantissa
    and its exponent are given. *)
Lemma binary_round_aux_exact s m e j :
  bounded prec emax m e = true → (0 ≤ j)%Z →
  binary_round_aux prec emax s (Zpos m * 2 ^ j) (e - j) loc_Exact
  = S754_finite s m e.
Proof.
  intros [Hcanon Hmax%Z.leb_le]%andb_true_iff Hj.
  apply Z.eqb_eq in Hcanon.
  assert (shr_fexp prec emax (Zpos m * 2 ^ j) (e - j) loc_Exact
          = (Build_shr_record (Zpos m) false false, e)) as Hshr1.
  { unfold shr_fexp. rewrite Zdigits2_shift by done.
    replace (Zpos (digits2_pos m) + j + (e - j))%Z
      with (Zpos (digits2_pos m) + e)%Z by lia.
    rewrite Hcanon. replace (e - (e - j))%Z with j by lia.
    destruct j as [|j|j]; [|simpl|lia].
    - simpl. rewrite Z.mul_1_r. f_equal; lia.
    - rewrite iter_shr_1_exact. f_equal. lia. }
  assert (shr_fexp prec emax (Zpos m) e loc_Exact
          = (Build_shr_record (Zpos m) false false, e)) as Hshr2.
  { unfold shr_fexp. simpl Zdigits2. rewrite Hcanon, Z.sub_diag. done. }
  unfold binary_round_aux. rewrite Hshr1. simpl. rewrite Hshr2. simpl.
  apply Z.leb_le in Hmax. by rewrite Hmax.
Qed.

Lemma new_location_exact (nb_steps : Z) : new_location nb_steps 0 = loc_Exact.
Proof.
  unfold new_location, new_location_even, new_location_odd.
  by destruct (Z.even nb_steps).
Qed.

(** The rounded quotient of [n / d] is [m * 2^e] when the quotient is this
    number of the format: [n * 2^k = m * 2^i * d] with [e = i - k]. *)
Lemma SFdiv_core_binary_exact s (n d m : positive) (i k e : Z) :
  bounded prec emax m e = true →
  (0 ≤ i)%Z → (0 ≤ k)%Z → (i = 0 ∨ k = 0)%Z → e = (i - k)%Z →
  (Zpos n * 2 ^ k = Zpos m * 2 ^ i * Zpos d)%Z →
  (let '(mz, ez, lz) := SFdiv_core_binary prec emax (Zpos n) 0 (Zpos d) 0 in
   binary_round_aux prec emax s mz ez lz) = S754_finite s m e.
Proof.
  intros Hb Hi Hk Hik He Heq. unfold SFdiv_core_binary.
  set (E := Z.min _ _).
  assert (0 < 2 ^ k)%Z as Hpk by (apply Z.pow_pos_nonneg; lia).
  assert (0 < 2 ^ i)%Z as Hpi by (apply Z.pow_pos_nonneg; lia).
  assert (E ≤ e)%Z as HE.
  { subst E. destruct (decide (0 ≤ e)%Z) as [|Hneg]; [simpl; lia|].
    assert (i = 0%Z) as -> by lia. rewrite Z.pow_0_r, Z.mul_1_r in Heq.
    apply andb_true_iff in Hb as [Hcanon%Z.eqb_eq _].
    pose proof (digits2_pos_below n) as Hn. pose proof (digits2_pos_above m).
    pose proof (digits2_pos_above d).
    assert (2 ^ (Zpos (digits2_pos n) - 1 + k)
            < 2 ^ (Zpos (digits2_pos m) + Zpos (digits2_pos d)))%Z as Hlt.
    { rewrite !Z.pow_add_r by lia. nia. }
    apply (Z.pow_lt_mono_r_iff 2) in Hlt; [|lia|lia].
    simpl Zdigits2. unfold fexp in *. lia. }
  assert (E ≤ 0)%Z as HE0 by (subst E; lia).
  set (m' := match (0 - 0 - E)%Z with
             | Zpos _ => _ | Z0 => _ | Zneg _ => _ end).
  assert (m' = Zpos m * 2 ^ (e - E) * Zpos d)%Z as Hm'.
  { assert (m' = Zpos n * 2 ^ (- E))%Z as ->.
    { subst m'. destruct (0 - 0 - E)%Z as [|p|p] eqn:HEp; [|..].
      - replace (- E)%Z with 0%Z by lia. lia.
      - rewrite Z.shiftl_mul_pow2 by lia. f_equal. f_equal. lia.
      - lia. }
    destruct Hik as [-> | ->].
    - rewrite Z.pow_0_r, Z.mul_1_r in Heq.
      replace (- E)%Z with (k + (e - E))%Z by lia.
      rewrite Z.pow_add_r by lia. nia.
    - rewrite Z.pow_0_r, Z.mul_1_r in Heq. rewrite Heq.
      replace (e - E)%Z with (i + - E)%Z by lia.
      rewrite Z.pow_add_r by lia. nia. }
  assert (Z.div_eucl m' (Zpos d) = (Zpos m * 2 ^ (e - E), 0)%Z) as Hdiv.
  { pose proof (Z.div_mul (Zpos m * 2 ^ (e - E)) (Zpos d) ltac:(done)) as Hq.
    pose proof (Z.mod_mul (Zpos m * 2 ^ (e - E)) (Zpos d) ltac:(done)) as Hr.
    rewrite <- Hm' in Hq, Hr. unfold Z.div, Z.modulo in Hq, Hr.
    destruct (Z.div_eucl m' (Zpos d)). by subst. }
  rewrite Hdiv, new_location_exact.
  replace E with (e - (e - E))%Z at 2 by lia.
  apply binary_round_aux_exact; [done|lia].
Qed.

End rounding.

(** * The training loss *)

(** A few entries: a rational that is a [float32] number is kept, and the
    others are rounded to the nearest one, ties to even, beyond the range
    to an infinity and below it to a zero. *)
Example float32_of_Q :
  float32.of_Q 4 = S754_finite false 8388608 (-21)
  ∧ float32.of_Q (-3) = S754_finite true 12582912 (-22)
  ∧ float32.of_Q (1 # 3) = S754_finite false 11184811 (-25)
  ∧ float32.of_Q 16777217 = float32.of_Q 16777216
  ∧ float32.of_Q 16777219 = float32.of_Q 16777220
  ∧ float32.of_Q (inject_Z (2 ^ 128)) = S754_infinity false
  ∧ float32.of_Q (inject_Z (2 ^ 128 - 2 ^ 104))
    = S754_finite false 16777215 104
  ∧ float32.of_Q (1 # 2 ^ 149) = S754_finite false 1 (-149)
  ∧ float32.of_Q (-1 # 2 ^ 150) = S754_zero true.
Proof. repeat split; by vm_compute. Qed.

Lemma float32_prec_pos : (0 < float32.prec)%Z.
Proof. done. Qed.

Lemma of_Q_bounded q :
  float32.is_nan (float32.of_Q q) = false
  ∧ exponent_bounded float32.prec float32.emax (float32.of_Q q).
Proof.
  assert (∀ s n d,
            let r := float32.round_quotient s n d in
            float32.is_nan r = false
            ∧ exponent_bounded float32.prec float32.emax r) as Hround.
  { intros s n d. unfold float32.round_quotient, SFdiv_core_binary.
    set (e' := Z.min _ _). set (m' := match (0 - 0 - e')%Z with
                                      | Zpos _ => _ | Z0 => _ | Zneg _ => _
                                      end).
    assert (0 ≤ m')%Z as Hm'.
    { subst m'. destruct (0 - 0 - e')%Z; [done| |done].
      by apply Z.shiftl_nonneg. }
    pose proof (Z.div_pos m' (Zpos d) Hm' ltac:(done)) as Hq.
    unfold Z.div in Hq. destruct (Z.div_eucl m' (Zpos d)) as [q' r'].
    destruct (binary_round_aux_signed float32.prec float32.emax
                float32_prec_pos s q' e' (new_location (Zpos d) r') Hq)
      as (Hs & Hb & _).
    split; [|done]. by destruct (binary_round_aux _ _ _ _ _ _). }
  unfold float32.of_Q. destruct (Qnum q); [done|apply Hround..].
Qed.

(** A rational that is a [float32] number, whatever its numerator and its
    denominator, is kept by [of_Q]: keeping the scores as the rationals
    that they denote loses nothing. *)
Lemma of_Q_exact (q : Q) s m e :
  bounded float32.prec float32.emax m e = true →
  (q == float32.to_Q (S754_finite s m e))%Q →
  float32.of_Q q = S754_finite s m e.
Proof.
  intros Hb Hq. destruct q as [a b]. unfold Qeq in Hq.
  unfold float32.of_Q, float32.round_quotient. simpl Qnum. simpl Qden.
  destruct (decide (0 ≤ e)%Z) as [He|He].
  - assert (a = cond_Zopp s (Zpos m) * 2 ^ e * Zpos b)%Z as Ha.
    { destruct e as [|e|e]; simpl in Hq; lia. }
    assert (0 < 2 ^ e)%Z as Hpow by (apply Z.pow_pos_nonneg; lia).
    destruct s; simpl in Ha.
    + destruct a as [|n|n]; [nia|nia|].
      apply (SFdiv_core_binary_exact _ _ true n b m e 0 e);
        [done|done|done|by right|lia|nia].
    + destruct a as [|n|n]; [nia| |nia].
      apply (SFdiv_core_binary_exact _ _ false n b m e 0 e);
        [done|done|done|by right|lia|nia].
  - destruct e as [|e|k]; [lia|lia|]. simpl in Hq.
    rewrite Pos2Z.inj_pow in Hq.
    assert (0 < 2 ^ Zpos k)%Z as Hpow by (apply Z.pow_pos_nonneg; lia).
    destruct s; simpl in Hq.
    + destruct a as [|n|n]; [nia|nia|].
      apply (SFdiv_core_binary_exact _ _ true n b m
               0 (Zpos k) (Zneg k));
        [done|done|done|by left|lia|nia].
    + destruct a as [|n|n]; [nia| |nia].
      apply (SFdiv_core_binary_exact _ _ false n b m
               0 (Zpos k) (Zneg k));
        [done|done|done|by left|lia|nia].
Qed.

Lemma float32_in_range (q : Q) s m e :
  bounded float32.prec float32.emax m e = true →
  (q == float32.to_Q (S754_finite s m e))%Q → in_range q.
Proof. intros Hb Hq. unfold in_range. by rewrite (of_Q_exact q s m e). Qed.

Lemma marg_bounded margin max_t max_f :
  exponent_bounded float32.prec float32.emax
    (neural_net.marg margin max_t max_f).
Proof.
  unfold neural_net.marg.
  apply (SFadd_bounded _ _ float32_prec_pos); [|apply of_Q_bounded].
  apply (SFsub_bounded _ _ float32_prec_pos); apply of_Q_bounded.
Qed.


(** The hinge term is NaN, when the margin term is, or has a clear sign
    bit; it is the zero of [_zero] exactly when the margin term is at most
    zero. *)
Lemma hinge_nan_or_positive margin max_t max_f :
  nan_or_positive (hinge margin max_t max_f).
Proof.
  unfold hinge. destruct (neural_net.marg margin max_t max_f)
    as [[]|[]| |[] m e]; simpl; (by left) || (by right).
Qed.

Lemma hinge_bounded margin max_t max_f :
  exponent_bounded float32.prec float32.emax (hinge margin max_t max_f).
Proof.
  unfold hinge. pose proof (marg_bounded margin max_t max_f) as Hb.
  by destruct (neural_net.marg margin max_t max_f) as [[]|[]| |[] m e].
Qed.

Lemma hinge_zero_iff margin max_t max_f :
  hinge margin max_t max_f = float32.zero
  ↔ float32.leb (neural_net.marg margin max_t max_f) float32.zero = true.
Proof.
  unfold hinge. by destruct (neural_net.marg margin max_t max_f)
    as [[]|[]| |[] m e].
Qed.

(** Which of the two zeros the maximum keeps for a margin term that is a
    zero does not matter to the loss. *)
Lemma add_zero_sign x :
  nan_or_positive x →
  float32.add x (S754_zero true) = float32.add x (S754_zero false).
Proof. intros [->|Hx]; [done|]. destruct x as [[]|[]| |[]]; by simpl in *. Qed.




Lemma nan_or_positive_zero x :
  nan_or_positive x → float32.is_zero x = true ↔ x = float32.zero.
Proof.
  intros [->|Hx]; [done|]. destruct x as [[]|[]| |[]]; by simpl in *.
Qed.

(** The loop of [train] adds, from the left to the right, the hinge terms
    of the eligible mentions to the loss. *)
Lemma accumulate_loss_sum (T : neural_net.Torch)
    (scoring_model : neural_net.SequentialScorer)
    (att_embs : list neural_net.tensor) (marks : list Markable)
    (true_ants : list nat) (feats : coref_features.extractor) (margin : Q)
    (indices : list nat) (loss l : spec_float) :
  neural_net.accumulate_loss scoring_model att_embs marks true_ants feats
    margin indices loss = Ok l →
  l = fold_left (λ acc '(max_t, max_f),
                   float32.add acc (hinge margin max_t max_f))
        (eligible_scores scoring_model att_embs marks true_ants feats indices)
        loss.
Proof.
  revert loss. induction indices as [|i indices IH]; intros loss; simpl.
  - by intros [= <-].
  - unfold getitem. destruct (true_ants !! i) as [true_ant|]; simpl; [|done].
    destruct (neural_net.instance_top_scores scoring_model att_embs marks i
                true_ant feats) as [[[max_t|] [max_f|]]|]; simpl;
      try done; apply IH.
Qed.


Lemma sum_hinge_bounded margin (terms : list (Q * Q)) (loss : spec_float) :
  exponent_bounded float32.prec float32.emax loss →
  exponent_bounded float32.prec float32.emax
    (fold_left (λ acc '(max_t, max_f),
                  float32.add acc (hinge margin max_t max_f)) terms loss).
Proof.
  revert loss. induction terms as [|[t f] terms IH]; intros loss Hloss; simpl.
  - done.
  - apply IH, (SFadd_bounded _ _ float32_prec_pos);
      [done|apply hinge_bounded].
Qed.




Example document_loss_dog_document :
  concrete.get_true_antecedents dog_document = Ok [0; 1; 0]
  ∧ eligible_scores first_entry_scorer [[0; 0]; [3; 0]; [5; 0]]%Q
      dog_document [0; 1; 0] coref_features.minimal_features [0; 1; 2]
    = [(0%Q, 3%Q)]
  ∧ in_range 0 ∧ in_range 3
  ∧ neural_net.document_loss concrete.get_true_antecedents
      no_word_embeddings start_token_embedding first_entry_scorer
      coref_features.minimal_features 10 1
      ["the"; "dog"; "barked"; "it"; "ran"; "the"; "dog"] dog_document
    = Ok (float32.of_Q 4)
  ∧ neural_net.document_loss concrete.get_true_antecedents
      no_word_embeddings start_token_embedding first_entry_scorer
      coref_features.minimal_features 10 (-5)
      ["the"; "dog"; "barked"; "it"; "ran"; "the"; "dog"] dog_document
    = Ok float32.zero.
Proof. repeat split; by vm_compute. Qed.

(** * Further properties of the pairwise rules *)

(** [exact_match] is an equivalence on markables: it compares the
    downcased token sequences and nothing else. *)
Theorem exact_match_equivalence :
  (∀ x, coref_rules.exact_match x x = true)
  ∧ (∀ x y, coref_rules.exact_match x y = coref_rules.exact_match y x)
  ∧ (∀ x y z, coref_rules.exact_match x y = true →
              coref_rules.exact_match y z = true →
              coref_rules.exact_match x z = true).
Proof.
  unfold coref_rules.exact_match. split; [|split].
  - intros x. by apply bool_decide_eq_true_2.
  - intros x y. apply bool_decide_ext. split; by intros ->.
  - intros x y z Hxy%bool_decide_eq_true_1 Hyz%bool_decide_eq_true_1.
    apply bool_decide_eq_true_2. congruence.
Qed.

Lemma between_spec lo x hi :
  coref_rules.between lo x hi = true ↔ (lo ≤ x ∧ x ≤ hi)%Z.
Proof.
  unfold coref_rules.between.
  rewrite andb_true_iff, !Z.leb_le. tauto.
Qed.

(** [match_no_overlap] does not depend on the order of its arguments, it
    is the negation of the [crossover] test of [minimal_features], and on
    two spans with [start_token <= end_token] it holds exactly when one
    span ends before the other starts. *)
Theorem match_no_overlap_disjoint_spans (m_a m_i : Markable) :
  coref_rules.match_no_overlap m_a m_i = coref_rules.match_no_overlap m_i m_a
  ∧ coref_features.crossover m_a m_i
    = negb (coref_rules.match_no_overlap m_a m_i)
  ∧ ((Markable.start_token m_a ≤ Markable.end_token m_a)%Z →
     (Markable.start_token m_i ≤ Markable.end_token m_i)%Z →
     (coref_rules.match_no_overlap m_a m_i = true
      ↔ (Markable.end_token m_a < Markable.start_token m_i
         ∨ Markable.end_token m_i < Markable.start_token m_a)%Z)).
Proof.
  unfold coref_rules.match_no_overlap, coref_features.crossover.
  split; [apply andb_comm|]. split.
  - rewrite negb_andb, !negb_involutive. apply orb_comm.
  - intros Ha Hi.
    rewrite andb_true_iff, !negb_true_iff, <- !not_true_iff_false.
    rewrite !between_spec. lia.
Qed.

Lemma last_None_nil {A} (l : list A) : last l = None ↔ l = [].
Proof. apply last_None. Qed.

(** [match_last_token] raises [IndexError] exactly when one of the two
    markables has no token; otherwise it compares the lowercased final
    tokens; either way the order of the arguments does not matter. *)
Theorem match_last_token_cases (m_a m_i : Markable) :
  (coref_rules.match_last_token m_a m_i = Raise IndexError
   ↔ Markable.string m_a = [] ∨ Markable.string m_i = [])
  ∧ (∀ t_a t_i, last (Markable.string m_a) = Some t_a →
                last (Markable.string m_i) = Some t_i →
                coref_rules.match_last_token m_a m_i
                = Ok (bool_decide (lower t_a = lower t_i)))
  ∧ coref_rules.match_last_token m_a m_i
    = coref_rules.match_last_token m_i m_a.
Proof.
  unfold coref_rules.match_last_token, coref_rules.last_token.
  destruct (last (Markable.string m_a)) as [t_a|] eqn:Ha;
    destruct (last (Markable.string m_i)) as [t_i|] eqn:Hi; simpl.
  - split; [|split].
    + split; [done|]. intros [Hnil|Hnil]; apply last_None_nil in Hnil;
        congruence.
    + by intros ? ? [= <-] [= <-].
    + f_equal. apply bool_decide_ext. split; by intros ->.
  - apply last_None_nil in Hi. split; [|split]; [|done|done].
    split; [by right|done].
  - apply last_None_nil in Ha. split; [|split]; [|done|done].
    split; [by left|done].
  - apply last_None_nil in Ha. split; [|split]; [|done|done].
    split; [by left|done].
Qed.

Lemma filter_content_Ok (tags : list string) n (toks : list string) :
  n + length toks ≤ length tags →
  coref_rules.filter_content tags (enumerate_from n toks)
  = Ok (omap (λ '(i, token),
                match tags !! i with
                | Some tag => if bool_decide (tag ∈ coref_rules.ALLOWED_TAGS)
                              then Some token else None
                | None => None
                end) (enumerate_from n toks)).
Proof.
  revert n. induction toks as [|token toks IH]; intros n Hlen; [done|].
  simpl in Hlen |- *.
  destruct (lookup_lt_is_Some_2 tags n) as [tag Htag]; [lia|].
  rewrite (getitem_Ok _ _ _ Htag). simpl.
  rewrite IH by lia. simpl. rewrite Htag.
  by destruct (bool_decide (tag ∈ coref_rules.ALLOWED_TAGS)).
Qed.

Lemma filter_content_short (tags : list string) n (toks : list string) :
  length tags < n + length toks → n ≤ length tags →
  coref_rules.filter_content tags (enumerate_from n toks) = Raise IndexError.
Proof.
  revert n. induction toks as [|token toks IH]; intros n Hlen Hn;
    simpl in Hlen |- *; [lia|].
  unfold getitem. destruct (tags !! n) as [tag|] eqn:Htag; simpl; [|done].
  apply lookup_lt_Some in Htag. by rewrite IH by lia.
Qed.

(** [match_on_content] reads one tag per token: it raises [IndexError]
    exactly when one of the markables has fewer tags than tokens, and
    returns a boolean otherwise; it never holds on two spans that overlap,
    and the order of its arguments does not matter. *)
Theorem match_on_content_cases (m_a m_i : Markable) :
  let covered m := length (Markable.string m) ≤ length (Markable.tags m) in
  (covered m_a ∧ covered m_i
   → ∃ b, coref_rules.match_on_content m_a m_i = Ok b
          ∧ (b = true → coref_rules.match_no_overlap m_a m_i = true))
  ∧ (¬ (covered m_a ∧ covered m_i)
     → coref_rules.match_on_content m_a m_i = Raise IndexError)
  ∧ coref_rules.match_on_content m_a m_i
    = coref_rules.match_on_content m_i m_a.
Proof.
  intros covered. unfold coref_rules.match_on_content, enumerate.
  assert (∀ m, ¬ covered m →
            coref_rules.filter_content (Markable.tags m)
              (enumerate_from 0 (Markable.string m)) = Raise IndexError)
    as Hshort.
  { intros m Hm. apply filter_content_short; unfold covered in Hm; lia. }
  assert (∀ m, covered m →
            is_Ok (coref_rules.filter_content (Markable.tags m)
                     (enumerate_from 0 (Markable.string m)))) as Hok.
  { intros m Hm. eexists. by apply filter_content_Ok. }
  split; [|split].
  - intros [[fa ->]%Hok [fi ->]%Hok]. simpl. eexists. split; [done|].
    unfold coref_rules.match_no_overlap.
    rewrite !andb_true_iff. tauto.
  - intros Hnot.
    destruct (decide (covered m_a)) as [Ha|Ha].
    + destruct (Hok m_a Ha) as [fa ->]. simpl.
      rewrite (Hshort m_i); [done|]. tauto.
    + by rewrite (Hshort m_a Ha).
  - destruct (decide (covered m_a)) as [Ha|Ha];
      destruct (decide (covered m_i)) as [Hi|Hi].
    + destruct (Hok m_a Ha) as [fa ->], (Hok m_i Hi) as [fi ->]. simpl.
      f_equal. rewrite (andb_comm (negb (coref_rules.between
        (Markable.start_token m_i) _ _))). f_equal.
      apply bool_decide_ext. split; by intros ->.
    + destruct (Hok m_a Ha) as [fa ->]. rewrite (Hshort m_i Hi). done.
    + destruct (Hok m_i Hi) as [fi ->]. rewrite (Hshort m_a Ha). done.
    + by rewrite (Hshort m_a Ha), (Hshort m_i Hi).
Qed.

(** * Resolvers built from the rules *)

Lemma last_match_none (p : Markable → Markable → bool) m_i
    (cands : list (nat * Markable)) d :
  (∀ a m_a, (a, m_a) ∈ cands → p m_a m_i = false) →
  last_match p m_i cands d = d.
Proof.
  unfold last_match. revert d.
  induction cands as [|[a m_a] cands IH]; intros d Hnone; simpl; [done|].
  rewrite (Hnone a m_a) by left. apply IH.
  intros a' m_a' Hin. apply (Hnone a'). by right.
Qed.

Lemma last_match_always m_i (l : list Markable) n d :
  last_match (λ _ _, true) m_i (enumerate_from n l) d
  = match l with [] => d | _ :: _ => n + length l - 1 end.
Proof.
  unfold last_match. revert n d.
  induction l as [|x l IH]; intros n d; simpl; [done|].
  rewrite IH. destruct l; simpl; lia.
Qed.

Lemma elem_of_enumerate_from_inv {A} n (l : list A) k x :
  (k, x) ∈ enumerate_from n l → n ≤ k ∧ l !! (k - n) = Some x.
Proof.
  revert n. induction l as [|y l IH]; intros n Hin; simpl in Hin.
  - by apply elem_of_nil in Hin.
  - apply elem_of_cons in Hin as [[= -> ->]|Hin].
    + by rewrite Nat.sub_diag.
    + apply IH in Hin as [Hle Hlook]. split; [lia|].
      replace (k - n) with (S (k - S n)) by lia. done.
Qed.

Lemma lists_equal_by_lookup (l1 l2 : list nat) :
  length l1 = length l2 →
  (∀ i x, l1 !! i = Some x → l2 !! i = Some x) → l1 = l2.
Proof.
  intros Hlen Hsame. apply list_eq. intros i.
  destruct (l1 !! i) as [x|] eqn:Hx; [symmetry; by apply Hsame|].
  symmetry. apply lookup_ge_None. apply lookup_ge_None in Hx. lia.
Qed.

(** With [full_cluster_matcher] the resolver chains the document into one
    entity: the first mention is its own antecedent and every other
    mention is linked to the mention just before it. *)
Theorem full_cluster_resolver_chain (markables : list Markable) :
  coref_rules.make_resolver
    (coref_rules.pure_matcher coref_rules.full_cluster_matcher) markables
  = Ok (map Nat.pred (seq 0 (length markables))).
Proof.
  unfold coref_rules.make_resolver.
  destruct (most_recent_match_pure coref_rules.full_cluster_matcher markables)
    as (antecedents & -> & Hlen & Hspec).
  f_equal. symmetry. apply lists_equal_by_lookup.
  - by rewrite length_map, length_seq.
  - intros i x Hx. rewrite list_lookup_fmap in Hx.
    destruct (seq 0 (length markables) !! i) as [j|] eqn:Hj; [|done].
    apply lookup_seq in Hj as [-> Hi]. simpl in Hx. simplify_eq.
    destruct (lookup_lt_is_Some_2 markables i Hi) as [m_i Hm_i].
    rewrite (Hspec i m_i Hm_i). f_equal.
    unfold enumerate, coref_rules.full_cluster_matcher.
    rewrite last_match_always.
    destruct (take i markables) as [|m l] eqn:Htake.
    + apply (f_equal length) in Htake. rewrite length_take in Htake.
      simpl in Htake. lia.
    + rewrite <- Htake, length_take. lia.
Qed.

(** With [singleton_matcher] every mention is its own antecedent exactly
    when no two markables of the document have the same
    [(start_token, end_token)]. *)
Theorem singleton_resolver_identity (markables : list Markable) :
  coref_rules.make_resolver
    (coref_rules.pure_matcher coref_rules.singleton_matcher) markables
  = Ok (seq 0 (length markables))
  ↔ ∀ a i m_a m_i, a < i → markables !! a = Some m_a →
      markables !! i = Some m_i →
      ¬ (Markable.start_token m_a = Markable.start_token m_i
         ∧ Markable.end_token m_a = Markable.end_token m_i).
Proof.
  unfold coref_rules.make_resolver.
  destruct (most_recent_match_pure coref_rules.singleton_matcher markables)
    as (antecedents & -> & Hlen & Hspec).
  assert (∀ m_a m_i, coref_rules.singleton_matcher m_a m_i = true
            ↔ Markable.start_token m_a = Markable.start_token m_i
              ∧ Markable.end_token m_a = Markable.end_token m_i) as Hp.
  { intros m_a m_i. unfold coref_rules.singleton_matcher.
    by rewrite andb_true_iff, !bool_decide_eq_true. }
  split.
  - intros [= ->] a i m_a m_i Hai Ha Hi Hsame%Hp.
    pose proof (Hspec i m_i Hi) as Hr.
    rewrite lookup_seq_lt in Hr by by eapply lookup_lt_Some.
    unfold enumerate in Hr.
    destruct (last_match_spec coref_rules.singleton_matcher m_i
                (take i markables) 0 i)
      as [[_ Hno]|(k & m & Hk & Hlook & _)].
    + rewrite (Hno a m_a) in Hsame; [done|]. by rewrite lookup_take_lt.
    + apply lookup_lt_Some in Hlook. rewrite length_take in Hlook.
      simpl in Hr, Hk. simplify_eq. lia.
  - intros Hdistinct. f_equal. apply lists_equal_by_lookup.
    + by rewrite length_seq.
    + intros i r Hr.
      assert (i < length markables) as Hi
        by (rewrite <- Hlen; by eapply lookup_lt_Some).
      destruct (lookup_lt_is_Some_2 markables i Hi) as [m_i Hm_i].
      rewrite (Hspec i m_i Hm_i) in Hr. simplify_eq.
      rewrite lookup_seq_lt by done. f_equal. simpl.
      rewrite last_match_none; [done|].
      intros a m_a [_ Hin]%elem_of_enumerate_from_inv.
      rewrite Nat.sub_0_r in Hin.
      assert (a < i) as Hai.
      { apply lookup_lt_Some in Hin. rewrite length_take in Hin. lia. }
      rewrite lookup_take_lt in Hin by done.
      apply not_true_iff_false. intros Hsame%Hp.
      by apply (Hdistinct a i m_a m_i).
Qed.

Lemma scan_candidates_raises (f : coref_rules.matcher) e i m_i
    (cands : list (nat * Markable)) (antecedents : list nat) :
  (∀ m_a e', f m_a m_i = Raise e' → e' = e) →
  (∃ a m_a, (a, m_a) ∈ cands ∧ f m_a m_i = Raise e) →
  coref_rules.scan_candidates f i m_i cands antecedents = Raise e.
Proof.
  intros Honly (a & m_a & Hin & Hraise). revert antecedents.
  induction cands as [|[a' m_a'] cands IH]; intros antecedents; simpl.
  - by apply elem_of_nil in Hin.
  - destruct (f m_a' m_i) as [b|e'] eqn:Hf; simpl.
    + apply elem_of_cons in Hin as [[= -> ->]|Hin]; [congruence|].
      by apply IH.
    + f_equal. by eapply Honly.
Qed.

Lemma scan_candidates_raises_only (f : coref_rules.matcher) e i m_i
    (cands : list (nat * Markable)) (antecedents : list nat) e' :
  (∀ m_a e', f m_a m_i = Raise e' → e' = e) →
  coref_rules.scan_candidates f i m_i cands antecedents = Raise e' → e' = e.
Proof.
  intros Honly. revert antecedents.
  induction cands as [|[a' m_a'] cands IH]; intros antecedents; simpl; [done|].
  destruct (f m_a' m_i) as [b|e''] eqn:Hf; simpl.
  - apply IH.
  - intros [= <-]. by eapply Honly.
Qed.

Lemma scan_mentions_raises (f : coref_rules.matcher) e
    (markables : list Markable) (todo : list (nat * Markable))
    (antecedents : list nat) :
  (∀ m_a m_i e', f m_a m_i = Raise e' → e' = e) →
  (∃ a i m_a m_i, (i, m_i) ∈ todo ∧ a < i ∧ markables !! a = Some m_a
                  ∧ f m_a m_i = Raise e) →
  coref_rules.scan_mentions f markables todo antecedents = Raise e.
Proof.
  intros Honly (a & i & m_a & m_i & Hin & Hai & Ha & Hraise).
  revert antecedents.
  induction todo as [|[i' m_i'] todo IH]; intros antecedents; simpl.
  - by apply elem_of_nil in Hin.
  - destruct (coref_rules.scan_candidates f i' m_i'
                (enumerate (take i' markables)) antecedents)
      as [antecedents'|e'] eqn:Hscan; simpl.
    + apply elem_of_cons in Hin as [[= -> ->]|Hin]; [|by apply IH].
      rewrite (scan_candidates_raises f e) in Hscan; [done| |].
      * intros ? ?. apply Honly.
      * exists a, m_a. split; [|done].
        apply (elem_of_enumerate_from 0). by rewrite lookup_take_lt.
    + f_equal. eapply scan_candidates_raises_only; [|exact Hscan].
      intros ? ?. apply Honly.
Qed.

(** A matcher that raises makes the resolver raise: if the matcher raises
    on a markable paired with an earlier one, and [e] is the only
    exception it raises, the resolver raises [e] and returns no
    assignment. *)
Theorem resolver_raises_with_matcher (f : coref_rules.matcher) (e : exn)
    (markables : list Markable) (a i : nat) (m_a m_i : Markable) :
  (∀ x y e', f x y = Raise e' → e' = e) →
  a < i → markables !! a = Some m_a → markables !! i = Some m_i →
  f m_a m_i = Raise e →
  coref_rules.make_resolver f markables = Raise e.
Proof.
  intros Honly Hai Ha Hi Hraise.
  unfold coref_rules.make_resolver, coref_rules.most_recent_match.
  apply scan_mentions_raises; [done|].
  exists a, i, m_a, m_i. repeat split; [|done|done|done].
  by apply (elem_of_enumerate_from 0).
Qed.

Lemma match_last_token_raises_IndexError x y e :
  coref_rules.match_last_token x y = Raise e → e = IndexError.
Proof.
  unfold coref_rules.match_last_token, coref_rules.last_token.
  destruct (last (Markable.string x)); simpl; [|by intros [= <-]].
  destruct (last (Markable.string y)); simpl; [done|by intros [= <-]].
Qed.

(** The theorem at work: [match_last_token] on a document whose second
    markable has no token. *)
Lemma resolver_raises_with_matcher_witness :
  coref_rules.make_resolver coref_rules.match_last_token
    [the_dog 0 "e1"; no_tokens 3 "e2"; the_dog 5 "e1"] = Raise IndexError.
Proof.
  apply (resolver_raises_with_matcher coref_rules.match_last_token IndexError
           _ 0 1 (the_dog 0 "e1") (no_tokens 3 "e2")).
  - apply match_last_token_raises_IndexError.
  - lia.
  - reflexivity.
  - reflexivity.
  - reflexivity.
Defined.

(** With [exact_match_no_pronouns] a pronoun is never linked: a mention
    whose concatenated lowercased tokens are in [pronouns] is its own
    antecedent, and is the antecedent of no other mention. *)
Theorem no_pronouns_resolver_keeps_pronouns_apart
    (markables : list Markable) :
  let pronoun m := lower (join (Markable.string m)) ∈ coref_rules.pronouns in
  ∃ antecedents,
    coref_rules.make_resolver
      (coref_rules.pure_matcher coref_rules.exact_match_no_pronouns)
      markables = Ok antecedents
    ∧ (∀ i m_i, markables !! i = Some m_i → pronoun m_i →
                antecedents !! i = Some i)
    ∧ (∀ i r m_r, antecedents !! i = Some r → r ≠ i →
                  markables !! r = Some m_r → ¬ pronoun m_r).
Proof.
  intros pronoun. unfold coref_rules.make_resolver.
  destruct (most_recent_match_pure coref_rules.exact_match_no_pronouns
              markables) as (antecedents & -> & Hlen & Hspec).
  assert (∀ m_a m_i, coref_rules.exact_match_no_pronouns m_a m_i = true →
                     ¬ pronoun m_a ∧ ¬ pronoun m_i) as Hp.
  { intros m_a m_i Hmatch.
    unfold coref_rules.exact_match_no_pronouns in Hmatch.
    apply andb_true_iff in Hmatch as [Heq%bool_decide_eq_true_1 Ha].
    apply negb_true_iff, bool_decide_eq_false in Ha.
    split; [done|]. unfold pronoun. by rewrite lower_join, <- Heq, <- lower_join. }
  exists antecedents. split; [done|]. split.
  - intros i m_i Hi Hpron. rewrite (Hspec i m_i Hi). f_equal.
    apply last_match_none. intros a m_a _.
    apply not_true_iff_false. intros [_ Hnot]%Hp. done.
  - intros i r m_r Hr Hne Hm_r Hpron.
    assert (i < length markables) as Hi
      by (rewrite <- Hlen; by eapply lookup_lt_Some).
    destruct (lookup_lt_is_Some_2 markables i Hi) as [m_i Hm_i].
    rewrite (Hspec i m_i Hm_i) in Hr. simplify_eq. unfold enumerate in *.
    destruct (last_match_spec coref_rules.exact_match_no_pronouns m_i
                (take i markables) 0 i)
      as [[Heq _]|(k & m & Hk & Hlook & Hmatch & _)]; [done|].
    simpl in Hk. rewrite Hk in Hm_r.
    assert (k < i) as Hki.
    { apply lookup_lt_Some in Hlook. rewrite length_take in Hlook. lia. }
    rewrite lookup_take_lt in Hlook by done. simplify_eq.
    apply Hp in Hmatch as [Hnot _]. done.
Qed.

(** * Further properties of the feature functions *)

Lemma match_on_content_true_no_crossover m_a m_i :
  coref_rules.match_on_content m_a m_i = Ok true →
  coref_features.crossover m_a m_i = false.
Proof.
  unfold coref_rules.match_on_content, coref_features.crossover.
  destruct (coref_rules.filter_content (Markable.tags m_a) _); simpl;
    [|done].
  destruct (coref_rules.filter_content (Markable.tags m_i) _); simpl;
    [|done].
  intros [= Htrue]. apply andb_true_iff in Htrue as [Htrue _].
  apply andb_true_iff in Htrue as [H1%negb_true_iff H2%negb_true_iff].
  by rewrite H1, H2.
Qed.

(** What [minimal_features] returns, when it returns: a dictionary whose
    keys are among the five names of [minimal_vocabulary], all with value
    1; for a mention paired with itself exactly [{"new-entity": 1}], and
    for two distinct indices never ["new-entity"]; and never both
    ["content-match"] and ["crossover"]. *)
Theorem minimal_features_shape (markables : list Markable) (a i : nat)
    (f : PyDict.t Z) :
  coref_features.minimal_features markables a i = Ok f →
  PyDict.wf f
  ∧ (∀ k v, (k, v) ∈ PyDict.items f → k ∈ minimal_vocabulary ∧ v = 1%Z)
  ∧ (a = i → f = [("new-entity", 1%Z)])
  ∧ (a ≠ i → PyDict.get f "new-entity" = None)
  ∧ ¬ (is_Some (PyDict.get f "content-match")
       ∧ is_Some (PyDict.get f "crossover")).
Proof.
  unfold coref_features.minimal_features, PyDict.wf, PyDict.items.
  destruct (getitem markables a) as [m_a|]; simpl; [|done].
  destruct (getitem markables i) as [m_i|]; simpl; [|done].
  destruct (decide (a = i)) as [Hai|Hai].
  { intros [= <-]. split; [apply (bool_decide_unpack _); by vm_compute|].
    split; [|split; [done|split; [done|]]].
    - intros k v [= -> ->]%list_elem_of_singleton.
      split; [|done]. apply (bool_decide_unpack _). by vm_compute.
    - intros [_ [v Hv]]. by vm_compute in Hv. }
  destruct (coref_rules.match_last_token m_a m_i) as [b2|]; simpl; [|done].
  destruct (coref_rules.match_on_content m_a m_i) as [b3|] eqn:Hcontent;
    simpl; [|done].
  assert (b3 = true → coref_features.crossover m_a m_i = false) as Hexcl.
  { intros ->. by apply match_on_content_true_no_crossover. }
  destruct (coref_rules.exact_match m_a m_i), b2, b3,
    (coref_features.crossover m_a m_i);
    try (by specialize (Hexcl eq_refl));
    intros [= <-];
    (split; [apply (bool_decide_unpack _); by vm_compute|]);
    (split; [|split; [done|split; [by intros _; vm_compute|]]]);
    try (intros [[v Hv] [w Hw]]; by vm_compute in Hv, Hw);
    intros k v Hin; simpl in Hin;
    repeat (apply elem_of_cons in Hin as [[= -> ->]|Hin];
            [split; [apply (bool_decide_unpack _); by vm_compute|done]|]);
    by apply elem_of_nil in Hin.
Qed.

(** The theorem at work on two mentions of ["the dog"]. *)
Lemma minimal_features_shape_witness :
  PyDict.wf [("exact-match", 1%Z); ("last-token-match", 1%Z);
             ("content-match", 1%Z)]
  ∧ (∀ k v, (k, v) ∈ PyDict.items [("exact-match", 1%Z);
                                   ("last-token-match", 1%Z);
                                   ("content-match", 1%Z)] →
            k ∈ minimal_vocabulary ∧ v = 1%Z)
  ∧ (0 = 1 → [("exact-match", 1%Z); ("last-token-match", 1%Z);
              ("content-match", 1%Z)] = [("new-entity", 1%Z)])
  ∧ (0 ≠ 1 → PyDict.get [("exact-match", 1%Z); ("last-token-match", 1%Z);
                         ("content-match", 1%Z)] "new-entity" = None)
  ∧ ¬ (is_Some (PyDict.get [("exact-match", 1%Z); ("last-token-match", 1%Z);
                            ("content-match", 1%Z)] "content-match")
       ∧ is_Some (PyDict.get [("exact-match", 1%Z);
                              ("last-token-match", 1%Z);
                              ("content-match", 1%Z)] "crossover")).
Proof.
  apply (minimal_features_shape [the_dog 0 "e1"; the_dog 5 "e1"] 0 1).
  by vm_compute.
Defined.

Lemma match_last_token_Ok m_a m_i :
  Markable.string m_a ≠ [] → Markable.string m_i ≠ [] →
  is_Ok (coref_rules.match_last_token m_a m_i).
Proof.
  intros Ha Hi. unfold coref_rules.match_last_token, coref_rules.last_token.
  destruct (last (Markable.string m_a)) eqn:Hla;
    [|by apply last_None in Hla].
  destruct (last (Markable.string m_i)) eqn:Hli;
    [|by apply last_None in Hli].
  by eexists.
Qed.

Lemma match_on_content_Ok m_a m_i :
  tags_cover m_a → tags_cover m_i →
  is_Ok (coref_rules.match_on_content m_a m_i).
Proof.
  intros Ha Hi. unfold coref_rules.match_on_content, enumerate.
  rewrite !filter_content_Ok by done. by eexists.
Qed.

Lemma match_on_content_uncovered m_a m_i :
  ¬ (tags_cover m_a ∧ tags_cover m_i) →
  coref_rules.match_on_content m_a m_i = Raise IndexError.
Proof.
  intros Hnot. unfold coref_rules.match_on_content, enumerate.
  destruct (decide (tags_cover m_a)) as [Ha|Ha].
  - rewrite (filter_content_Ok (Markable.tags m_a)) by done. simpl.
    rewrite filter_content_short; [done| |lia].
    unfold tags_cover in *. lia.
  - rewrite (filter_content_short (Markable.tags m_a)); [done| |lia].
    unfold tags_cover in *. lia.
Qed.

(** [minimal_features] returns a dictionary exactly when both indices are
    within the list and, unless they are equal, both markables have a token
    and a tag for each token; in every other case it raises
    [IndexError]. *)
Theorem minimal_features_raises_exactly (markables : list Markable)
    (a i : nat) :
  let ready :=
    ∃ m_a m_i, markables !! a = Some m_a ∧ markables !! i = Some m_i
      ∧ (a = i ∨ (Markable.string m_a ≠ [] ∧ Markable.string m_i ≠ []
                  ∧ tags_cover m_a ∧ tags_cover m_i)) in
  (ready → is_Ok (coref_features.minimal_features markables a i))
  ∧ (¬ ready →
     coref_features.minimal_features markables a i = Raise IndexError).
Proof.
  intros ready. unfold coref_features.minimal_features, getitem. split.
  - intros (m_a & m_i & -> & -> & Hcase). simpl.
    destruct (decide (a = i)) as [Hai|Hai]; [by eexists|].
    destruct Hcase as [?|(Ha & Hi & Hca & Hci)]; [done|].
    destruct (match_last_token_Ok m_a m_i Ha Hi) as [b2 ->]. simpl.
    destruct (match_on_content_Ok m_a m_i Hca Hci) as [b3 ->]. simpl.
    by eexists.
  - intros Hnot.
    destruct (markables !! a) as [m_a|] eqn:Ha; simpl; [|done].
    destruct (markables !! i) as [m_i|] eqn:Hi; simpl; [|done].
    destruct (decide (a = i)) as [Hai|Hai].
    { destruct Hnot. exists m_a, m_i. split; [done|]. split; [done|].
      by left. }
    destruct (coref_rules.match_last_token m_a m_i) as [b2|e] eqn:Hlast;
      simpl.
    + rewrite match_on_content_uncovered; [done|].
      intros [Hca Hci]. apply Hnot. exists m_a, m_i.
      split; [done|]. split; [done|]. right.
      unfold coref_rules.match_last_token, coref_rules.last_token in Hlast.
      destruct (Markable.string m_a) eqn:Hsa; [done|].
      destruct (Markable.string m_i) eqn:Hsi.
      { by destruct (last (s :: l)). }
      done.
    + f_equal. unfold coref_rules.match_last_token,
        coref_rules.last_token in Hlast.
      destruct (last (Markable.string m_a)); simpl in Hlast;
        [|by simplify_eq].
      destruct (last (Markable.string m_i)); simpl in Hlast; by simplify_eq.
Qed.

Lemma mention_key_in_vocabulary d :
  (0 < d ≤ 5)%Z →
  coref_features.mention_distance_key d ∈ distance_vocabulary.
Proof.
  intros Hd.
  assert (d = 1 ∨ d = 2 ∨ d = 3 ∨ d = 4 ∨ d = 5)%Z as Hcases by lia.
  destruct_or!; subst; apply (bool_decide_unpack _); by vm_compute.
Qed.

Lemma token_key_in_vocabulary t :
  (0 < t ≤ 10)%Z →
  coref_features.token_distance_key t ∈ distance_vocabulary.
Proof.
  intros Ht.
  assert (t = 1 ∨ t = 2 ∨ t = 3 ∨ t = 4 ∨ t = 5 ∨ t = 6 ∨ t = 7 ∨ t = 8
          ∨ t = 9 ∨ t = 10)%Z as Hcases by lia.
  destruct_or!; subst; apply (bool_decide_unpack _); by vm_compute.
Qed.

(** However long the document, [distance_features] with its default
    ceilings draws its feature names from the fifteen names of
    [distance_vocabulary], and returns at most two of them, each with
    value 1. *)
Theorem distance_features_bounded_vocabulary (x : list Markable)
    (a i : nat) (f : PyDict.t Z) :
  coref_features.distance_features_default x a i = Ok f →
  length f ≤ 2
  ∧ ∀ k v, (k, v) ∈ PyDict.items f → k ∈ distance_vocabulary ∧ v = 1%Z.
Proof.
  unfold coref_features.distance_features_default,
    coref_features.distance_features, PyDict.items.
  destruct (decide (a = i)) as [Hai|Hai].
  { intros [= <-]. split; [simpl; lia|].
    intros k v Hin. by apply elem_of_nil in Hin. }
  destruct (getitem x i) as [x_i|]; simpl; [|done].
  destruct (getitem x a) as [x_a|]; simpl; [|done].
  set (d := Z.min (Z.abs (Z.of_nat i - Z.of_nat a)) 5).
  set (t := Z.min (Z.abs (Markable.start_token x_i - Markable.end_token x_a))
                  10).
  pose proof (mention_key_not_token_key d t) as Hne.
  destruct (Z.ltb_spec 0 d) as [Hd|Hd], (Z.ltb_spec 0 t) as [Ht|Ht];
    intros [= <-]; simpl; rewrite ?decide_False by done;
    (split; [simpl; lia|]); intros k v Hin;
    repeat (apply elem_of_cons in Hin as [[= -> ->]|Hin];
            [split; [|done];
             first [apply mention_key_in_vocabulary; unfold d; lia
                   |apply token_key_in_vocabulary; unfold t; lia]|]);
    by apply elem_of_nil in Hin.
Qed.

(** The theorem at work on ["the dog"] and ["it"], one mention and two
    tokens apart. *)
Lemma distance_features_bounded_vocabulary_witness :
  length [("mention-distance-1", 1%Z); ("token-distance-2", 1%Z)] ≤ 2
  ∧ ∀ k v, (k, v) ∈ PyDict.items [("mention-distance-1", 1%Z);
                                  ("token-distance-2", 1%Z)] →
           k ∈ distance_vocabulary ∧ v = 1%Z.
Proof.
  apply (distance_features_bounded_vocabulary
           [the_dog 0 "e1"; it_ 3 "e1"] 0 1).
  by vm_compute.
Defined.

(** * Further properties of the scorer *)

(** What [forward] puts in the feature block, for positive features of
    the vocabulary, none of them twice: one slot per vocabulary feature;
    the slot of the feature found at position [j] of [pos_feats] holds the
    active embedding of index [j]; every slot of a feature that is not in
    [pos_feats] holds the inactive embedding of its own index. *)
Theorem feature_block_slot_contents (T : neural_net.Torch)
    (mark_embedding_dim : nat) (feat_set : list string)
    (feat_emb_dim hidden_dim : nat) (off_w on_w : nat → nat → Q)
    (net0 : neural_net.tensor → result Q) (pos_feats : list string) :
  let self :=
    neural_net.SequentialScorer_init mark_embedding_dim feat_set
      feat_emb_dim hidden_dim off_w on_w net0 in
  NoDup pos_feats → (∀ feat, feat ∈ pos_feats → feat ∈ feat_set) →
  ∃ block,
    neural_net.feature_block self pos_feats = Ok block
    ∧ length block = length feat_set
    ∧ (∀ j feat idx, pos_feats !! j = Some feat →
         neural_net.feat_to_idx self !! feat = Some idx →
         block !! idx = Some (map (on_w j) (seq 0 feat_emb_dim)))
    ∧ (∀ idx, idx < length feat_set →
         (∀ feat, feat ∈ pos_feats →
                  neural_net.feat_to_idx self !! feat ≠ Some idx) →
         block !! idx = Some (map (off_w idx) (seq 0 feat_emb_dim))).
Proof. apply feature_block_slots. Qed.

(** The theorem at work on the vocabulary of [minimal_features] and the
    positive features of two mentions of ["the dog"]. *)
Lemma feature_block_slot_contents_witness :
  ∃ block,
    neural_net.feature_block first_entry_scorer
      ["exact-match"; "last-token-match"; "content-match"] = Ok block
    ∧ length block = length minimal_vocabulary
    ∧ (∀ j feat idx,
         ["exact-match"; "last-token-match"; "content-match"] !! j
         = Some feat →
         neural_net.feat_to_idx first_entry_scorer !! feat = Some idx →
         block !! idx = Some (map (λ _, 0%Q) (seq 0 1)))
    ∧ (∀ idx, idx < length minimal_vocabulary →
         (∀ feat,
            feat ∈ ["exact-match"; "last-token-match"; "content-match"] →
            neural_net.feat_to_idx first_entry_scorer !! feat ≠ Some idx) →
         block !! idx = Some (map (λ _, 0%Q) (seq 0 1))).
Proof.
  apply (feature_block_slot_contents concrete.torch_vectors 2
           minimal_vocabulary 1 1 (λ _ _, 0%Q) (λ _ _, 0%Q) first_entry_net).
  - apply (bool_decide_unpack _). by vm_compute.
  - intros feat Hfeat. unfold minimal_vocabulary.
    repeat (apply elem_of_cons in Hfeat as [->|Hfeat];
            [apply (bool_decide_unpack _); by vm_compute|]).
    by apply elem_of_nil in Hfeat.
Defined.

Lemma get_pos_feats_spec (feats : coref_features.extractor)
    (markables : list Markable) (a i : nat) (d : PyDict.t Z) :
  feats markables a i = Ok d → PyDict.wf d →
  ∃ pos_feats,
    neural_net.get_pos_feats feats markables a i = Ok pos_feats
    ∧ NoDup pos_feats
    ∧ ∀ k, k ∈ pos_feats ↔ ∃ v, (k, v) ∈ PyDict.items d ∧ (0 < v)%Z.
Proof.
  intros Hd Hwf. unfold neural_net.get_pos_feats. rewrite Hd. simpl.
  eexists. split; [done|]. split.
  - unfold PyDict.wf, PyDict.keys, PyDict.items in *.
    clear Hd. induction d as [|[k v] d IH]; [constructor|].
    cbn in Hwf. apply NoDup_cons in Hwf as [Hout Hwf].
    rewrite filter_cons. case_decide; csimpl; [|by apply IH].
    apply NoDup_cons. split; [|by apply IH].
    intros ((k' & v') & -> & Hin%list_elem_of_filter)%list_elem_of_fmap.
    apply Hout. apply list_elem_of_fmap. exists (k', v'). split; [done|].
    by destruct Hin.
  - intros k. rewrite list_elem_of_fmap. split.
    + intros ((k' & v) & -> & [Hpos Hin]%list_elem_of_filter). by exists v.
    + intros (v & Hin & Hpos). exists (k, v). split; [done|].
      by apply list_elem_of_filter.
Qed.

(** When the vocabulary holds every name to which the feature function
    gives a positive value, the two loops of [forward] raise nothing and
    build a block with one slot per vocabulary feature: [forward] returns
    what the concatenation of PyTorch followed by the network returns, and
    an exception of [forward] is one that the concatenation raises, or one
    that the network raises on the concatenated input.  The concatenation
    can raise, [IndexError] included, see [forward_complete_vocabulary]. *)
Theorem forward_within_vocabulary (T : neural_net.Torch)
    (mark_embedding_dim : nat) (feat_set : list string)
    (feat_emb_dim hidden_dim : nat) (off_w on_w : nat → nat → Q)
    (net0 : neural_net.tensor → result Q)
    (feats : coref_features.extractor) (markables : list Markable)
    (a i : nat) (d : PyDict.t Z) (emb_i emb_a : neural_net.tensor) :
  let self :=
    neural_net.SequentialScorer_init mark_embedding_dim feat_set
      feat_emb_dim hidden_dim off_w on_w net0 in
  feats markables a i = Ok d → PyDict.wf d →
  (∀ k v, (k, v) ∈ PyDict.items d → (0 < v)%Z → k ∈ feat_set) →
  ∃ pos_feats block,
    neural_net.get_pos_feats feats markables a i = Ok pos_feats
    ∧ neural_net.feature_block self pos_feats = Ok block
    ∧ length block = length feat_set
    ∧ neural_net.forward self emb_i emb_a pos_feats
      = ((if decide (neural_net.shape0 emb_i = 1)
          then neural_net.cat_row emb_i emb_a block
          else neural_net.cat_flat emb_i emb_a block)
         ≫= neural_net.net self)
    ∧ ∀ e, neural_net.forward self emb_i emb_a pos_feats = Raise e →
        (if decide (neural_net.shape0 emb_i = 1)
         then neural_net.cat_row emb_i emb_a block
         else neural_net.cat_flat emb_i emb_a block) = Raise e
        ∨ ∃ input,
            (if decide (neural_net.shape0 emb_i = 1)
             then neural_net.cat_row emb_i emb_a block
             else neural_net.cat_flat emb_i emb_a block) = Ok input
            ∧ neural_net.net self input = Raise e.
Proof.
  intros self Hd Hwf Hvocab.
  destruct (get_pos_feats_spec feats markables a i d Hd Hwf)
    as (pos_feats & Hpos & Hnodup & Hin).
  destruct (feature_block_slots T mark_embedding_dim feat_set feat_emb_dim
              hidden_dim off_w on_w net0 pos_feats Hnodup)
    as (block & Hblock & Hlen & _).
  { intros feat (v & Hkv & Hv)%Hin. by eapply Hvocab. }
  exists pos_feats, block. split; [done|]. split; [done|]. split; [done|].
  unfold neural_net.forward. subst self. simpl in Hblock |- *.
  rewrite Hblock. simpl. split; [done|]. intros e.
  destruct (if decide (neural_net.shape0 emb_i = 1)
            then neural_net.cat_row emb_i emb_a block
            else neural_net.cat_flat emb_i emb_a block) as [input|e'];
    simpl.
  - intros He. right. by exists input.
  - intros [= ->]. by left.
Qed.

(** The theorem at work on [minimal_features] and its vocabulary. *)
Lemma forward_within_vocabulary_witness :
  ∃ pos_feats block,
    neural_net.get_pos_feats coref_features.minimal_features
      [the_dog 0 "e1"; the_dog 5 "e1"] 0 1 = Ok pos_feats
    ∧ neural_net.feature_block first_entry_scorer pos_feats = Ok block
    ∧ length block = length minimal_vocabulary
    ∧ neural_net.forward first_entry_scorer [3; 0]%Q [1; 0]%Q pos_feats
      = ((if decide (neural_net.shape0 [3; 0]%Q = 1)
          then neural_net.cat_row [3; 0]%Q [1; 0]%Q block
          else neural_net.cat_flat [3; 0]%Q [1; 0]%Q block)
         ≫= neural_net.net first_entry_scorer)
    ∧ ∀ e, neural_net.forward first_entry_scorer [3; 0]%Q [1; 0]%Q pos_feats
           = Raise e →
        (if decide (neural_net.shape0 [3; 0]%Q = 1)
         then neural_net.cat_row [3; 0]%Q [1; 0]%Q block
         else neural_net.cat_flat [3; 0]%Q [1; 0]%Q block) = Raise e
        ∨ ∃ input,
            (if decide (neural_net.shape0 [3; 0]%Q = 1)
             then neural_net.cat_row [3; 0]%Q [1; 0]%Q block
             else neural_net.cat_flat [3; 0]%Q [1; 0]%Q block) = Ok input
            ∧ neural_net.net first_entry_scorer input = Raise e.
Proof.
  apply (forward_within_vocabulary concrete.torch_vectors 2
           minimal_vocabulary 1 1 (λ _ _, 0%Q) (λ _ _, 0%Q) first_entry_net
           coref_features.minimal_features
           [the_dog 0 "e1"; the_dog 5 "e1"] 0 1
           [("exact-match", 1%Z); ("last-token-match", 1%Z);
            ("content-match", 1%Z)]).
  - by vm_compute.
  - apply (bool_decide_unpack _). by vm_compute.
  - intros k v Hin _. unfold PyDict.items in Hin.
    repeat (apply elem_of_cons in Hin as [[= -> ->]|Hin];
            [apply (bool_decide_unpack _); by vm_compute|]).
    by apply elem_of_nil in Hin.
Defined.

(** A vocabulary that holds every positive feature does not keep
    [forward] from raising [IndexError]: on one-dimensional embeddings with
    a single entry the block is concatenated along dimension 1, which a
    one-dimensional tensor does not have. *)
Example forward_complete_vocabulary :
  neural_net.get_pos_feats coref_features.minimal_features
    [the_dog 0 "e1"; the_dog 5 "e1"] 0 1
  = Ok ["exact-match"; "last-token-match"; "content-match"]
  ∧ neural_net.forward first_entry_scorer [3]%Q [1]%Q
      ["exact-match"; "last-token-match"; "content-match"]
    = Raise IndexError.
Proof. split; by vm_compute. Qed.

Lemma getitem_IndexError {A} (l : list A) i :
  length l ≤ i → getitem l i = Raise IndexError.
Proof. intros Hi. unfold getitem. by rewrite lookup_ge_None_2. Qed.

Lemma getitem_Ok_lt {A} (l : list A) i x : getitem l i = Ok x → i < length l.
Proof.
  unfold getitem. destruct (l !! i) eqn:Hl; [|done].
  intros _. by eapply lookup_lt_Some.
Qed.

(** [score_instance] for a mention [i] of the document needs the
    embedding of [i]: it raises [IndexError] when [doc_embs] is too short
    to have it, and when it returns it returns one score for each of the
    candidates [0..i], the mention itself included. *)
Theorem score_instance_shape (T : neural_net.Torch)
    (self : neural_net.SequentialScorer)
    (doc_embs : list neural_net.tensor) (markables : list Markable)
    (i : nat) (feats : coref_features.extractor) :
  i < length markables →
  (length doc_embs ≤ i →
   neural_net.score_instance self doc_embs markables i feats
   = Raise IndexError)
  ∧ (∀ scores,
       neural_net.score_instance self doc_embs markables i feats = Ok scores →
       length scores = i + 1 ∧ i < length doc_embs).
Proof.
  intros Hi. unfold neural_net.score_instance, enumerate.
  destruct (take (i + 1) markables) as [|m rest] eqn:Htake.
  { apply (f_equal length) in Htake. rewrite length_take in Htake.
    simpl in Htake. lia. }
  assert (length (m :: rest) = i + 1) as Hlen
    by (rewrite <- Htake, length_take; lia).
  split.
  - intros Hshort. simpl. by rewrite (getitem_IndexError doc_embs i Hshort).
  - intros scores Hscores. split.
    + apply mapM_length in Hscores.
      by rewrite Hscores, enumerate_from_length.
    + simpl in Hscores.
      destruct (getitem doc_embs i) eqn:Hemb; [|done].
      by eapply getitem_Ok_lt.
Qed.

(** The theorem at work on the third mention of the dog document. *)
Lemma score_instance_shape_witness :
  (length dog_embeddings ≤ 2 →
   neural_net.score_instance first_entry_scorer dog_embeddings dog_document
     2 coref_features.minimal_features = Raise IndexError)
  ∧ (∀ scores,
       neural_net.score_instance first_entry_scorer dog_embeddings
         dog_document 2 coref_features.minimal_features = Ok scores →
       length scores = 2 + 1 ∧ 2 < length dog_embeddings).
Proof.
  apply (score_instance_shape concrete.torch_vectors). simpl. lia.
Defined.

(** * Further properties of the learned resolver *)

(** On a document whose first markable carries an [entity] under which
    [emb_dict] holds nothing, the learned resolver raises [KeyError] for
    that entity, before anything is scored. *)
Theorem learned_resolver_unknown_document (T : neural_net.Torch)
    (argmax : list Q → result nat) (feats : coref_features.extractor)
    (emb_dict : gmap string (list neural_net.tensor))
    (scoring_model : neural_net.SequentialScorer)
    (markables : list Markable) (m_0 : Markable) :
  markables !! 0 = Some m_0 →
  emb_dict !! Markable.entity m_0 = None →
  neural_net.make_resolver argmax feats emb_dict scoring_model markables
  = Raise (KeyError (Markable.entity m_0)).
Proof.
  intros Hm_0 Hnone. unfold neural_net.make_resolver.
  destruct markables as [|m rest]; [done|]. simpl in Hm_0. simplify_eq.
  simpl. unfold neural_net.emb_dict_lookup. by rewrite Hnone.
Qed.

(** The theorem at work: a document of entity ["C"] after the documents of
    entities ["A"] and ["B"] were stored. *)
Lemma learned_resolver_unknown_document_witness :
  neural_net.make_resolver concrete.argmax coref_features.minimal_features
    two_documents first_entry_scorer [the_dog 0 "C"; it_ 3 "C"]
  = Raise (KeyError "C").
Proof.
  apply (learned_resolver_unknown_document concrete.torch_vectors
           concrete.argmax coref_features.minimal_features two_documents
           first_entry_scorer [the_dog 0 "C"; it_ 3 "C"] (the_dog 0 "C")).
  - reflexivity.
  - by vm_compute.
Defined.

Lemma mapM_lookup {A B} (f : A → result B) (l : list A) (r : list B) i y :
  mapM f l = Ok r → r !! i = Some y → ∃ x, l !! i = Some x ∧ f x = Ok y.
Proof.
  revert r i. induction l as [|x l IH]; intros r i; simpl.
  - intros [= <-]. by rewrite lookup_nil.
  - destruct (f x) as [y0|] eqn:Hfx; simpl; [|done].
    destruct (mapM f l) as [ys|] eqn:Hys; simpl; [|done].
    intros [= <-]. destruct i as [|i]; simpl.
    + intros [= <-]. by exists x.
    + intros Hy. by apply (IH ys).
Qed.

(** When [utils.argmax] returns an index of the tensor it is given, an
    assignment returned by the learned resolver has one entry per markable
    and links every mention to itself or to an earlier mention. *)
Theorem learned_resolver_links_backwards (T : neural_net.Torch)
    (argmax : list Q → result nat) (feats : coref_features.extractor)
    (emb_dict : gmap string (list neural_net.tensor))
    (scoring_model : neural_net.SequentialScorer)
    (markables : list Markable) (antecedents : list nat) :
  (∀ scores k, argmax scores = Ok k → k < length scores) →
  neural_net.make_resolver argmax feats emb_dict scoring_model markables
  = Ok antecedents →
  length antecedents = length markables
  ∧ ∀ i a, antecedents !! i = Some a → a ≤ i.
Proof.
  intros Hargmax Hrun. unfold neural_net.make_resolver in Hrun. split.
  - apply mapM_length in Hrun. by rewrite Hrun, length_seq.
  - intros i a Ha.
    destruct (mapM_lookup _ _ _ _ _ Hrun Ha) as (j & Hj & Hbody).
    apply lookup_seq in Hj as [-> Hi]. simpl in Hbody.
    destruct (getitem markables 0) as [m_0|]; simpl in Hbody; [|done].
    destruct (neural_net.emb_dict_lookup emb_dict (Markable.entity m_0))
      as [doc_embs|]; simpl in Hbody; [|done].
    destruct (neural_net.score_instance scoring_model doc_embs markables i
                feats) as [scores|] eqn:Hscores; simpl in Hbody; [|done].
    apply Hargmax in Hbody. apply mapM_length in Hscores.
    unfold enumerate in Hscores.
    rewrite enumerate_from_length, length_take in Hscores. lia.
Qed.

Lemma argmax_from_range best_index best index scores :
  best_index < index →
  concrete.argmax_from best_index best index scores < index + length scores.
Proof.
  revert best_index best index.
  induction scores as [|s scores IH]; intros best_index best index Hlt;
    simpl; [lia|].
  destruct (Qle_bool s best).
  - specialize (IH best_index best (S index)). lia.
  - specialize (IH index s (S index)). lia.
Qed.

(** The theorem at work on the first of the two documents. *)
Lemma learned_resolver_links_backwards_witness :
  length [0; 0] = length document_A
  ∧ ∀ i a, [0; 0] !! i = Some a → a ≤ i.
Proof.
  apply (learned_resolver_links_backwards concrete.torch_vectors
           concrete.argmax coref_features.minimal_features two_documents
           first_entry_scorer document_A [0; 0]).
  - intros [|s scores] k; simpl; [done|]. intros [= <-].
    pose proof (argmax_from_range 0 s 1 scores). lia.
  - by vm_compute.
Defined.

(** * Further properties of [evaluate] *)

Lemma fill_emb_dict_app (T : neural_net.Torch)
    (doc_lstm_model : list string → result (list neural_net.tensor))
    (attn_model : list neural_net.tensor → Markable
                  → result neural_net.tensor)
    (docs1 docs2 : list (list string * list Markable))
    (emb_dict : gmap string (list neural_net.tensor)) :
  neural_net.fill_emb_dict doc_lstm_model attn_model (docs1 ++ docs2) emb_dict
  = neural_net.fill_emb_dict doc_lstm_model attn_model docs1 emb_dict
    ≫= neural_net.fill_emb_dict doc_lstm_model attn_model docs2.
Proof.
  revert emb_dict.
  induction docs1 as [|[words marks] docs1 IH]; intros emb_dict; simpl;
    [done|].
  destruct (doc_lstm_model words) as [base_embs|]; simpl; [|done].
  destruct (mapM (attn_model base_embs) marks) as [att_embs|]; simpl;
    [|done].
  destruct (getitem marks 0) as [m_0|]; simpl; [|done].
  apply IH.
Qed.

Lemma fill_emb_dict_other_keys (T : neural_net.Torch)
    (doc_lstm_model : list string → result (list neural_net.tensor))
    (attn_model : list neural_net.tensor → Markable
                  → result neural_net.tensor)
    (docs : list (list string * list Markable))
    (emb_dict emb_dict' : gmap string (list neural_net.tensor))
    (key : string) :
  neural_net.fill_emb_dict doc_lstm_model attn_model docs emb_dict
  = Ok emb_dict' →
  (∀ words marks m, (words, marks) ∈ docs → marks !! 0 = Some m →
                    Markable.entity m ≠ key) →
  emb_dict' !! key = emb_dict !! key.
Proof.
  revert emb_dict.
  induction docs as [|[words marks] docs IH]; intros emb_dict; simpl.
  - by intros [= <-].
  - destruct (doc_lstm_model words) as [base_embs|]; simpl; [|done].
    destruct (mapM (attn_model base_embs) marks) as [att_embs|]; simpl;
      [|done].
    unfold getitem.
    destruct (marks !! 0) as [m_0|] eqn:Hm_0; simpl; [|done].
    intros Hrun Hother. rewrite (IH _ Hrun).
    + apply lookup_insert_ne. apply (Hother words marks); [left|done].
    + intros ws ms m Hin. apply (Hother ws ms). by right.
Qed.

(** [evaluate] stores the embeddings of a document under the [entity] of
    its first markable, so the last document stored under a key wins: the
    embeddings that an earlier document with the same first [entity] had
    there are replaced. *)
Theorem evaluate_last_document_wins (T : neural_net.Torch)
    (doc_lstm_model : list string → result (list neural_net.tensor))
    (attn_model : list neural_net.tensor → Markable
                  → result neural_net.tensor)
    (before after : list (list string * list Markable))
    (words : list string) (marks : list Markable) (m_0 : Markable)
    (emb_dict emb_dict' : gmap string (list neural_net.tensor)) :
  neural_net.fill_emb_dict doc_lstm_model attn_model
    (before ++ (words, marks) :: after) emb_dict = Ok emb_dict' →
  marks !! 0 = Some m_0 →
  (∀ ws ms m, (ws, ms) ∈ after → ms !! 0 = Some m →
              Markable.entity m ≠ Markable.entity m_0) →
  ∃ base_embs att_embs,
    doc_lstm_model words = Ok base_embs
    ∧ mapM (attn_model base_embs) marks = Ok att_embs
    ∧ emb_dict' !! Markable.entity m_0 = Some att_embs.
Proof.
  intros Hrun Hm_0 Hafter. rewrite fill_emb_dict_app in Hrun.
  destruct (neural_net.fill_emb_dict doc_lstm_model attn_model before
              emb_dict) as [emb_dict1|]; simpl in Hrun; [|done].
  destruct (doc_lstm_model words) as [base_embs|]; simpl in Hrun; [|done].
  destruct (mapM (attn_model base_embs) marks) as [att_embs|] eqn:Hatt;
    simpl in Hrun; [|done].
  rewrite (getitem_Ok _ _ _ Hm_0) in Hrun. simpl in Hrun.
  exists base_embs, att_embs. split; [done|]. split; [done|].
  rewrite (fill_emb_dict_other_keys T _ _ _ _ _ _ Hrun Hafter).
  apply lookup_insert_eq.
Qed.

(** The theorem at work: two documents whose first markables are both of
    entity ["A"]. *)
Lemma evaluate_last_document_wins_witness :
  ∃ base_embs att_embs,
    no_word_embeddings ["it"; "saw"; "the"; "dog"] = Ok base_embs
    ∧ mapM (token_count_embedding base_embs) [it_ 0 "A"; the_dog 2 "A"]
      = Ok att_embs
    ∧ ({["A" := [[1; 0]; [2; 0]]%Q]} : gmap string (list (list Q)))
      !! Markable.entity (it_ 0 "A") = Some att_embs.
Proof.
  apply (evaluate_last_document_wins concrete.torch_vectors
           no_word_embeddings token_count_embedding
           [(["the"; "dog"; "saw"; "it"], document_A)] []
           ["it"; "saw"; "the"; "dog"] [it_ 0 "A"; the_dog 2 "A"]
           (it_ 0 "A") ∅).
  - by vm_compute.
  - reflexivity.
  - intros ws ms m Hin. by apply elem_of_nil in Hin.
Defined.

(** [evaluate] reads [marks[0]] of every document: a dataset that holds a
    document without markables makes it raise [IndexError] when that
    document is reached, and no resolver is returned. *)
Theorem evaluate_raises_on_empty_document (T : neural_net.Torch)
    (eval_on_dataset : (list Markable → result (list nat))
                       → list (list Markable) → result unit)
    (argmax : list Q → result nat)
    (doc_lstm_model : list string → result (list neural_net.tensor))
    (attn_model : list neural_net.tensor → Markable
                  → result neural_net.tensor)
    (scoring_model : neural_net.SequentialScorer)
    (feats : coref_features.extractor)
    (words_before words_after : list (list string)) (words : list string)
    (marks_before marks_after : list (list Markable))
    (emb_dict : gmap string (list neural_net.tensor)) :
  length words_before = length marks_before →
  neural_net.fill_emb_dict doc_lstm_model attn_model
    (zip words_before marks_before) ∅ = Ok emb_dict →
  is_Ok (doc_lstm_model words) →
  neural_net.evaluate eval_on_dataset argmax doc_lstm_model attn_model
    scoring_model (words_before ++ words :: words_after)
    (marks_before ++ [] :: marks_after) feats
  = Raise IndexError.
Proof.
  intros Hlen Hbefore [base_embs Hbase]. unfold neural_net.evaluate.
  rewrite zip_with_app by done. simpl.
  rewrite fill_emb_dict_app, Hbefore. simpl. by rewrite Hbase.
Qed.

(** The theorem at work: an empty document after the first of the two
    documents. *)
Lemma evaluate_raises_on_empty_document_witness :
  neural_net.evaluate (λ _ _, Ok ()) concrete.argmax no_word_embeddings
    token_count_embedding first_entry_scorer
    ([["the"; "dog"; "saw"; "it"]] ++ [] :: [])
    ([document_A] ++ [] :: []) coref_features.minimal_features
  = Raise IndexError.
Proof.
  apply (evaluate_raises_on_empty_document concrete.torch_vectors
           (λ _ _, Ok ()) concrete.argmax no_word_embeddings
           token_count_embedding first_entry_scorer
           coref_features.minimal_features
           [["the"; "dog"; "saw"; "it"]] [] [] [document_A] []
           ({["A" := [[2; 0]; [1; 0]]%Q]})).
  - reflexivity.
  - by vm_compute.
  - by eexists.
Defined.

(** * Further properties of the training loss *)

Lemma accumulate_loss_new_entities (T : neural_net.Torch)
    (scoring_model : neural_net.SequentialScorer)
    (att_embs : list neural_net.tensor) (marks : list Markable)
    (true_ants : list nat) (feats : coref_features.extractor) (margin : Q)
    (indices : list nat) (loss : spec_float) :
  (∀ i, i ∈ indices → true_ants !! i = Some i) →
  neural_net.accumulate_loss scoring_model att_embs marks true_ants feats
    margin indices loss = Ok loss.
Proof.
  induction indices as [|i indices IH]; intros Hself; simpl; [done|].
  rewrite (getitem_Ok _ _ _ (Hself i ltac:(left))). simpl.
  unfold neural_net.instance_top_scores.
  rewrite (bool_decide_eq_true_2 (i = i)) by done.
  rewrite orb_true_r. simpl. apply IH. intros j Hj. apply Hself. by right.
Qed.

(** A document in which every kept mention starts a new entity (the oracle
    gives each mention itself as gold antecedent) has loss 0, and the
    scorer and the feature function are not called for it. *)
Theorem document_loss_all_new_entities (T : neural_net.Torch)
    (get_true_antecedents : list Markable → result (list nat))
    (doc_lstm_model : list string → result (list neural_net.tensor))
    (attn_model : list neural_net.tensor → Markable
                  → result neural_net.tensor)
    (scoring_model : neural_net.SequentialScorer)
    (feats : coref_features.extractor) (word_limit : nat) (margin : Q)
    (words : list string) (marks : list Markable)
    (base_embs att_embs : list neural_net.tensor) :
  let kept :=
    filter (λ m, (Markable.end_token m < Z.of_nat word_limit)%Z) marks in
  doc_lstm_model (take word_limit words) = Ok base_embs →
  mapM (attn_model base_embs) kept = Ok att_embs →
  get_true_antecedents kept = Ok (seq 0 (length kept)) →
  neural_net.document_loss get_true_antecedents doc_lstm_model attn_model
    scoring_model feats word_limit margin words marks = Ok float32.zero.
Proof.
  intros kept Hbase Hatt Hants. unfold neural_net.document_loss.
  rewrite Hbase. simpl. fold kept. rewrite Hatt. simpl.
  rewrite Hants. simpl.
  apply accumulate_loss_new_entities.
  intros i Hi%elem_of_seq. apply lookup_seq_lt. lia.
Qed.

(** The theorem at work: three mentions of three entities, and a feature
    function that raises whenever it is called. *)
Lemma document_loss_all_new_entities_witness :
  neural_net.document_loss concrete.get_true_antecedents no_word_embeddings
    start_token_embedding first_entry_scorer failing_features 10 1
    ["the"; "dog"; "barked"; "it"; "ran"; "the"; "dog"]
    [the_dog 0 "A"; it_ 3 "B"; the_dog 5 "C"] = Ok float32.zero.
Proof.
  apply (document_loss_all_new_entities concrete.torch_vectors
           concrete.get_true_antecedents no_word_embeddings
           start_token_embedding first_entry_scorer failing_features 10 1
           ["the"; "dog"; "barked"; "it"; "ran"; "the"; "dog"]
           [the_dog 0 "A"; it_ 3 "B"; the_dog 5 "C"]
           [] [[0; 0]; [3; 0]; [5; 0]]%Q).
  - reflexivity.
  - by vm_compute.
  - by vm_compute.
Defined.

Lemma sum_hinge_zero_iff margin (terms : list (Q * Q)) (loss : spec_float) :
  nan_or_positive loss →
  exponent_bounded float32.prec float32.emax loss →
  fold_left (λ acc '(max_t, max_f),
               float32.add acc (hinge margin max_t max_f)) terms loss
  = float32.zero
  ↔ loss = float32.zero
    ∧ Forall (λ '(max_t, max_f),
                float32.leb (neural_net.marg margin max_t max_f)
                            float32.zero = true) terms.
Proof.
  revert loss. induction terms as [|[t f] terms IH];
    intros loss Hpos Hb; simpl.
  - split; [intros Hz; by split|by intros [Hz _]].
  - pose proof (hinge_nan_or_positive margin t f) as Hh.
    pose proof (hinge_bounded margin t f) as Hhb.
    pose proof (SFadd_nan_or_positive float32.prec float32.emax
                  float32_prec_pos loss (hinge margin t f) Hpos Hh) as Hsum.
    pose proof (SFadd_zero_iff float32.prec float32.emax float32_prec_pos
                  loss (hinge margin t f) Hpos Hh Hb Hhb) as Hzero.
    rewrite IH by
      (done || by apply (SFadd_bounded _ _ float32_prec_pos)).
    rewrite Forall_cons, <- hinge_zero_iff.
    rewrite <- (nan_or_positive_zero _ Hsum), <- (nan_or_positive_zero _ Hpos),
      <- (nan_or_positive_zero _ Hh).
    unfold float32.add. rewrite Hzero, andb_true_iff. tauto.
Qed.

(** The loss accumulated over the mentions of a document is zero exactly
    when, for every eligible mention, the margin term
    [margin - best_true_score + best_false_score], as [float32] rounds it,
    is at most zero: the sum of hinge terms that are not all zero is not
    zero, and no margin term that is NaN goes unnoticed. *)
Theorem accumulated_loss_zero_iff_margins_met (T : neural_net.Torch)
    (scoring_model : neural_net.SequentialScorer)
    (att_embs : list neural_net.tensor) (marks : list Markable)
    (true_ants : list nat) (feats : coref_features.extractor) (margin : Q)
    (indices : list nat) (l : spec_float) :
  neural_net.accumulate_loss scoring_model att_embs marks true_ants feats
    margin indices float32.zero = Ok l →
  l = float32.zero
  ↔ Forall (λ '(max_t, max_f),
              float32.leb (neural_net.marg margin max_t max_f) float32.zero
              = true)
           (eligible_scores scoring_model att_embs marks true_ants feats
                            indices).
Proof.
  intros Hrun%accumulate_loss_sum. rewrite Hrun.
  rewrite sum_hinge_zero_iff; [|by right|done].
  split; [by intros [_ ?]|by split].
Qed.

(** The theorem at work on the dog document, where the best false score,
    3, exceeds the best true score, 0: with margin -3 the loss is 0. *)
Lemma accumulated_loss_zero_iff_margins_met_witness :
  float32.zero = float32.zero
  ↔ Forall (λ '(max_t, max_f),
              float32.leb (neural_net.marg (-3) max_t max_f) float32.zero
              = true)
           (eligible_scores first_entry_scorer [[0; 0]; [3; 0]; [5; 0]]%Q
              dog_document [0; 1; 0] coref_features.minimal_features
              [0; 1; 2]).
Proof.
  apply (accumulated_loss_zero_iff_margins_met concrete.torch_vectors
           first_entry_scorer [[0; 0]; [3; 0]; [5; 0]]%Q dog_document
           [0; 1; 0] coref_features.minimal_features (-3) [0; 1; 2]
           float32.zero).
  by vm_compute.
Defined.

(** Rounding at work: with the scores [2^24] for the best true and the
    best false candidate and the margin [1/2], the best true score does not
    exceed the best false one by the margin, and the loss is zero all the
    same: [1/2 - 2^24] is rounded to [- 2^24]. *)
Example accumulated_loss_rounds_margin_away :
  eligible_scores first_entry_scorer
    [[16777216; 0]; [16777216; 0]; [5; 0]]%Q dog_document [0; 1; 0]
    coref_features.minimal_features [0; 1; 2]
  = [(16777216%Q, 16777216%Q)]
  ∧ ((1 # 2) - 16777216 + 16777216 == 1 # 2)%Q
  ∧ neural_net.marg (1 # 2) 16777216 16777216 = float32.zero
  ∧ neural_net.accumulate_loss first_entry_scorer
      [[16777216; 0]; [16777216; 0]; [5; 0]]%Q dog_document [0; 1; 0]
      coref_features.minimal_features (1 # 2) [0; 1; 2] float32.zero
    = Ok float32.zero.
Proof. repeat split; by vm_compute. Qed.

(** * The embedding producers *)

Lemma mapM_Ok_map {A B} (f : A → result B) (g : A → B) (l : list A) :
  (∀ x, x ∈ l → f x = Ok (g x)) → mapM f l = Ok (map g l).
Proof.
  induction l as [|x l IH]; intros Hfg; simpl; [done|].
  rewrite (Hfg x) by left. simpl. rewrite IH; [done|].
  intros y Hy. apply Hfg. by right.
Qed.

Lemma mapM_first_raise {A B} (f : A → result B) (before after : list A)
    (x : A) (e : exn) :
  (∀ y, y ∈ before → is_Ok (f y)) → f x = Raise e →
  mapM f (before ++ x :: after) = Raise e.
Proof.
  intros Hbefore Hx. induction before as [|y before IH]; simpl.
  - by rewrite Hx.
  - destruct (Hbefore y) as [z ->]; [left|]. simpl.
    rewrite IH; [done|]. intros y' Hy'. apply Hbefore. by right.
Qed.

(** [BiLSTMWordEmbedding.forward] looks every word up in [word_to_ix]:
    it raises on an empty document; it raises [KeyError] for the first word
    that is not in [word_to_ix], when the words before it have indices
    within the embedding table; and when every word has such an index, the
    recurrent network receives one row of the table per word, in the order
    of the document. *)
Theorem BiLSTM_forward_cases (T : neural_net.Torch)
    (word_to_ix : gmap string nat) (word_embedding_dim : nat)
    (w : nat → nat → Q)
    (lstm0 : list (list Q) → result (list neural_net.tensor)) :
  let self :=
    neural_net.BiLSTMWordEmbedding_init word_to_ix word_embedding_dim w
      lstm0 in
  let known word :=
    ∃ ix, word_to_ix !! word = Some ix ∧ ix < size word_to_ix in
  (∃ e, neural_net.BiLSTMWordEmbedding_forward self [] = Raise e)
  ∧ (∀ before word after,
       (∀ word', word' ∈ before → known word') →
       word_to_ix !! word = None →
       neural_net.BiLSTMWordEmbedding_forward self
         (before ++ word :: after) = Raise (KeyError word))
  ∧ (∀ document,
       document ≠ [] → (∀ word, word ∈ document → known word) →
       neural_net.BiLSTMWordEmbedding_forward self document
       = lstm0 (map (λ word, map (w (default 0 (word_to_ix !! word)))
                                 (seq 0 word_embedding_dim)) document)).
Proof.
  intros self known.
  assert (∀ word, known word →
            neural_net.word_embedding self word
            = Ok (map (w (default 0 (word_to_ix !! word)))
                      (seq 0 word_embedding_dim))) as Hknown.
  { intros word (ix & Hix & Hlt). unfold neural_net.word_embedding. simpl.
    rewrite Hix. simpl. unfold neural_net.embedding_lookup.
    apply getitem_Ok. by apply Embedding_lookup. }
  split; [by eexists|]. split.
  - intros before word after Hbefore Hnone.
    unfold neural_net.BiLSTMWordEmbedding_forward.
    rewrite (mapM_first_raise _ _ _ _ (KeyError word)); [done| |].
    + intros word' Hin. eexists. by apply Hknown, Hbefore.
    + unfold neural_net.word_embedding. simpl. by rewrite Hnone.
  - intros document Hne Hall.
    unfold neural_net.BiLSTMWordEmbedding_forward.
    rewrite (mapM_Ok_map _ (λ word, map (w (default 0 (word_to_ix !! word)))
                                      (seq 0 word_embedding_dim))).
    + simpl. by destruct document.
    + intros word Hin. by apply Hknown, Hall.
Qed.

Example BiLSTM_forward_three_words :
  neural_net.BiLSTMWordEmbedding_forward three_words_embedding
    ["the"; "dog"] = Ok [[10; 11]; [20; 21]]%Q
  ∧ neural_net.BiLSTMWordEmbedding_forward three_words_embedding
      ["the"; "cat"; "bird"] = Raise (KeyError "cat")
  ∧ neural_net.BiLSTMWordEmbedding_forward three_words_embedding []
    = Raise RuntimeError.
Proof. repeat split; by vm_compute. Qed.

Lemma py_slice_nonneg {A} (l : list A) (start stop : Z) :
  (0 ≤ start)%Z → (0 ≤ stop)%Z →
  py_slice l start stop
  = take (Z.to_nat stop - Z.to_nat start) (drop (Z.to_nat start) l).
Proof.
  intros Hstart Hstop. unfold py_slice, slice_index.
  rewrite !(proj2 (Z.ltb_ge _ _)) by done.
  set (s := Z.to_nat start). set (e := Z.to_nat stop).
  destruct (decide (s ≤ length l)) as [Hs|Hs].
  - rewrite (Nat.min_l s) by done.
    destruct (decide (e ≤ length l)) as [He|He].
    + by rewrite (Nat.min_l e).
    + rewrite (Nat.min_r e) by lia.
      rewrite !take_ge; [done|rewrite length_drop; lia..].
  - rewrite (Nat.min_r s) by lia.
    rewrite !drop_ge by lia. by rewrite !take_nil.
Qed.

(** [AttentionBasedMarkableEmbedding.forward] reads the word embeddings
    at the positions [start_token <= p < end_token] and no other (the
    position [end_token] itself is not read): for non-negative bounds, two
    lists of word embeddings that agree at these positions give the same
    result, and a markable with [end_token <= start_token], or one that
    starts beyond the last word, makes it raise. *)
Theorem attention_reads_half_open_span (T : neural_net.Torch)
    (attend : list neural_net.tensor → result neural_net.tensor)
    (markable : Markable) :
  (0 ≤ Markable.start_token markable)%Z →
  (0 ≤ Markable.end_token markable)%Z →
  (∀ embeddings embeddings' : list neural_net.tensor,
     (∀ p : nat, (Markable.start_token markable ≤ Z.of_nat p
                  < Markable.end_token markable)%Z →
                 embeddings !! p = embeddings' !! p) →
     neural_net.AttentionBasedMarkableEmbedding_forward attend embeddings
       markable
     = neural_net.AttentionBasedMarkableEmbedding_forward attend embeddings'
         markable)
  ∧ (∀ embeddings : list neural_net.tensor,
       (Markable.end_token markable ≤ Markable.start_token markable)%Z
       ∨ (Z.of_nat (length embeddings) ≤ Markable.start_token markable)%Z →
       ∃ e, neural_net.AttentionBasedMarkableEmbedding_forward attend
              embeddings markable = Raise e).
Proof.
  intros Hstart Hstop.
  unfold neural_net.AttentionBasedMarkableEmbedding_forward. split.
  - intros embeddings embeddings' Hagree.
    rewrite !py_slice_nonneg by done.
    set (s := Z.to_nat (Markable.start_token markable)).
    set (n := Z.to_nat (Markable.end_token markable) - s).
    assert (take n (drop s embeddings) = take n (drop s embeddings')) as ->;
      [|done].
    apply list_eq. intros k.
    destruct (decide (k < n)) as [Hk|Hk].
    + rewrite !lookup_take_lt, !lookup_drop by done.
      apply Hagree. unfold n, s in *. lia.
    + by rewrite !lookup_take_ge by lia.
  - intros embeddings Hempty. rewrite py_slice_nonneg by done.
    assert (take (Z.to_nat (Markable.end_token markable)
                  - Z.to_nat (Markable.start_token markable))
                 (drop (Z.to_nat (Markable.start_token markable)) embeddings)
            = []) as ->; [|by eexists].
    destruct Hempty as [Hle|Hbeyond].
    + replace (Z.to_nat (Markable.end_token markable)
               - Z.to_nat (Markable.start_token markable)) with 0 by lia.
      done.
    + rewrite drop_ge by lia. apply take_nil.
Qed.

(** The theorem at work on the mention ["the dog"] at tokens 0 and 1. *)
Lemma attention_reads_half_open_span_witness :
  (∀ embeddings embeddings' : list (list Q),
     (∀ p : nat, (Markable.start_token (the_dog 0 "e1") ≤ Z.of_nat p
                  < Markable.end_token (the_dog 0 "e1"))%Z →
                 embeddings !! p = embeddings' !! p) →
     neural_net.AttentionBasedMarkableEmbedding_forward first_of_span
       embeddings (the_dog 0 "e1")
     = neural_net.AttentionBasedMarkableEmbedding_forward first_of_span
         embeddings' (the_dog 0 "e1"))
  ∧ (∀ embeddings : list (list Q),
       (Markable.end_token (the_dog 0 "e1")
        ≤ Markable.start_token (the_dog 0 "e1"))%Z
       ∨ (Z.of_nat (length embeddings)
          ≤ Markable.start_token (the_dog 0 "e1"))%Z →
       ∃ e, neural_net.AttentionBasedMarkableEmbedding_forward first_of_span
              embeddings (the_dog 0 "e1") = Raise e).
Proof.
  apply (attention_reads_half_open_span concrete.torch_vectors first_of_span
           (the_dog 0 "e1")); simpl; lia.
Defined.

Example attention_on_the_dog_and_it :
  neural_net.AttentionBasedMarkableEmbedding_forward
    (H:=concrete.torch_vectors) (λ span : list (list Q), Ok (concat span))
    [[1]; [2]; [3]; [4]]%Q (the_dog 1 "e1") = Ok [2%Q]
  ∧ neural_net.AttentionBasedMarkableEmbedding_forward first_of_span
      [[1]; [2]; [3]; [4]]%Q (it_ 3 "e1") = Raise RuntimeError.
Proof. split; by vm_compute. Qed.

(** * Nested unions of feature functions *)

Lemma PyDict_setitem_absent {V} (d : PyDict.t V) k v :
  k ∉ PyDict.keys d → PyDict.setitem k v d = d ++ [(k, v)].
Proof.
  unfold PyDict.keys. induction d as [|[k0 v0] d IH]; csimpl; [done|].
  intros [Hne Hout]%not_elem_of_cons.
  rewrite decide_False by congruence. by rewrite IH.
Qed.

Lemma PyDict_setitem_setitem {V} (d : PyDict.t V) k v v0 :
  PyDict.setitem k v (PyDict.setitem k v0 d) = PyDict.setitem k v d.
Proof.
  induction d as [|[k1 v1] d IH]; simpl.
  - by rewrite decide_True.
  - destruct (decide (k1 = k)) as [->|Hne]; simpl.
    + by rewrite decide_True.
    + rewrite decide_False by done. by rewrite IH.
Qed.

Lemma PyDict_setitem_comm {V} (d : PyDict.t V) k v k1 v1 :
  k ≠ k1 → k ∈ PyDict.keys d →
  PyDict.setitem k v (PyDict.setitem k1 v1 d)
  = PyDict.setitem k1 v1 (PyDict.setitem k v d).
Proof.
  unfold PyDict.keys. intros Hne.
  induction d as [|[k0 v0] d IH]; csimpl.
  - intros Hin. by apply elem_of_nil in Hin.
  - intros Hin. destruct (decide (k0 = k1)) as [->|Hne1].
    + rewrite (decide_False (P:=k1 = k)) by congruence. simpl.
      rewrite decide_False by congruence. by rewrite decide_True.
    + destruct (decide (k0 = k)) as [->|Hne0]; simpl.
      * rewrite decide_True by done. by rewrite decide_False by done.
      * rewrite !decide_False by done. f_equal. apply IH.
        apply elem_of_cons in Hin as [?|?]; [congruence|done].
Qed.

Lemma PyDict_keys_setitem_mono {V} (d : PyDict.t V) k v k' :
  k' ∈ PyDict.keys d → k' ∈ PyDict.keys (PyDict.setitem k v d).
Proof.
  intros Hin. rewrite PyDict_keys_setitem. case_decide; [done|].
  apply elem_of_app. by left.
Qed.

Lemma PyDict_setitem_update_comm {V} (d other : PyDict.t V) k v :
  k ∈ PyDict.keys d → k ∉ PyDict.keys other →
  PyDict.setitem k v (PyDict.update d other)
  = PyDict.update (PyDict.setitem k v d) other.
Proof.
  unfold PyDict.update. revert d.
  induction other as [|[k1 v1] other IH]; intros d Hin Hout; csimpl; [done|].
  unfold PyDict.keys in Hout. cbn in Hout.
  apply not_elem_of_cons in Hout as [Hne Hout].
  rewrite IH; [|by apply PyDict_keys_setitem_mono|done].
  by rewrite PyDict_setitem_comm.
Qed.

Lemma PyDict_update_setitem {V} (d other : PyDict.t V) k v :
  PyDict.wf other →
  PyDict.update d (PyDict.setitem k v other)
  = PyDict.setitem k v (PyDict.update d other).
Proof.
  intros Hwf. destruct (decide (k ∈ PyDict.keys other)) as [Hin|Hout].
  - revert d. unfold PyDict.wf, PyDict.keys in *.
    induction other as [|[k0 v0] other IH]; intros d.
    { by apply elem_of_nil in Hin. }
    cbn in Hwf, Hin. apply NoDup_cons in Hwf as [Hfresh Hwf]. simpl.
    destruct (decide (k0 = k)) as [->|Hne].
    + unfold PyDict.update. simpl.
      change (fold_left _ other ?acc) with (PyDict.update acc other).
      rewrite PyDict_setitem_update_comm.
      * by rewrite PyDict_setitem_setitem.
      * rewrite PyDict_keys_setitem. case_decide; [done|].
        apply elem_of_app. right. left.
      * done.
    + apply elem_of_cons in Hin as [?|Hin]; [congruence|].
      unfold PyDict.update. simpl. apply (IH Hwf Hin).
  - rewrite PyDict_setitem_absent by done.
    unfold PyDict.update. by rewrite fold_left_app.
Qed.

Lemma PyDict_update_assoc {V} (d g other : PyDict.t V) :
  PyDict.wf g →
  PyDict.update d (PyDict.update g other)
  = PyDict.update (PyDict.update d g) other.
Proof.
  revert g. induction other as [|[k v] other IH]; intros g Hwf; [done|].
  change (PyDict.update g ((k, v) :: other))
    with (PyDict.update (PyDict.setitem k v g) other).
  change (PyDict.update (PyDict.update d g) ((k, v) :: other))
    with (PyDict.update (PyDict.setitem k v (PyDict.update d g)) other).
  rewrite IH by by apply PyDict_wf_setitem.
  by rewrite PyDict_update_setitem.
Qed.

Lemma PyDict_update_empty {V} (d : PyDict.t V) :
  PyDict.wf d → PyDict.update PyDict.empty d = d.
Proof.
  intros Hwf.
  assert (∀ acc : PyDict.t V,
            NoDup (PyDict.keys acc ++ PyDict.keys d) →
            PyDict.update acc d = acc ++ d) as Hgen.
  { clear Hwf. unfold PyDict.update, PyDict.keys.
    induction d as [|[k v] d IH]; intros acc Hnodup; csimpl.
    - by rewrite app_nil_r.
    - cbn in Hnodup. rewrite PyDict_setitem_absent.
      + rewrite IH; [by rewrite <- app_assoc|].
        rewrite fmap_app. csimpl. by rewrite <- app_assoc.
      + apply NoDup_app in Hnodup as (_ & Hdisj & _).
        intros Hin. apply (Hdisj k Hin). left. }
  apply (Hgen []). done.
Qed.

Lemma union_loop_app (fs1 fs2 : list coref_features.extractor)
    (x : list Markable) (a i : nat) (f0 : PyDict.t Z) :
  coref_features.union_loop (fs1 ++ fs2) x a i f0
  = coref_features.union_loop fs1 x a i f0
    ≫= coref_features.union_loop fs2 x a i.
Proof.
  revert f0. induction fs1 as [|ff fs1 IH]; intros f0; simpl; [done|].
  destruct (ff x a i); simpl; [apply IH|done].
Qed.

Lemma union_loop_wf (fs : list coref_features.extractor)
    (x : list Markable) (a i : nat) (f0 f : PyDict.t Z) :
  Forall (λ ff, ∀ d, ff x a i = Ok d → PyDict.wf d) fs →
  PyDict.wf f0 → coref_features.union_loop fs x a i f0 = Ok f →
  PyDict.wf f.
Proof.
  intros Hall. revert f0.
  induction Hall as [|ff fs Hff _ IH]; intros f0 Hwf; simpl.
  - by intros [= <-].
  - destruct (ff x a i) as [d|]; simpl; [|done].
    apply IH. by apply PyDict_wf_update.
Qed.

Lemma union_loop_shift (fs : list coref_features.extractor)
    (x : list Markable) (a i : nat) (f0 : PyDict.t Z) :
  Forall (λ ff, ∀ d, ff x a i = Ok d → PyDict.wf d) fs →
  coref_features.union_loop fs x a i f0
  = coref_features.union_loop fs x a i PyDict.empty
    ≫= λ u, Ok (PyDict.update f0 u).
Proof.
  intros Hall. revert f0.
  induction Hall as [|ff fs Hff _ IH]; intros f0; simpl; [done|].
  destruct (ff x a i) as [d|] eqn:Hd; simpl; [|done].
  rewrite (IH (PyDict.update f0 d)), (IH (PyDict.update PyDict.empty d)).
  rewrite PyDict_update_empty by by apply Hff.
  destruct (coref_features.union_loop fs x a i PyDict.empty) as [u|];
    simpl; [|done].
  f_equal. symmetry. apply PyDict_update_assoc. by apply Hff.
Qed.

(** Unions of feature functions can be nested: when the members return
    dictionaries, the union of two unions gives, on every input, the same
    dictionary (keys in the same order) or the same exception as the union
    of the two lists put end to end. *)
Theorem make_feature_union_nested
    (fs1 fs2 : list coref_features.extractor)
    (x : list Markable) (a i : nat) :
  Forall (λ ff, ∀ d, ff x a i = Ok d → PyDict.wf d) (fs1 ++ fs2) →
  coref_features.make_feature_union
    [coref_features.make_feature_union fs1;
     coref_features.make_feature_union fs2] x a i
  = coref_features.make_feature_union (fs1 ++ fs2) x a i.
Proof.
  intros [Hall1 Hall2]%Forall_app.
  unfold coref_features.make_feature_union. simpl.
  rewrite union_loop_app.
  destruct (coref_features.union_loop fs1 x a i PyDict.empty) as [d1|]
    eqn:Hd1; simpl; [|done].
  rewrite PyDict_update_empty
    by (apply (union_loop_wf fs1 x a i PyDict.empty d1 Hall1);
        [apply NoDup_nil_2|done]).
  rewrite (union_loop_shift fs2 x a i d1) by done.
  by destruct (coref_features.union_loop fs2 x a i PyDict.empty).
Qed.

(** The theorem at work on three feature functions, two of them nested in
    a union of their own. *)
Lemma make_feature_union_nested_witness :
  coref_features.make_feature_union
    [coref_features.make_feature_union
       [coref_features.minimal_features; crossover_twice];
     coref_features.make_feature_union
       [coref_features.distance_features_default]]
    [the_dog 0 "A"; it_ 1 "A"] 0 1
  = coref_features.make_feature_union
      ([coref_features.minimal_features; crossover_twice]
       ++ [coref_features.distance_features_default])
      [the_dog 0 "A"; it_ 1 "A"] 0 1.
Proof.
  apply make_feature_union_nested.
  repeat (apply Forall_cons_2;
          [intros d Hd; vm_compute in Hd; simplify_eq;
           apply (bool_decide_unpack _); by vm_compute|]).
  apply Forall_nil_2.
Defined.

(** A member that raises, after one that returns: the union raises the
    exception of the member, and the members after it are not called. *)
Lemma make_feature_union_raises_witness :
  coref_features.make_feature_union
    ([coref_features.minimal_features]
     ++ failing_features :: [coref_features.distance_features_default])
    [the_dog 0 "A"; it_ 1 "A"] 0 1
  = Raise RuntimeError.
Proof.
  apply (make_feature_union_raises [coref_features.minimal_features]
           [coref_features.distance_features_default] failing_features
           [the_dog 0 "A"; it_ 1 "A"] 0 1 [[("crossover", 1%Z)]]).
  - repeat constructor.
  - reflexivity.
Defined.

(** * Documents without a kept markable in [train] *)

(** [train] divides the loss of a document by the number of its kept
    markables: a document with no markable whose [end_token] is below
    [word_limit] (an empty document among them), for which the embedding
    producer and the oracle return, makes it raise [ZeroDivisionError]. *)
Theorem train_raises_without_kept_markables (T : neural_net.Torch)
    (get_true_antecedents : list Markable → result (list nat))
    (doc_lstm_model : list string → result (list neural_net.tensor))
    (attn_model : list neural_net.tensor → Markable
                  → result neural_net.tensor)
    (scoring_model : neural_net.SequentialScorer)
    (feats : coref_features.extractor) (word_limit : nat) (margin : Q)
    (words : list string) (marks : list Markable) :
  Forall (λ m, (Z.of_nat word_limit ≤ Markable.end_token m)%Z) marks →
  is_Ok (doc_lstm_model (take word_limit words)) →
  is_Ok (get_true_antecedents []) →
  neural_net.document_report get_true_antecedents doc_lstm_model attn_model
    scoring_model feats word_limit margin words marks
  = inl neural_net.ZeroDivisionError.
Proof.
  intros Hdropped [base_embs Hbase] [true_ants Hants].
  assert (filter (λ m, (Markable.end_token m < Z.of_nat word_limit)%Z) marks
          = []) as Hkept.
  { induction Hdropped as [|m marks Hm _ IH]; [done|].
    rewrite filter_cons, decide_False by lia. exact IH. }
  unfold neural_net.document_report, neural_net.document_loss.
  rewrite Hkept, Hbase. simpl. rewrite Hants. simpl. done.
Qed.

(** The theorem at work: the dog document with a limit of no word. *)
Lemma train_raises_without_kept_markables_witness :
  neural_net.document_report concrete.get_true_antecedents
    no_word_embeddings start_token_embedding first_entry_scorer
    coref_features.minimal_features 0 1
    ["the"; "dog"; "barked"; "it"; "ran"; "the"; "dog"] dog_document
  = inl neural_net.ZeroDivisionError.
Proof.
  apply (train_raises_without_kept_markables concrete.torch_vectors).
  - unfold dog_document. repeat (apply Forall_cons_2; [simpl; lia|]).
    apply Forall_nil_2.
  - by eexists.
  - by eexists.
Defined.
